(** * FlashSprint: a shallow embedding of FlashSprintConcole.c

    The C program keeps three structures over heap-allocated cards: the card
    list ([cards_head]), the tag hash map ([tag_map], separate chaining) and
    the review queue owned by [main].  Cards are shared by pointer between the
    three, so the embedding has an explicit heap from addresses to card
    records, and every structure holds addresses.

    C [int] values are integers of [Z] wrapped to 32 bits, [unsigned long] is
    wrapped to 64 bits, a C string is a list of characters without the
    terminating NUL, and the standard input and the files are character
    streams read through [fgets].

    The menu loop of [main] runs over the program state and the files of the
    run.  What the program prints is left out: [list_all_cards] and the
    messages change no state, and [search_by_tag] is the list of cards it
    prints.  [malloc] is taken to succeed. *)

From Stdlib Require Import ZArith Ascii String.
From stdpp Require Import gmap list strings.

Local Open Scope Z_scope.

(** ** Machine integers *)

Definition INT_MIN : Z := - 2 ^ 31.
Definition INT_MAX : Z := 2 ^ 31 - 1.
Definition LONG_MIN : Z := - 2 ^ 63.
Definition LONG_MAX : Z := 2 ^ 63 - 1.

(** The value an [int] holds after an arithmetic result [z].  C leaves signed
    overflow undefined; the embedding takes the two's complement wrap-around
    of the usual compilers, and the theorems that depend on it say so. *)
Definition wrap_int (z : Z) : Z := (z + 2 ^ 31) mod 2 ^ 32 - 2 ^ 31.

Definition wrap_ulong (z : Z) : Z := z mod 2 ^ 64.

Definition in_int (z : Z) : Prop := INT_MIN <= z <= INT_MAX.

(** ** C strings *)

Abbreviation cstring := (list ascii).

Definition lit (s : string) : cstring := list_ascii_of_string s.

Definition NUL : ascii := Ascii.zero.
Definition LF : ascii := ascii_of_N 10.
Definition CR : ascii := ascii_of_N 13.

Definition char_code (c : ascii) : Z := Z.of_N (N_of_ascii c).

(** The buffer seen as a C string: everything before the first NUL. *)
Fixpoint c_str (buf : list ascii) : cstring :=
  match buf with
  | [] => []
  | c :: rest => if decide (c = NUL) then [] else c :: c_str rest
  end.

(** [isspace] and [tolower] of the C locale. *)
Definition isspace (c : ascii) : bool :=
  let n := char_code c in (n =? 32) || ((9 <=? n) && (n <=? 13)).

Definition tolower (c : ascii) : ascii :=
  let n := char_code c in
  if (65 <=? n) && (n <=? 90) then ascii_of_N (Z.to_N (n + 32)) else c.

Definition is_newline (c : ascii) : bool :=
  bool_decide (c = LF) || bool_decide (c = CR).

(** Cut the longest suffix whose characters satisfy [f]: the loop
    [while (n>0 && f(s[n-1])) s[--n] = 0]. *)
Fixpoint strip_end (f : ascii → bool) (s : cstring) : cstring :=
  match s with
  | [] => []
  | c :: rest =>
      match strip_end f rest with
      | [] => if f c then [] else [c]
      | r => c :: r
      end
  end.

Fixpoint skip_while (f : ascii → bool) (s : cstring) : cstring :=
  match s with
  | [] => []
  | c :: rest => if f c then skip_while f rest else s
  end.

Definition trim_newline (s : cstring) : cstring := strip_end is_newline s.
Definition str_ltrim (s : cstring) : cstring := skip_while isspace s.
Definition str_rtrim (s : cstring) : cstring := strip_end isspace s.
Definition trim_whitespace (s : cstring) : cstring := str_rtrim (str_ltrim s).
Definition normalize_tag (s : cstring) : cstring := map tolower (trim_whitespace s).

(** [strncpy(dst, src, n); dst[n] = 0]. *)
Definition strncpy (n : nat) (src : cstring) : cstring := take n src.

(** All the tokens [strsep(&p, ",")] returns until it returns NULL. *)
Fixpoint strsep_all (s : cstring) : list cstring :=
  match s with
  | [] => [[]]
  | c :: rest =>
      if decide (c = ","%char) then [] :: strsep_all rest
      else match strsep_all rest with
           | tok :: toks => (c :: tok) :: toks
           | [] => [[c]]
           end
  end.

Definition parse_tag (tok : cstring) : option cstring :=
  match trim_whitespace tok with
  | [] => None
  | t => Some (normalize_tag t)
  end.

Definition parse_tags (line : cstring) : list cstring :=
  omap parse_tag (strsep_all line).

(** *** [atoi] and [%d] *)

Definition digit_val (c : ascii) : option Z :=
  let n := char_code c in
  if (48 <=? n) && (n <=? 57) then Some (n - 48) else None.

Fixpoint digits_val (acc : Z) (s : cstring) : Z :=
  match s with
  | [] => acc
  | c :: rest =>
      match digit_val c with
      | Some d => digits_val (10 * acc + d) rest
      | None => acc
      end
  end.

Definition clamp_long (z : Z) : Z := Z.max LONG_MIN (Z.min LONG_MAX z).

(** [strtol(s, NULL, 10)]: blanks, an optional sign, digits; saturating. *)
Definition strtol (s : cstring) : Z :=
  match skip_while isspace s with
  | c :: rest =>
      if decide (c = "-"%char) then clamp_long (- digits_val 0 rest)
      else if decide (c = "+"%char) then clamp_long (digits_val 0 rest)
      else clamp_long (digits_val 0 (c :: rest))
  | [] => 0
  end.

(** [atoi] is [(int) strtol(s, NULL, 10)]. *)
Definition atoi (s : cstring) : Z := wrap_int (strtol s).

Definition digit_char (d : Z) : ascii := ascii_of_N (Z.to_N (48 + d)).

(** The decimal digits of [n >= 0] in front of [acc], least significant digit
    first, [fuel] digits at most. *)
Fixpoint fmt_u (fuel : nat) (n : Z) (acc : cstring) : cstring :=
  match fuel with
  | O => acc
  | S fuel' =>
      let acc' := digit_char (n mod 10) :: acc in
      if n / 10 =? 0 then acc' else fmt_u fuel' (n / 10) acc'
  end.

(** [printf("%d", z)] for an [int] (ten digits at most). *)
Definition fmt_d (z : Z) : cstring :=
  if z <? 0 then "-"%char :: fmt_u 10 (- z) [] else fmt_u 10 z [].

(** *** [fgets] *)

(** Read at most [n] characters, stopping after a line feed. *)
Fixpoint fgets_chars (n : nat) (inp : list ascii) : list ascii * list ascii :=
  match n, inp with
  | S n', c :: rest =>
      if decide (c = LF) then ([c], rest)
      else let '(l, r) := fgets_chars n' rest in (c :: l, r)
  | _, _ => ([], inp)
  end.

(** [fgets(buf, size, f)]: [None] at end of input, else the string now in
    [buf] and the unread rest of the stream. *)
Definition fgets (size : nat) (inp : list ascii) : option (cstring * list ascii) :=
  match inp with
  | [] => None
  | _ => let '(l, r) := fgets_chars (size - 1) inp in Some (c_str l, r)
  end.

Definition LINEBUF : nat := 4096.
Definition TAG_HASH_SIZE : Z := 1031.

(** ** Data model *)

(** A [Card *]: the address [malloc] returned. *)
Abbreviation ptr := nat.

(** [struct Card], without the [next] link (the card list is [cards_head]
    below) and with [tag_count] as the length of [tags]. *)
Record Card := mkCard {
  card_id : Z;
  question : cstring;
  answer : cstring;
  tags : list cstring;
  interval : Z;
  due_in : Z
}.

(** [struct Queue]: the linked nodes from [head] to [tail], and [size]. *)
Record Queue := mkQueue {
  q_nodes : list ptr;
  q_size : Z
}.

(** [struct TagEntry2]: a tag and its [CardListNode] list. *)
Record TagEntry2 := mkTagEntry {
  tag : cstring;
  cards : list ptr
}.

(** The globals of the program, the heap of cards and the queue of [main]. *)
Record State := mkState {
  heap : gmap ptr Card;
  cards_head : list ptr;
  next_card_id : Z;
  tag_map : list (list TagEntry2);
  queue : Queue
}.

#[global] Instance Card_eq_dec : EqDecision Card.
Proof. solve_decision. Defined.
#[global] Instance TagEntry2_eq_dec : EqDecision TagEntry2.
Proof. solve_decision. Defined.
#[global] Instance Queue_eq_dec : EqDecision Queue.
Proof. solve_decision. Defined.

Definition null_card : Card := mkCard 0 [] [] [] 0 0.

(** [*c] for a card pointer.  Every pointer the program follows is live
    (see [wf_live]); the default is never read in a reachable state. *)
Definition deref (h : gmap ptr Card) (c : ptr) : Card := default null_card (h !! c).

Definition set_interval (v : Z) (cd : Card) : Card :=
  mkCard (card_id cd) (question cd) (answer cd) (tags cd) v (due_in cd).
Definition set_due_in (v : Z) (cd : Card) : Card :=
  mkCard (card_id cd) (question cd) (answer cd) (tags cd) (interval cd) v.

Definition set_heap (h : gmap ptr Card) (st : State) : State :=
  mkState h (cards_head st) (next_card_id st) (tag_map st) (queue st).
Definition set_queue (q : Queue) (st : State) : State :=
  mkState (heap st) (cards_head st) (next_card_id st) (tag_map st) q.
Definition set_next_card_id (n : Z) (st : State) : State :=
  mkState (heap st) (cards_head st) n (tag_map st) (queue st).

(** [c->field = v] through the heap. *)
Definition store_card (f : Card → Card) (c : ptr) (st : State) : State :=
  set_heap (alter f c (heap st)) st.

(** ** Queue *)

Definition queue_create : Queue := mkQueue [] 0.

Definition queue_enqueue (q : Queue) (c : ptr) : Queue :=
  mkQueue (q_nodes q ++ [c]) (wrap_int (q_size q + 1)).

Definition queue_dequeue (q : Queue) : option ptr * Queue :=
  match q_nodes q with
  | [] => (None, q)
  | c :: rest => (Some c, mkQueue rest (wrap_int (q_size q - 1)))
  end.

Definition queue_is_empty (q : Queue) : bool :=
  match q_nodes q with [] => true | _ => false end.

Definition queue_free_nodes (q : Queue) : Queue := mkQueue [] 0.

(** ** Tag hash map *)

(** djb2 over [unsigned long]. *)
Definition str_hash (s : cstring) : Z :=
  foldl (λ h c, wrap_ulong (wrap_ulong (wrap_ulong (Z.shiftl h 5) + h) + char_code c))
        5381 s.

Definition bucket_of (t : cstring) : nat := Z.to_nat (str_hash t `mod` TAG_HASH_SIZE).

(** [tag_map[h]], the chain of bucket [h]. *)
Definition chain (m : list (list TagEntry2)) (h : nat) : list TagEntry2 :=
  default [] (m !! h).

(** The first entry of a chain whose tag is [t] ([strcmp(e->tag, t) == 0]). *)
Fixpoint chain_find (t : cstring) (ch : list TagEntry2) : option TagEntry2 :=
  match ch with
  | [] => None
  | e :: rest => if decide (tag e = t) then Some e else chain_find t rest
  end.

(** Update that entry in place. *)
Fixpoint chain_alter (f : TagEntry2 → TagEntry2) (t : cstring) (ch : list TagEntry2)
  : list TagEntry2 :=
  match ch with
  | [] => []
  | e :: rest => if decide (tag e = t) then f e :: rest else e :: chain_alter f t rest
  end.

(** Unlink that entry. *)
Fixpoint chain_unlink (t : cstring) (ch : list TagEntry2) : list TagEntry2 :=
  match ch with
  | [] => []
  | e :: rest => if decide (tag e = t) then rest else e :: chain_unlink t rest
  end.

Definition tag_find (m : list (list TagEntry2)) (t : cstring) : option TagEntry2 :=
  chain_find t (chain m (bucket_of t)).

Definition tag_add_card (t : cstring) (card : ptr) (m : list (list TagEntry2))
  : list (list TagEntry2) :=
  let h := bucket_of t in
  match chain_find t (chain m h) with
  | Some _ =>
      <[h := chain_alter (λ e, mkTagEntry (tag e) (card :: cards e)) t (chain m h)]> m
  | None => <[h := mkTagEntry t [card] :: chain m h]> m
  end.

(** Remove the first node holding [card] from a card list. *)
Fixpoint remove_first (card : ptr) (l : list ptr) : list ptr :=
  match l with
  | [] => []
  | x :: rest => if decide (x = card) then rest else x :: remove_first card rest
  end.

Definition tag_remove_card_from_tag_entry (e : TagEntry2) (card : ptr) : TagEntry2 :=
  mkTagEntry (tag e) (remove_first card (cards e)).

(** One round of the loop of [tag_remove_card], for the tag [t] of the card. *)
Definition tag_remove_one (card : ptr) (m : list (list TagEntry2)) (t : cstring)
  : list (list TagEntry2) :=
  match tag_find m t with
  | Some e =>
      let h := bucket_of (tag e) in
      match cards (tag_remove_card_from_tag_entry e card) with
      | [] => <[h := chain_unlink t (chain m h)]> m
      | _ => <[h := chain_alter (λ e, tag_remove_card_from_tag_entry e card) t (chain m h)]> m
      end
  | None => m
  end.

Definition tag_remove_card (card : ptr) (card_tags : list cstring)
    (m : list (list TagEntry2)) : list (list TagEntry2) :=
  foldl (tag_remove_one card) m card_tags.

(** ** Card storage *)

(** The address handed out by [malloc]: any address that is not live. *)
Definition malloc (h : gmap ptr Card) : ptr := fresh (dom h).

Definition create_card (q a : cstring) (tgs : list cstring) (st : State) : ptr * State :=
  let c := malloc (heap st) in
  let cd := mkCard (next_card_id st) q a tgs 1 0 in
  (c, mkState (<[c := cd]> (heap st))
              (c :: cards_head st)
              (wrap_int (next_card_id st + 1))
              (foldl (λ m t, tag_add_card t c m) (tag_map st) tgs)
              (queue st)).

Definition delete_card (c : ptr) (st : State) : State :=
  mkState (delete c (heap st))
          (remove_first c (cards_head st))
          (next_card_id st)
          (tag_remove_card c (tags (deref (heap st) c)) (tag_map st))
          (queue st).

Definition find_card_by_id (n : Z) (st : State) : option ptr :=
  snd <$> list_find (λ c, card_id (deref (heap st) c) = n) (cards_head st).

(** [tag_map] with every bucket NULL. *)
Definition empty_tag_map : list (list TagEntry2) :=
  replicate (Z.to_nat TAG_HASH_SIZE) [].
Arguments empty_tag_map : simpl never.

(** The state when [main] starts: no card, [next_card_id = 1], an empty map. *)
Definition init_state : State :=
  mkState ∅ [] 1 empty_tag_map queue_create.

Definition enqueue_card (c : ptr) (st : State) : State :=
  set_queue (queue_enqueue (queue st) c) st.

Definition load_sample_cards (st : State) : State :=
  let '(_, st1) := create_card (lit "What is FIFO in queues?") (lit "First In First Out")
                     [lit "queue"; lit "ds"] st in
  let '(_, st2) := create_card (lit "How to handle collisions in hash map?")
                     (lit "Use chaining (linked lists) or open addressing")
                     [lit "hashmap"; lit "ds"] st1 in
  let '(_, st3) := create_card (lit "What is enqueue operation?")
                     (lit "Insert element at the tail of queue")
                     [lit "queue"; lit "srs"] st2 in
  foldl (λ st c, enqueue_card c st) st3 (cards_head st3).

(** ** Persistence *)

(** The tags of a card joined by commas, as the loop of [save_cards_to_file]
    prints them. *)
Fixpoint join_tags (ts : list cstring) : cstring :=
  match ts with
  | [] => []
  | [t] => t
  | t :: rest => t ++ lit "," ++ join_tags rest
  end.

Definition save_card (cd : Card) : list ascii :=
  lit "ID=" ++ fmt_d (card_id cd) ++ [LF] ++
  lit "Q=" ++ question cd ++ [LF] ++
  lit "A=" ++ answer cd ++ [LF] ++
  lit "T=" ++ join_tags (tags cd) ++ [LF] ++
  lit "I=" ++ fmt_d (interval cd) ++ [LF] ++
  lit "D=" ++ fmt_d (due_in cd) ++ [LF] ++
  lit "---" ++ [LF].

(** The contents of the file [save_cards_to_file] writes. *)
Definition save_cards_to_file (st : State) : list ascii :=
  concat (map (λ c, save_card (deref (heap st) c)) (cards_head st)).

Definition clear_all_data (st : State) : State :=
  mkState (foldl (λ h c, delete c h) (heap st) (cards_head st))
          []
          (next_card_id st)
          empty_tag_map
          (queue_free_nodes (queue st)).

(** The locals of [load_cards_from_file]. *)
Record LoadVars := mkLoadVars {
  lv_id : Z;
  lv_interval : Z;
  lv_due : Z;
  lv_qtext : option cstring;
  lv_atext : option cstring;
  lv_tagsline : option cstring
}.

Definition load_vars0 : LoadVars := mkLoadVars 0 1 0 None None None.

(** [strncmp(line, pre, strlen(pre)) == 0]. *)
Definition starts_with (pre line : cstring) : bool :=
  bool_decide (take (length pre) line = pre).

(** The block under [if (qtext && atext)]. *)
Definition load_commit (v : LoadVars) (st : State) : State :=
  match lv_qtext v, lv_atext v with
  | Some q, Some a =>
      let tks := parse_tags (default [] (lv_tagsline v)) in
      let '(c, st1) := create_card q a tks st in
      let st2 := store_card (set_interval (if 0 <? lv_interval v then lv_interval v else 1)) c st1 in
      let st3 := store_card (set_due_in (if 0 <=? lv_due v then lv_due v else 0)) c st2 in
      let st4 := if lv_id v >=? next_card_id st3
                 then set_next_card_id (wrap_int (lv_id v + 1)) st3 else st3 in
      enqueue_card c st4
  | _, _ => st
  end.

(** One line of the file, already through [trim_newline]. *)
Definition load_line (line : cstring) (vs : LoadVars * State) : LoadVars * State :=
  let '(v, st) := vs in
  if starts_with (lit "ID=") line then
    (mkLoadVars (atoi (drop 3 line)) (lv_interval v) (lv_due v)
                (lv_qtext v) (lv_atext v) (lv_tagsline v), st)
  else if starts_with (lit "Q=") line then
    (mkLoadVars (lv_id v) (lv_interval v) (lv_due v)
                (Some (drop 2 line)) (lv_atext v) (lv_tagsline v), st)
  else if starts_with (lit "A=") line then
    (mkLoadVars (lv_id v) (lv_interval v) (lv_due v)
                (lv_qtext v) (Some (drop 2 line)) (lv_tagsline v), st)
  else if starts_with (lit "T=") line then
    (mkLoadVars (lv_id v) (lv_interval v) (lv_due v)
                (lv_qtext v) (lv_atext v) (Some (drop 2 line)), st)
  else if starts_with (lit "I=") line then
    (mkLoadVars (lv_id v) (atoi (drop 2 line)) (lv_due v)
                (lv_qtext v) (lv_atext v) (lv_tagsline v), st)
  else if starts_with (lit "D=") line then
    (mkLoadVars (lv_id v) (lv_interval v) (atoi (drop 2 line))
                (lv_qtext v) (lv_atext v) (lv_tagsline v), st)
  else if bool_decide (line = lit "---") then (load_vars0, load_commit v st)
  else (v, st).

(** [while (fgets(line, sizeof(line), f))]; every round reads at least one
    character, so [length inp] rounds of fuel reach the end of the file. *)
Fixpoint load_loop (fuel : nat) (inp : list ascii) (vs : LoadVars * State)
  : LoadVars * State :=
  match fuel with
  | O => vs
  | S fuel' =>
      match fgets LINEBUF inp with
      | None => vs
      | Some (line, rest) => load_loop fuel' rest (load_line (trim_newline line) vs)
      end
  end.

(** [load_cards_from_file] when [fopen] succeeds, on the contents of the file. *)
Definition load_cards_from_file (file : list ascii) (st : State) : State :=
  let '(v, st1) := load_loop (length file) file (load_vars0, clear_all_data st) in
  load_commit v st1.

(** ** Practice scheduler *)

(** [card->due_in -= 1], where [due_in > 0]: no overflow. *)
Definition dec_due_in (cd : Card) : Card := set_due_in (due_in cd - 1) cd.

(** The inner [while (scanned < initial_size)] of [practice_loop], with [n]
    rounds left: the card found (if any), the final value of [scanned] and the
    state. *)
Fixpoint scan_loop (n : nat) (scanned : Z) (st : State) : option ptr * Z * State :=
  match n with
  | O => (None, scanned, st)
  | S n' =>
      match queue_dequeue (queue st) with
      | (None, _) => (None, scanned, st)
      | (Some card, q') =>
          if 0 <? due_in (deref (heap st) card) then
            scan_loop n' (scanned + 1)
              (set_queue (queue_enqueue q' card) (store_card dec_due_in card st))
          else (Some card, scanned, set_queue q' st)
      end
  end.

(** One scan pass: [initial_size = q->size] rounds at most. *)
Definition scan (st : State) : option ptr * Z * State :=
  scan_loop (Z.to_nat (q_size (queue st))) 0 st.

(** The verdict branch: a first character [y] or [Y] is a correct answer,
    anything else an incorrect one. *)
Definition is_yes (cmd : cstring) : bool :=
  match cmd with
  | c :: _ => bool_decide (c = "y"%char) || bool_decide (c = "Y"%char)
  | [] => false
  end.

Definition grade_correct (cd : Card) : Card :=
  let i := wrap_int (interval cd * 2) in
  let i := if i <? 1 then 1 else i in
  set_due_in i (set_interval i cd).

Definition grade_incorrect (cd : Card) : Card :=
  set_due_in 1 (set_interval 1 cd).

Definition grade (cmd : cstring) (c : ptr) (st : State) : State :=
  store_card (if is_yes cmd then grade_correct else grade_incorrect) c st.

(** How one round of the outer [while (cont)] ends. *)
Inductive Round :=
| Again    (* [continue], or the end of the loop body *)
| Break    (* ['q']: leave the loop *)
| Return.  (* [return] inside the loop *)

Definition practice_round (inp : list ascii) (st : State) : Round * list ascii * State :=
  let '(found, _, st1) := scan st in
  match found with
  | None =>
      if q_size (queue st1) =? 0 then (Return, inp, st1) else (Again, inp, st1)
  | Some c =>
      match fgets 16 inp with
      | None => (Return, inp, st1)
      | Some (cmd, inp1) =>
          if decide (trim_newline cmd = lit "q") then (Break, inp1, enqueue_card c st1)
          else
            match fgets 16 inp1 with
            | None => (Return, inp1, st1)
            | Some (cmd2, inp2) =>
                if decide (trim_newline cmd2 = lit "q")
                then (Break, inp2, enqueue_card c st1)
                else (Again, inp2, enqueue_card c (grade (trim_newline cmd2) c st1))
            end
      end
  end.

Fixpoint practice_rounds (fuel : nat) (inp : list ascii) (st : State)
  : option (list ascii * State) :=
  match fuel with
  | O => None
  | S fuel' =>
      match practice_round inp st with
      | (Again, inp', st') => practice_rounds fuel' inp' st'
      | (_, inp', st') => Some (inp', st')
      end
  end.

(** [practice_loop]; [None] when [fuel] rounds do not reach the end. *)
Definition practice_loop (fuel : nat) (inp : list ascii) (st : State)
  : option (list ascii * State) :=
  if q_size (queue st) =? 0 then Some (inp, st) else practice_rounds fuel inp st.

(** ** User interface *)

(** The cards [search_by_tag] lists, in the order it prints them. *)
Definition search_by_tag (t : cstring) (st : State) : list ptr :=
  let nt := normalize_tag (strncpy 255 t) in
  match tag_find (tag_map st) nt with
  | Some e => cards e
  | None => []
  end.

(** What [add_card_interactive] reports. *)
Inductive AddResult :=
| AddEOF                 (* input ended at one of the prompts *)
| AddEmptyQuestion       (* "Empty question — cancelled." *)
| Added (c : ptr).       (* "Added card ID ..." *)

Definition add_card_interactive (inp : list ascii) (st : State)
  : AddResult * list ascii * State :=
  match fgets LINEBUF inp with
  | None => (AddEOF, inp, st)
  | Some (buf, inp1) =>
      let qtext := trim_newline buf in
      if decide (length qtext = 0%nat) then (AddEmptyQuestion, inp1, st)
      else
        match fgets LINEBUF inp1 with
        | None => (AddEOF, inp1, st)
        | Some (buf2, inp2) =>
            let atext := trim_newline buf2 in
            match fgets LINEBUF inp2 with
            | None => (AddEOF, inp2, st)
            | Some (buf3, inp3) =>
                let tks := parse_tags (trim_newline buf3) in
                let '(c, st1) := create_card qtext atext tks st in
                let st2 := store_card (set_due_in 0) c st1 in
                (Added c, inp3, enqueue_card c st2)
            end
        end
  end.

(** What [remove_card_interactive] reports. *)
Inductive RemoveResult :=
| RemoveEOF
| NoCard (n : Z)         (* "No card with ID ..." *)
| Deleted (n : Z).       (* "Deleted card #..." *)

Definition remove_card_interactive (inp : list ascii) (st : State)
  : RemoveResult * list ascii * State :=
  match fgets 64 inp with
  | None => (RemoveEOF, inp, st)
  | Some (buf, inp1) =>
      let n := atoi buf in
      match find_card_by_id n st with
      | None => (NoCard n, inp1, st)
      | Some c =>
          let kept := filter (λ x, x ≠ c) (q_nodes (queue st)) in
          let st1 := delete_card c (set_queue (mkQueue kept (q_size (queue st))) st) in
          (Deleted n, inp1,
           set_queue (mkQueue kept (wrap_int (Z.of_nat (length kept)))) st1)
      end
  end.

(** The state [main] enters its menu loop with. *)
Definition main_state : State := load_sample_cards init_state.

(** ** The menu of [main] *)

(** The program state and the files of the run: the contents of every file
    that [fopen(name, "r")] opens. *)
Record World := mkWorld {
  w_state : State;
  w_files : gmap cstring (list ascii)
}.

(** How one round of the [for (;;)] of [main] ends. *)
Inductive Step :=
| Next (inp : list ascii) (w : World)   (* the loop goes round *)
| Stop (w : World).                     (* [break] *)

Section menu.

(** Whether [fopen(name, "w")] succeeds.  A file it has written can be read
    back. *)
Variable can_write : cstring → bool.

(** [save_cards_to_file(name)]: nothing happens when the file cannot be
    opened. *)
Definition save_to (name : cstring) (w : World) : World :=
  if can_write name
  then mkWorld (w_state w) (<[name := save_cards_to_file (w_state w)]> (w_files w))
  else w.

(** [load_cards_from_file(name, q)]: nothing happens, not even the clearing,
    when the file cannot be opened. *)
Definition load_from (name : cstring) (w : World) : World :=
  match w_files w !! name with
  | Some file => mkWorld (load_cards_from_file file (w_state w)) (w_files w)
  | None => w
  end.

(** One round of the menu loop; [None] when a practice session does not
    return within [pfuel] rounds.  Options 4 and 5 only print. *)
Definition menu_step (pfuel : nat) (inp : list ascii) (w : World) : option Step :=
  match fgets LINEBUF inp with
  | None => Some (Stop w)
  | Some (buf, inp1) =>
      let cmd := trim_newline buf in
      if decide (cmd = lit "1") then
        match practice_loop pfuel inp1 (w_state w) with
        | Some (inp2, st') => Some (Next inp2 (mkWorld st' (w_files w)))
        | None => None
        end
      else if decide (cmd = lit "2") then
        let '(_, inp2, st') := add_card_interactive inp1 (w_state w) in
        Some (Next inp2 (mkWorld st' (w_files w)))
      else if decide (cmd = lit "3") then
        let '(_, inp2, st') := remove_card_interactive inp1 (w_state w) in
        Some (Next inp2 (mkWorld st' (w_files w)))
      else if decide (cmd = lit "4") then
        match fgets LINEBUF inp1 with
        | None => Some (Stop w)
        | Some (_, inp2) => Some (Next inp2 w)
        end
      else if decide (cmd = lit "5") then Some (Next inp1 w)
      else if decide (cmd = lit "6") then
        match fgets LINEBUF inp1 with
        | None => Some (Stop w)
        | Some (buf2, inp2) => Some (Next inp2 (save_to (trim_newline buf2) w))
        end
      else if decide (cmd = lit "7") then
        match fgets LINEBUF inp1 with
        | None => Some (Stop w)
        | Some (buf2, inp2) => Some (Next inp2 (load_from (trim_newline buf2) w))
        end
      else if decide (cmd = lit "8") then Some (Stop w)
      else Some (Next inp1 w)
  end.

(** The menu loop, [fuel] rounds at most: the world at the [break]. *)
Fixpoint main_loop (fuel pfuel : nat) (inp : list ascii) (w : World) : option World :=
  match fuel with
  | O => None
  | S fuel' =>
      match menu_step pfuel inp w with
      | Some (Next inp' w') => main_loop fuel' pfuel inp' w'
      | Some (Stop w') => Some w'
      | None => None
      end
  end.

(** [main]: the sample cards, the menu loop, the cleanup. *)
Definition main (fuel pfuel : nat) (inp : list ascii) (files : gmap cstring (list ascii))
  : option World :=
  match main_loop fuel pfuel inp (mkWorld main_state files) with
  | Some w => Some (mkWorld (clear_all_data (w_state w)) (w_files w))
  | None => None
  end.

End menu.

(** ** Invariants *)

(** How often [x] occurs in [l]. *)
Fixpoint occ {A : Type} `{EqDecision A} (x : A) (l : list A) : nat :=
  match l with
  | [] => 0
  | y :: rest => (if decide (y = x) then 1 else 0) + occ x rest
  end.

(** The card list of the entry of [t], empty when there is no entry. *)
Definition cards_of (m : list (list TagEntry2)) (t : cstring) : list ptr :=
  match tag_find m t with
  | Some e => cards e
  | None => []
  end.

(** The shape invariant of the hash map: [TAG_HASH_SIZE] chains, every entry
    is in the chain of its hash and lists at least one card, and a chain has
    one entry per tag. *)
Record map_ok (m : list (list TagEntry2)) : Prop := {
  map_len : length m = Z.to_nat TAG_HASH_SIZE;
  map_entry : ∀ h e, e ∈ chain m h → bucket_of (tag e) = h ∧ cards e ≠ [];
  map_nodup : ∀ h, NoDup (tag <$> chain m h)
}.

(** The scheduling fields of a card are in range. *)
Definition sched_ok (cd : Card) : Prop :=
  1 ≤ interval cd ≤ INT_MAX ∧ 0 ≤ due_in cd ≤ INT_MAX.

(** The invariant of the program state. *)
Record wf (st : State) : Prop := {
  (* the card list has no repeated node, and holds exactly the live cards *)
  wf_store_nodup : NoDup (cards_head st);
  wf_live : ∀ c, c ∈ cards_head st ↔ is_Some (heap st !! c);
  (* the queue holds stored cards, each at most once, and counts its nodes *)
  wf_queue_nodup : NoDup (q_nodes (queue st));
  wf_queue_store : ∀ c, c ∈ q_nodes (queue st) → c ∈ cards_head st;
  wf_queue_size : q_size (queue st) = wrap_int (Z.of_nat (length (q_nodes (queue st))));
  (* the tag map lists a stored card under a tag once per occurrence of the
     tag among its tags, and lists no other card *)
  wf_map : map_ok (tag_map st);
  wf_index : ∀ t c,
    occ c (cards_of (tag_map st) t)
    = if decide (c ∈ cards_head st) then occ t (tags (deref (heap st) c)) else 0%nat;
  (* the scheduling fields *)
  wf_sched : ∀ c cd, heap st !! c = Some cd → sched_ok cd
}.

(** The states of a run of [main]: the menu commands that change the state,
    on any input and any file, and within practice every round of the outer
    loop and every number of rounds of a scan pass. *)
Inductive reachable : State → Prop :=
| reach_main : reachable main_state
| reach_scan st n k : reachable st → reachable (scan_loop n k st).2
| reach_round st inp : reachable st → reachable (practice_round inp st).2
| reach_add st inp : reachable st → reachable (add_card_interactive inp st).2
| reach_remove st inp : reachable st → reachable (remove_card_interactive inp st).2
| reach_load st file : reachable st → reachable (load_cards_from_file file st).

(** The heap after [card->due_in -= 1] on every card of [l]. *)
Definition dec_all (l : list ptr) (h : gmap ptr Card) : gmap ptr Card :=
  foldl (λ h x, alter dec_due_in x h) h l.

(** ** Sequences of creations and deletions *)

(** The two operations that change the set of cards. *)
Inductive StoreOp :=
| OpAdd       (* menu entry 2, [add_card_interactive] *)
| OpDelete.   (* menu entry 3, [remove_card_interactive] *)

Definition run_op (op : StoreOp) (s : list ascii * State) : list ascii * State :=
  match op with
  | OpAdd => let r := add_card_interactive s.1 s.2 in (r.1.2, r.2)
  | OpDelete => let r := remove_card_interactive s.1 s.2 in (r.1.2, r.2)
  end.

Definition run_ops (ops : list StoreOp) (s : list ascii * State) : list ascii * State :=
  foldl (λ s op, run_op op s) s ops.

(** The ids of the cards of a list of pointers. *)
Definition ids (h : gmap ptr Card) (l : list ptr) : list Z :=
  (λ c, card_id (deref h c)) <$> l.

(** The cards [queue_dequeue] returns until it returns NULL, in [n] calls at
    most. *)
Fixpoint drain (n : nat) (q : Queue) : list ptr :=
  match n with
  | O => []
  | S n' =>
      match queue_dequeue q with
      | (Some c, q') => c :: drain n' q'
      | (None, _) => []
      end
  end.

(** Draining the queue; one call per node reaches the NULL (see
    [drain_enough]). *)
Definition drain_all (q : Queue) : list ptr := drain (S (length (q_nodes q))) q.

(** The card list and the queue hold the same cards. *)
Record paired (st : State) : Prop := {
  pair_wf : wf st;
  pair_queue : ∀ c, c ∈ cards_head st → c ∈ q_nodes (queue st)
}.

(** The ids in use are pairwise different and below the id counter. *)
Record ids_fresh (st : State) : Prop := {
  fresh_ids : NoDup (ids (heap st) (cards_head st));
  fresh_below : ∀ c, c ∈ cards_head st → card_id (deref (heap st) c) < next_card_id st;
  fresh_next : INT_MIN ≤ next_card_id st
}.

(** The locals of [load_cards_from_file] that hold numbers are [int]s. *)
Definition lv_ok (v : LoadVars) : Prop := in_int (lv_interval v) ∧ in_int (lv_due v).

(** The rotations the cards of a list still have to wait, summed: what a
    scan pass without a due card decreases. *)
Definition due_sum (h : gmap ptr Card) (l : list ptr) : nat :=
  sum_list_with (λ c, Z.to_nat (due_in (deref h c))) l.

(** ** Cards that fit the file format *)

(** A text that one [fgets] of the loader reads back whole after the two
    characters of its key: no line feed, no NUL, no line feed or carriage
    return at its end, and short enough for the line buffer. *)
Record text_ok (s : cstring) : Prop := {
  text_lf : LF ∉ s;
  text_nul : NUL ∉ s;
  text_end : trim_newline s = s;
  text_len : (length s + 4 ≤ LINEBUF)%nat
}.

(** A tag as [parse_tags] produces it: not empty, trimmed, in lower case,
    without comma, line feed or NUL. *)
Record tag_ok (t : cstring) : Prop := {
  tag_nonempty : t ≠ [];
  tag_comma : ","%char ∉ t;
  tag_lf : LF ∉ t;
  tag_nul : NUL ∉ t;
  tag_trimmed : trim_whitespace t = t;
  tag_lower : map tolower t = t
}.

Record storable (cd : Card) : Prop := {
  stor_id : in_int (card_id cd);
  stor_question : text_ok (question cd);
  stor_answer : text_ok (answer cd);
  stor_tags : Forall tag_ok (tags cd);
  stor_tagline : (length (join_tags (tags cd)) + 4 ≤ LINEBUF)%nat;
  stor_sched : sched_ok cd
}.

(** The locals of [load_cards_from_file] when it reaches the [---] of a
    saved card. *)
Definition vars_of (cd : Card) : LoadVars :=
  mkLoadVars (card_id cd) (interval cd) (due_in cd)
             (Some (question cd)) (Some (answer cd)) (Some (join_tags (tags cd))).

(** The cards of a file committed one after the other. *)
Definition reload (cds : list Card) (st : State) : State :=
  foldl (λ st cd, load_commit (vars_of cd) st) st cds.

(** A text as the program stores it: a line without its end. *)
Record text_wf (s : cstring) : Prop := {
  twf_lf : LF ∉ s;
  twf_nul : NUL ∉ s;
  twf_end : trim_newline s = s
}.

(** The texts, the tags and the id of a card are well formed. *)
Record card_wf (cd : Card) : Prop := {
  cwf_id : in_int (card_id cd);
  cwf_question : text_wf (question cd);
  cwf_answer : text_wf (answer cd);
  cwf_tags : Forall tag_ok (tags cd)
}.

(** The invariant of the texts of a state. *)
Record texts_wf (st : State) : Prop := {
  texts_cards : ∀ c cd, heap st !! c = Some cd → card_wf cd;
  texts_next : in_int (next_card_id st)
}.

(** The texts of a card are short enough for the line buffer of the loader,
    each behind its two-character key. *)
Record fits (cd : Card) : Prop := {
  fits_question : (length (question cd) + 4 ≤ LINEBUF)%nat;
  fits_answer : (length (answer cd) + 4 ≤ LINEBUF)%nat;
  fits_tags : (length (join_tags (tags cd)) + 4 ≤ LINEBUF)%nat
}.

(** The texts among the locals of [load_cards_from_file]. *)
Record lv_texts (v : LoadVars) : Prop := {
  lvt_q : ∀ s, lv_qtext v = Some s → text_wf s;
  lvt_a : ∀ s, lv_atext v = Some s → text_wf s;
  lvt_t : ∀ s, lv_tagsline v = Some s → text_wf s
}.

(** ** What an operation leaves alone *)

(** The deck of [st'] is the deck of [st]: the same cards in the card list,
    the same tag map and id counter, and every card with its id, question,
    answer and tags.  The scheduling fields and the queue may differ. *)
Record same_deck (st st' : State) : Prop := {
  deck_list : cards_head st' = cards_head st;
  deck_map : tag_map st' = tag_map st;
  deck_next : next_card_id st' = next_card_id st;
  deck_live : ∀ c, is_Some (heap st' !! c) ↔ is_Some (heap st !! c);
  deck_id : ∀ c, card_id (deref (heap st') c) = card_id (deref (heap st) c);
  deck_question : ∀ c, question (deref (heap st') c) = question (deref (heap st) c);
  deck_answer : ∀ c, answer (deref (heap st') c) = answer (deref (heap st) c);
  deck_tags : ∀ c, tags (deref (heap st') c) = tags (deref (heap st) c)
}.

(** A stream of whole lines: empty, or ending in a line feed. *)
Definition whole_lines (inp : list ascii) : Prop := inp = [] ∨ last inp = Some LF.

(** The lines [load_cards_from_file] acts on: the six keys and the
    separator. *)
Definition is_key_line (s : cstring) : bool :=
  starts_with (lit "ID=") s || starts_with (lit "Q=") s || starts_with (lit "A=") s ||
  starts_with (lit "T=") s || starts_with (lit "I=") s || starts_with (lit "D=") s ||
  bool_decide (s = lit "---").

(** ** Sample inputs *)

(** A line of text as it sits in a stream. *)
Definition line (s : string) : list ascii := lit s ++ [LF].

(** A saved card whose interval is 2^30. *)
Definition overflow_file : list ascii :=
  line "Q=q" ++ line "A=a" ++ line "I=1073741824" ++ line "---".

(** The input of an [add_card_interactive] that lists the tag [x] twice. *)
Definition twice_tagged_input : list ascii := line "q?" ++ line "a" ++ line "x,x".

(** A card whose question line holds three blanks. *)
Definition blank_question_input : list ascii := line "   " ++ line "ans" ++ line "t".

(** A query of 256 characters: 251 blanks, then [queue]. *)
Definition long_query : cstring := replicate 251 " "%char ++ lit "queue".

(** Two saved cards, the first due in one rotation, the second due now. *)
Definition due_file : list ascii :=
  line "Q=a" ++ line "A=b" ++ line "D=1" ++ line "---" ++
  line "Q=c" ++ line "A=d" ++ line "---".

(** What a card holds besides its id. *)
Definition card_data (cd : Card) : cstring * cstring * list cstring * Z * Z :=
  (question cd, answer cd, tags cd, interval cd, due_in cd).

(** One correct answer to the first card of the sample deck. *)
Definition one_answer_input : list ascii := line "" ++ line "y".

(** An add, a delete of card 2, and another add. *)
Definition edit_session_input : list ascii :=
  line "q1" ++ line "a1" ++ line "t1,t2" ++ line "2" ++ line "q2" ++ line "a2" ++ line "".

(** A question line of 4095 characters, as long as one [fgets] of
    [add_card_interactive] takes; the line feed behind it is read as an empty
    answer, and the card has no tag. *)
Definition long_question_input : list ascii :=
  replicate 4095 "x"%char ++ line "" ++ line "".

(** Two saved cards that are not due: in two rotations and in one. *)
Definition waiting_file : list ascii :=
  line "Q=a" ++ line "A=b" ++ line "D=2" ++ line "---" ++
  line "Q=c" ++ line "A=d" ++ line "D=1" ++ line "---".

(** A card with three tag fields, one of them repeated in another case. *)
Definition new_card_input : list ascii :=
  line "What is LIFO?" ++ line "Last In First Out" ++ line " Stack , DS ,,stack".

(** Menu options 6 and 7 on the same file name. *)
Definition save_load_session (name : cstring) : list ascii :=
  line "6" ++ name ++ LF :: line "7" ++ name ++ [LF].

(** * Properties *)

(** ** Counting occurrences *)

Section occurrences.
Context {A : Type} `{EqDecision A}.

Lemma occ_app (x : A) (l k : list A) : occ x (l ++ k) = (occ x l + occ x k)%nat.
Proof. induction l as [|y l IH]; simpl; [done|]. rewrite IH. lia. Qed.

Lemma occ_0 (x : A) (l : list A) : occ x l = 0%nat ↔ x ∉ l.
Proof.
  induction l as [|y l IH]; simpl.
  - split; [intros _; apply not_elem_of_nil | done].
  - rewrite not_elem_of_cons. case_decide; subst.
    + split; [lia | intros [? _]; done].
    + rewrite <- IH. split; [intros; split; [done | lia] | intros [_ ?]; lia].
Qed.

Lemma occ_pos (x : A) (l : list A) : (0 < occ x l)%nat ↔ x ∈ l.
Proof.
  destruct (decide (x ∈ l)) as [Hin|Hnin].
  - split; [done|]. intros _. destruct (occ x l) eqn:E; [|lia].
    apply occ_0 in E. done.
  - split; [|done]. apply occ_0 in Hnin. lia.
Qed.

Lemma NoDup_occ (l : list A) : NoDup l ↔ ∀ x, (occ x l ≤ 1)%nat.
Proof.
  induction l as [|y l IH]; simpl.
  - split; [intros _ x; lia | intros _; constructor].
  - rewrite NoDup_cons, IH. split.
    + intros [Hy Hl] x. case_decide; subst.
      * apply occ_0 in Hy. lia.
      * specialize (Hl x). lia.
    + intros H. split.
      * apply occ_0. specialize (H y). rewrite decide_True in H by done. lia.
      * intros x. specialize (H x). case_decide; lia.
Qed.

End occurrences.

Lemma occ_remove_first (c x : ptr) (l : list ptr) :
  occ x (remove_first c l) = if decide (x = c) then pred (occ c l) else occ x l.
Proof.
  induction l as [|y l IH]; simpl.
  - by case_decide.
  - destruct (decide (y = c)) as [->|Hyc]; simpl.
    + destruct (decide (x = c)) as [->|Hxc]; simpl; [done|].
      rewrite decide_False by done. done.
    + rewrite IH. destruct (decide (x = c)) as [->|Hxc]; simpl; [|done].
      rewrite decide_False by done. done.
Qed.

Lemma remove_first_notin (c : ptr) (l : list ptr) : c ∉ l → remove_first c l = l.
Proof.
  induction l as [|y l IH]; simpl; [done|].
  rewrite not_elem_of_cons. intros [Hne Hl]. rewrite decide_False by done.
  by rewrite IH.
Qed.

Lemma elem_of_remove_first (c x : ptr) (l : list ptr) :
  NoDup l → x ∈ remove_first c l ↔ x ≠ c ∧ x ∈ l.
Proof.
  intros Hnd. rewrite <- !occ_pos, occ_remove_first.
  apply NoDup_occ with (x := c) in Hnd as Hc.
  case_decide; subst; [lia|]. tauto.
Qed.

Lemma NoDup_remove_first (c : ptr) (l : list ptr) : NoDup l → NoDup (remove_first c l).
Proof.
  rewrite !NoDup_occ. intros H x. rewrite occ_remove_first.
  case_decide; subst; [specialize (H c) | specialize (H x)]; lia.
Qed.

(** ** The tag map as a function from tags to card lists *)

Lemma bucket_of_lt (t : cstring) : (bucket_of t < Z.to_nat TAG_HASH_SIZE)%nat.
Proof.
  unfold bucket_of, TAG_HASH_SIZE.
  pose proof (Z.mod_pos_bound (str_hash t) 1031 eq_refl). lia.
Qed.

Lemma chain_insert (m : list (list TagEntry2)) (h h' : nat) (ch : list TagEntry2) :
  (h < length m)%nat →
  chain (<[h := ch]> m) h' = if decide (h = h') then ch else chain m h'.
Proof.
  intros Hlt. unfold chain. case_decide; subst.
  - by rewrite list_lookup_insert_eq.
  - by rewrite list_lookup_insert_ne.
Qed.

Lemma chain_find_Some (t : cstring) (ch : list TagEntry2) (e : TagEntry2) :
  chain_find t ch = Some e → e ∈ ch ∧ tag e = t.
Proof.
  induction ch as [|e' ch IH]; simpl; [done|].
  case_decide.
  - intros [= ->]. split; [left | done].
  - intros [??]%IH. split; [by right | done].
Qed.

Lemma chain_find_None (t : cstring) (ch : list TagEntry2) :
  chain_find t ch = None ↔ t ∉ tag <$> ch.
Proof.
  induction ch as [|e ch IH]; simpl.
  - split; [intros _; apply not_elem_of_nil | done].
  - rewrite not_elem_of_cons. case_decide; subst.
    + split; [done | intros [? _]; done].
    + rewrite IH. split; [intros; split; [congruence | done] | intros [_ ?]; done].
Qed.

Lemma chain_find_alter (f : TagEntry2 → TagEntry2) (t t' : cstring) (ch : list TagEntry2) :
  (∀ e, tag (f e) = tag e) →
  chain_find t' (chain_alter f t ch)
  = if decide (t' = t) then f <$> chain_find t ch else chain_find t' ch.
Proof.
  intros Hf. induction ch as [|e ch IH]; simpl.
  - by case_decide.
  - destruct (decide (tag e = t)) as [Het|Het]; simpl.
    + rewrite Hf. destruct (decide (t' = t)) as [->|Hne].
      * by rewrite !decide_True.
      * rewrite !decide_False by congruence. done.
    + rewrite IH. destruct (decide (t' = t)) as [->|Hne].
      * rewrite !decide_False by done. done.
      * done.
Qed.

Lemma chain_find_unlink (t t' : cstring) (ch : list TagEntry2) :
  NoDup (tag <$> ch) →
  chain_find t' (chain_unlink t ch)
  = if decide (t' = t) then None else chain_find t' ch.
Proof.
  induction ch as [|e ch IH]; simpl.
  - intros _. by case_decide.
  - rewrite NoDup_cons. intros [Hnin Hnd].
    destruct (decide (tag e = t)) as [Het|Het]; simpl.
    + destruct (decide (t' = t)) as [->|Hne].
      * apply chain_find_None. by rewrite <- Het.
      * rewrite decide_False by congruence. done.
    + rewrite IH by done. destruct (decide (t' = t)) as [->|Hne].
      * rewrite decide_False by done. done.
      * done.
Qed.

Lemma elem_of_chain_alter (f : TagEntry2 → TagEntry2) (t : cstring)
    (ch : list TagEntry2) (e : TagEntry2) :
  e ∈ chain_alter f t ch → e ∈ ch ∨ ∃ e0, chain_find t ch = Some e0 ∧ e = f e0.
Proof.
  induction ch as [|e' ch IH]; simpl; [by left|].
  case_decide.
  - rewrite elem_of_cons. intros [->|Hin].
    + right. by exists e'.
    + left. by right.
  - rewrite elem_of_cons. intros [->|Hin].
    + left. left.
    + destruct (IH Hin) as [?|?]; [left; by right | by right].
Qed.

Lemma tags_chain_alter (f : TagEntry2 → TagEntry2) (t : cstring) (ch : list TagEntry2) :
  (∀ e, tag (f e) = tag e) → tag <$> chain_alter f t ch = tag <$> ch.
Proof.
  intros Hf. induction ch as [|e ch IH]; csimpl; [done|].
  case_decide; csimpl; [by rewrite Hf | by rewrite IH].
Qed.

Lemma chain_unlink_sublist (t : cstring) (ch : list TagEntry2) :
  chain_unlink t ch `sublist_of` ch.
Proof.
  induction ch as [|e ch IH]; simpl; [done|].
  case_decide; [by apply sublist_cons | by apply sublist_skip].
Qed.

Lemma tags_chain_unlink (t : cstring) (ch : list TagEntry2) :
  NoDup (tag <$> ch) → NoDup (tag <$> chain_unlink t ch).
Proof.
  intros Hnd. eapply sublist_NoDup; [exact Hnd|].
  apply fmap_sublist, chain_unlink_sublist.
Qed.

(** *** [tag_add_card] *)

Lemma tag_find_add (t t' : cstring) (c : ptr) (m : list (list TagEntry2)) :
  map_ok m →
  tag_find (tag_add_card t c m) t'
  = if decide (t' = t) then Some (mkTagEntry t (c :: cards_of m t)) else tag_find m t'.
Proof.
  intros [Hlen _ _]. unfold cards_of, tag_find, tag_add_card.
  pose proof (bucket_of_lt t) as Hlt. rewrite <- Hlen in Hlt.
  destruct (chain_find t (chain m (bucket_of t))) as [e|] eqn:Hfind.
  - rewrite chain_insert by done.
    destruct (decide (t' = t)) as [->|Hne].
    + rewrite decide_True by done. rewrite chain_find_alter by done.
      rewrite decide_True by done. rewrite Hfind. simpl.
      apply chain_find_Some in Hfind as [_ ->]. done.
    + case_decide as Hb; [|done]. rewrite <- Hb.
      rewrite chain_find_alter by done. by rewrite decide_False.
  - rewrite chain_insert by done.
    destruct (decide (t' = t)) as [->|Hne].
    + rewrite decide_True by done. simpl. by rewrite decide_True.
    + case_decide as Hb; [|done]. rewrite <- Hb. simpl.
      rewrite decide_False by congruence. done.
Qed.

Lemma cards_of_add (t t' : cstring) (c : ptr) (m : list (list TagEntry2)) :
  map_ok m →
  cards_of (tag_add_card t c m) t'
  = if decide (t' = t) then c :: cards_of m t else cards_of m t'.
Proof.
  intros Hok. unfold cards_of at 1. rewrite tag_find_add by done.
  by case_decide.
Qed.

Lemma map_ok_add (t : cstring) (c : ptr) (m : list (list TagEntry2)) :
  map_ok m → map_ok (tag_add_card t c m).
Proof.
  intros [Hlen Hent Hnd]. unfold tag_add_card.
  pose proof (bucket_of_lt t) as Hlt. rewrite <- Hlen in Hlt.
  destruct (chain_find t (chain m (bucket_of t))) as [e|] eqn:Hfind.
  - split.
    + by rewrite length_insert.
    + intros h e'. rewrite chain_insert by done. case_decide as Hb; [|apply Hent].
      intros [Hin|(e0 & He0 & ->)]%elem_of_chain_alter.
      * rewrite <- Hb. by apply Hent.
      * simpl. apply chain_find_Some in He0 as [He0 _].
        apply Hent in He0 as [He0 _]. split; [congruence | done].
    + intros h. rewrite chain_insert by done. case_decide; [|apply Hnd].
      rewrite tags_chain_alter by done. apply Hnd.
  - split.
    + by rewrite length_insert.
    + intros h e'. rewrite chain_insert by done. case_decide as Hb; [|apply Hent].
      rewrite elem_of_cons. intros [->|Hin]; [done|].
      rewrite <- Hb. by apply Hent.
    + intros h. rewrite chain_insert by done. case_decide; [|apply Hnd].
      csimpl. apply NoDup_cons. split; [by apply chain_find_None | apply Hnd].
Qed.

(** *** [tag_remove_card] *)

Lemma tag_find_remove_one (t t' : cstring) (c : ptr) (m : list (list TagEntry2)) :
  map_ok m →
  tag_find (tag_remove_one c m t) t'
  = if decide (t' = t)
    then match remove_first c (cards_of m t) with
         | [] => None
         | cs => Some (mkTagEntry t cs)
         end
    else tag_find m t'.
Proof.
  intros [Hlen _ Hnd]. unfold tag_remove_one, cards_of.
  pose proof (bucket_of_lt t) as Hlt. rewrite <- Hlen in Hlt.
  destruct (tag_find m t) as [e|] eqn:Hfind.
  - unfold tag_find in Hfind. pose proof Hfind as [_ Htag]%chain_find_Some.
    rewrite Htag. simpl.
    destruct (remove_first c (cards e)) as [|x cs] eqn:Hrem.
    + unfold tag_find. rewrite chain_insert by done.
      destruct (decide (t' = t)) as [->|Hne].
      * rewrite decide_True by done. rewrite chain_find_unlink by apply Hnd.
        by rewrite decide_True.
      * case_decide as Hb; [|done]. rewrite <- Hb.
        rewrite chain_find_unlink by (rewrite Hb; apply Hnd).
        by rewrite decide_False.
    + unfold tag_find. rewrite chain_insert by done.
      destruct (decide (t' = t)) as [->|Hne].
      * rewrite decide_True by done. rewrite chain_find_alter by done.
        rewrite decide_True by done. rewrite Hfind. simpl.
        unfold tag_remove_card_from_tag_entry. by rewrite Hrem, Htag.
      * case_decide as Hb; [|done]. rewrite <- Hb.
        rewrite chain_find_alter by done. by rewrite decide_False.
  - destruct (decide (t' = t)) as [->|Hne]; [by rewrite Hfind | done].
Qed.

Lemma cards_of_remove_one (t t' : cstring) (c : ptr) (m : list (list TagEntry2)) :
  map_ok m →
  cards_of (tag_remove_one c m t) t'
  = if decide (t' = t) then remove_first c (cards_of m t) else cards_of m t'.
Proof.
  intros Hok. unfold cards_of at 1. rewrite tag_find_remove_one by done.
  case_decide; [|done]. by destruct (remove_first c (cards_of m t)).
Qed.

Lemma map_ok_remove_one (t : cstring) (c : ptr) (m : list (list TagEntry2)) :
  map_ok m → map_ok (tag_remove_one c m t).
Proof.
  intros [Hlen Hent Hnd]. unfold tag_remove_one.
  pose proof (bucket_of_lt t) as Hlt. rewrite <- Hlen in Hlt.
  destruct (tag_find m t) as [e|] eqn:Hfind; [|done].
  unfold tag_find in Hfind. pose proof Hfind as [_ Htag]%chain_find_Some.
  rewrite Htag. simpl.
  destruct (remove_first c (cards e)) as [|x cs] eqn:Hrem.
  - split.
    + by rewrite length_insert.
    + intros h e'. rewrite chain_insert by done. case_decide as Hb; [|apply Hent].
      intros Hin. rewrite <- Hb. apply Hent.
      eapply elem_of_sublist; [exact Hin | apply chain_unlink_sublist].
    + intros h. rewrite chain_insert by done. case_decide; [|apply Hnd].
      apply tags_chain_unlink, Hnd.
  - split.
    + by rewrite length_insert.
    + intros h e'. rewrite chain_insert by done. case_decide as Hb; [|apply Hent].
      intros [Hin|(e0 & He0 & ->)]%elem_of_chain_alter.
      * rewrite <- Hb. by apply Hent.
      * rewrite Hfind in He0. injection He0 as <-. simpl. rewrite Hrem.
        split; [|done]. by rewrite Htag.
    + intros h. rewrite chain_insert by done. case_decide; [|apply Hnd].
      rewrite tags_chain_alter by done. apply Hnd.
Qed.

Lemma map_ok_remove_card (c : ptr) (tgs : list cstring) (m : list (list TagEntry2)) :
  map_ok m → map_ok (tag_remove_card c tgs m).
Proof.
  unfold tag_remove_card. revert m.
  induction tgs as [|t tgs IH]; intros m Hok; simpl; [done|].
  by apply IH, map_ok_remove_one.
Qed.

(** After [tag_remove_card], the list of a tag has lost one node of the card
    for every time the tag occurs among the tags of the card. *)
Lemma cards_of_remove_card (c : ptr) (tgs : list cstring) (t : cstring)
    (m : list (list TagEntry2)) :
  map_ok m →
  cards_of (tag_remove_card c tgs m) t
  = Nat.iter (occ t tgs) (remove_first c) (cards_of m t).
Proof.
  unfold tag_remove_card. revert m.
  induction tgs as [|t' tgs IH]; intros m Hok; cbn [foldl occ]; [done|].
  rewrite IH by by apply map_ok_remove_one.
  rewrite cards_of_remove_one by done.
  destruct (decide (t = t')) as [->|Hne].
  - rewrite !decide_True by done.
    change (1 + occ t' tgs)%nat with (S (occ t' tgs)).
    by rewrite Nat.iter_succ_r.
  - rewrite !decide_False by congruence. done.
Qed.

Lemma occ_iter_remove_first (c x : ptr) (n : nat) (l : list ptr) :
  occ x (Nat.iter n (remove_first c) l)
  = if decide (x = c) then (occ c l - n)%nat else occ x l.
Proof.
  induction n as [|n IH]; simpl.
  - case_decide; subst; [lia | done].
  - rewrite occ_remove_first. case_decide; subst; rewrite IH; lia.
Qed.

Lemma map_ok_add_all (c : ptr) (tgs : list cstring) (m : list (list TagEntry2)) :
  map_ok m → map_ok (foldl (λ m t, tag_add_card t c m) m tgs).
Proof.
  revert m. induction tgs as [|t tgs IH]; intros m Hok; simpl; [done|].
  by apply IH, map_ok_add.
Qed.

(** After the registration loop of [create_card], the list of a tag has one
    new node of the card for every time the tag occurs among its tags. *)
Lemma cards_of_add_all (c : ptr) (tgs : list cstring) (t : cstring)
    (m : list (list TagEntry2)) :
  map_ok m →
  cards_of (foldl (λ m t, tag_add_card t c m) m tgs) t
  = replicate (occ t tgs) c ++ cards_of m t.
Proof.
  revert m. induction tgs as [|t' tgs IH]; intros m Hok; cbn [foldl occ]; [done|].
  rewrite IH by by apply map_ok_add.
  rewrite cards_of_add by done.
  destruct (decide (t = t')) as [->|Hne].
  - rewrite !decide_True by done.
    change (1 + occ t' tgs)%nat with (S (occ t' tgs)).
    rewrite replicate_S_end, <- app_assoc. done.
  - rewrite !decide_False by congruence. done.
Qed.

Lemma occ_replicate (x c : ptr) (n : nat) :
  occ x (replicate n c) = if decide (x = c) then n else 0%nat.
Proof.
  induction n as [|n IH]; simpl; [by case_decide|].
  rewrite IH. destruct (decide (x = c)) as [->|Hne].
  - by rewrite decide_True.
  - rewrite decide_False by congruence. done.
Qed.

(** ** Machine integer facts *)

Lemma wrap_int_in_int (z : Z) : in_int (wrap_int z).
Proof.
  unfold in_int, wrap_int, INT_MIN, INT_MAX.
  pose proof (Z.mod_pos_bound (z + 2 ^ 31) (2 ^ 32) eq_refl). lia.
Qed.

Lemma wrap_int_id (z : Z) : in_int z → wrap_int z = z.
Proof.
  unfold in_int, wrap_int, INT_MIN, INT_MAX. intros H.
  rewrite Z.mod_small by lia. lia.
Qed.

Lemma wrap_int_add_l (a b : Z) : wrap_int (wrap_int a + b) = wrap_int (a + b).
Proof.
  unfold wrap_int.
  replace ((a + 2 ^ 31) mod 2 ^ 32 - 2 ^ 31 + b + 2 ^ 31)
    with ((a + 2 ^ 31) mod 2 ^ 32 + b) by lia.
  rewrite Zplus_mod_idemp_l. f_equal. f_equal. lia.
Qed.

(** ** The invariant of the program state *)

Lemma chain_empty (h : nat) : chain empty_tag_map h = [].
Proof.
  unfold chain, empty_tag_map.
  destruct (replicate _ [] !! h) eqn:E; [|done].
  by apply lookup_replicate_1 in E as [-> _].
Qed.

Lemma map_ok_empty : map_ok empty_tag_map.
Proof.
  split.
  - unfold empty_tag_map. by rewrite length_replicate.
  - intros h e. rewrite chain_empty. intros He. inversion He.
  - intros h. rewrite chain_empty. constructor.
Qed.

Lemma cards_of_empty (t : cstring) : cards_of empty_tag_map t = [].
Proof. unfold cards_of, tag_find. by rewrite chain_empty. Qed.

Lemma wf_init : wf init_state.
Proof.
  split; simpl.
  - constructor.
  - intros c. rewrite lookup_empty. split; [intros Hc; inversion Hc | by intros [? ?]].
  - constructor.
  - intros c Hc. inversion Hc.
  - done.
  - apply map_ok_empty.
  - intros t c. by rewrite cards_of_empty.
  - intros c cd. by rewrite lookup_empty.
Qed.

Lemma deref_lookup (h : gmap ptr Card) (c : ptr) (cd : Card) :
  h !! c = Some cd → deref h c = cd.
Proof. unfold deref. by intros ->. Qed.

Lemma malloc_fresh (st : State) : wf st → malloc (heap st) ∉ cards_head st.
Proof.
  intros Hwf Hin. apply (wf_live _ Hwf) in Hin.
  apply elem_of_dom in Hin. by apply (is_fresh (dom (heap st))).
Qed.

(** *** Reading the heap *)

Lemma deref_insert (h : gmap ptr Card) (c c' : ptr) (cd : Card) :
  deref (<[c := cd]> h) c' = if decide (c' = c) then cd else deref h c'.
Proof.
  unfold deref. case_decide; subst.
  - by rewrite lookup_insert_eq.
  - by rewrite lookup_insert_ne.
Qed.

Lemma deref_delete_ne (h : gmap ptr Card) (c c' : ptr) :
  c' ≠ c → deref (delete c h) c' = deref h c'.
Proof. intros Hne. unfold deref. by rewrite lookup_delete_ne. Qed.

Lemma deref_alter (f : Card → Card) (h : gmap ptr Card) (c c' : ptr) :
  deref (alter f c h) c'
  = if decide (c' = c ∧ is_Some (h !! c)) then f (deref h c) else deref h c'.
Proof.
  unfold deref. destruct (decide (c' = c)) as [->|Hne].
  - rewrite lookup_alter_eq. destruct (h !! c) as [cd|] eqn:E; simpl.
    + rewrite decide_True; [done|]. split; [done | by exists cd].
    + rewrite decide_False; [done|]. intros [_ [? ?]]. done.
  - rewrite lookup_alter_ne by done. rewrite decide_False; [done|]. by intros [? _].
Qed.

Lemma deref_alter_ne (f : Card → Card) (h : gmap ptr Card) (c c' : ptr) :
  c' ≠ c → deref (alter f c h) c' = deref h c'.
Proof. intros Hne. rewrite deref_alter. rewrite decide_False; [done|]. by intros [? _]. Qed.

Lemma deref_alter_eq (f : Card → Card) (h : gmap ptr Card) (c : ptr) :
  is_Some (h !! c) → deref (alter f c h) c = f (deref h c).
Proof. intros Hc. rewrite deref_alter. by rewrite decide_True. Qed.

Lemma tags_deref_alter (f : Card → Card) (h : gmap ptr Card) (c c' : ptr) :
  (∀ cd, tags (f cd) = tags cd) → tags (deref (alter f c h) c') = tags (deref h c').
Proof.
  intros Hf. rewrite deref_alter. case_decide as H; [|done].
  destruct H as [-> _]. apply Hf.
Qed.

Lemma lookup_delete_all (h : gmap ptr Card) (l : list ptr) (c : ptr) :
  foldl (λ h c, delete c h) h l !! c = if decide (c ∈ l) then None else h !! c.
Proof.
  revert h. induction l as [|x l IH]; intros h; simpl.
  - done.
  - rewrite IH. destruct (decide (c ∈ l)) as [Hin|Hnin].
    + rewrite decide_True by by right. done.
    + destruct (decide (c = x)) as [->|Hne].
      * rewrite decide_True by by left. apply lookup_delete_eq.
      * rewrite decide_False by (rewrite elem_of_cons; tauto).
        by apply lookup_delete_ne.
Qed.

(** *** The operations keep the invariant *)

Lemma wf_set_queue (q : Queue) (st : State) :
  wf st →
  NoDup (q_nodes q) →
  (∀ c, c ∈ q_nodes q → c ∈ cards_head st) →
  q_size q = wrap_int (Z.of_nat (length (q_nodes q))) →
  wf (set_queue q st).
Proof. intros [] ???. by split. Qed.

Lemma wf_enqueue (c : ptr) (st : State) :
  wf st → c ∈ cards_head st → c ∉ q_nodes (queue st) → wf (enqueue_card c st).
Proof.
  intros Hwf Hc Hq. apply wf_set_queue; [done|..]; simpl.
  - apply NoDup_app. split; [apply (wf_queue_nodup _ Hwf)|].
    split; [|apply NoDup_singleton].
    intros x Hx ->%list_elem_of_singleton. done.
  - intros x [Hx| ->%list_elem_of_singleton]%elem_of_app;
      [by apply (wf_queue_store _ Hwf) | done].
  - rewrite (wf_queue_size _ Hwf), wrap_int_add_l, length_app. simpl.
    f_equal. lia.
Qed.

Lemma wf_store_card (f : Card → Card) (c : ptr) (st : State) :
  wf st →
  (∀ cd, tags (f cd) = tags cd) →
  (∀ cd, heap st !! c = Some cd → sched_ok cd → sched_ok (f cd)) →
  wf (store_card f c st).
Proof.
  intros [] Htags Hsched. split; simpl; try done.
  - intros c'. rewrite wf_live0. destruct (decide (c' = c)) as [->|Hne].
    + rewrite lookup_alter_eq. by rewrite fmap_is_Some.
    + by rewrite lookup_alter_ne.
  - intros t c'. rewrite wf_index0. case_decide; [|done].
    by rewrite tags_deref_alter.
  - intros c' cd. destruct (decide (c' = c)) as [->|Hne].
    + rewrite lookup_alter_eq. destruct (heap st !! c) as [cd0|] eqn:E; [|done].
      simpl. intros [= <-]. apply Hsched; [done|]. by eapply wf_sched0.
    + rewrite lookup_alter_ne by done. apply wf_sched0.
Qed.

Lemma wf_create (q a : cstring) (tgs : list cstring) (st : State) :
  wf st → wf (create_card q a tgs st).2.
Proof.
  intros Hwf. pose proof (malloc_fresh st Hwf) as Hfresh.
  destruct Hwf. split; simpl; try done.
  - by apply NoDup_cons.
  - intros c. rewrite elem_of_cons, wf_live0.
    destruct (decide (c = malloc (heap st))) as [->|Hne].
    + rewrite lookup_insert_eq. split; [by eexists | by left].
    + rewrite lookup_insert_ne by done. split; [by intros [?|?] | by right].
  - intros c Hc. right. by apply wf_queue_store0.
  - by apply map_ok_add_all.
  - intros t c. rewrite cards_of_add_all by done.
    rewrite occ_app, occ_replicate, wf_index0, deref_insert.
    destruct (decide (c = malloc (heap st))) as [->|Hne].
    + rewrite decide_False by done. rewrite decide_True by by left. simpl. lia.
    + destruct (decide (c ∈ cards_head st)) as [Hin|Hnin].
      * rewrite decide_True by by right. done.
      * rewrite decide_False; [done|]. rewrite elem_of_cons. tauto.
  - intros c cd. destruct (decide (c = malloc (heap st))) as [->|Hne].
    + rewrite lookup_insert_eq. intros [= <-]. unfold sched_ok, INT_MAX. simpl. lia.
    + rewrite lookup_insert_ne by done. apply wf_sched0.
Qed.

Lemma wf_delete (c : ptr) (st : State) :
  wf st → c ∉ q_nodes (queue st) → wf (delete_card c st).
Proof.
  intros [] Hq. split; simpl; try done.
  - by apply NoDup_remove_first.
  - intros c'. rewrite elem_of_remove_first by done. rewrite wf_live0.
    destruct (decide (c' = c)) as [->|Hne].
    + rewrite lookup_delete_eq. split; [by intros [? _] | by intros [? ?]].
    + rewrite lookup_delete_ne by done. tauto.
  - intros c' Hc'. apply elem_of_remove_first; [done|].
    split; [congruence | by apply wf_queue_store0].
  - by apply map_ok_remove_card.
  - intros t c'. rewrite cards_of_remove_card by done.
    rewrite occ_iter_remove_first.
    destruct (decide (c' = c)) as [->|Hne].
    + rewrite decide_False.
      2:{ rewrite elem_of_remove_first by done. by intros [? _]. }
      rewrite wf_index0. case_decide; lia.
    + rewrite wf_index0, deref_delete_ne by done.
      destruct (decide (c' ∈ cards_head st)) as [Hin|Hnin].
      * rewrite decide_True; [done|]. by apply elem_of_remove_first.
      * rewrite decide_False; [done|]. rewrite elem_of_remove_first by done. tauto.
  - intros c' cd [_ Hc']%lookup_delete_Some. by eapply wf_sched0.
Qed.

Lemma wf_clear (st : State) : wf st → wf (clear_all_data st).
Proof.
  intros []. split; simpl; try done.
  - constructor.
  - intros c. rewrite lookup_delete_all. split; [intros Hc; inversion Hc|].
    case_decide as Hin; [by intros [? ?]|]. by rewrite <- wf_live0.
  - constructor.
  - apply map_ok_empty.
  - intros t c. by rewrite cards_of_empty.
  - intros c cd. rewrite lookup_delete_all. case_decide; [done|]. apply wf_sched0.
Qed.

Lemma wrap_int_idemp (z : Z) : wrap_int (wrap_int z) = wrap_int z.
Proof. apply wrap_int_id, wrap_int_in_int. Qed.

Lemma sched_ok_grade (cmd : cstring) (cd : Card) :
  sched_ok (if is_yes cmd then grade_correct cd else grade_incorrect cd).
Proof.
  unfold sched_ok. destruct (is_yes cmd); simpl.
  - pose proof (wrap_int_in_int (interval cd * 2)) as [_ H].
    destruct (Z.ltb_spec (wrap_int (interval cd * 2)) 1); unfold INT_MAX in *; lia.
  - unfold INT_MAX. lia.
Qed.

Lemma wf_grade (cmd : cstring) (c : ptr) (st : State) : wf st → wf (grade cmd c st).
Proof.
  intros Hwf. unfold grade. apply wf_store_card; [done|..].
  - intros cd. by destruct (is_yes cmd).
  - intros cd _ _. pose proof (sched_ok_grade cmd cd). by destruct (is_yes cmd).
Qed.

(** A scan keeps the invariant, and the card it finds is a stored card that
    has left the queue. *)
Lemma wf_scan_loop (n : nat) (k : Z) (st : State) :
  wf st →
  wf (scan_loop n k st).2 ∧
  ∀ c, (scan_loop n k st).1.1 = Some c →
       c ∈ cards_head (scan_loop n k st).2 ∧ c ∉ q_nodes (queue (scan_loop n k st).2).
Proof.
  revert k st. induction n as [|n IH]; intros k st Hwf; simpl; [done|].
  unfold queue_dequeue.
  destruct (q_nodes (queue st)) as [|c rest] eqn:Hq; simpl; [done|].
  pose proof (wf_queue_nodup _ Hwf) as Hnd. rewrite Hq in Hnd.
  apply NoDup_cons in Hnd as [Hc Hrest].
  assert (Hsub : ∀ x, x ∈ c :: rest → x ∈ cards_head st).
  { intros x Hx. apply (wf_queue_store _ Hwf). by rewrite Hq. }
  destruct (0 <? due_in (deref (heap st) c)) eqn:Hdue.
  - apply IH. apply wf_set_queue; simpl.
    + apply wf_store_card; [done..|].
      intros cd Hcd [Hi Hd]. apply deref_lookup in Hcd. rewrite Hcd in Hdue.
      unfold sched_ok, dec_due_in. simpl. lia.
    + apply NoDup_app. split; [done|]. split; [|apply NoDup_singleton].
      intros x Hx ->%list_elem_of_singleton. done.
    + intros x [Hx| ->%list_elem_of_singleton]%elem_of_app; apply Hsub;
        [by right | by left].
    + rewrite wrap_int_add_l. replace (q_size (queue st) - 1 + 1) with (q_size (queue st)) by lia.
      rewrite (wf_queue_size _ Hwf), Hq, wrap_int_idemp, length_app.
      simpl. f_equal. lia.
  - simpl. split.
    + apply wf_set_queue; simpl; [done..| |].
      * intros x Hx. apply Hsub. by right.
      * rewrite (wf_queue_size _ Hwf), Hq, <- Z.add_opp_r, wrap_int_add_l.
        simpl length. f_equal. lia.
    + intros ? [= <-]. split; [apply Hsub; by left | done].
Qed.

Lemma wf_practice_round (inp : list ascii) (st : State) :
  wf st → wf (practice_round inp st).2.
Proof.
  intros Hwf. unfold practice_round, scan.
  pose proof (wf_scan_loop (Z.to_nat (q_size (queue st))) 0 st Hwf) as [Hwf1 Hfound].
  destruct (scan_loop _ 0 st) as [[found k] st1]. simpl in *.
  destruct found as [c|]; [|by case_match].
  destruct (Hfound c eq_refl) as [Hc Hq].
  destruct (fgets 16 inp) as [[cmd inp1]|]; [|done].
  case_decide; simpl; [by apply wf_enqueue|].
  destruct (fgets 16 inp1) as [[cmd2 inp2]|]; [|done].
  case_decide; simpl; [by apply wf_enqueue|].
  apply wf_enqueue; [by apply wf_grade | done..].
Qed.

Lemma wf_add (inp : list ascii) (st : State) :
  wf st → wf (add_card_interactive inp st).2.
Proof.
  intros Hwf. unfold add_card_interactive.
  destruct (fgets LINEBUF inp) as [[buf inp1]|]; [|done].
  case_decide; [done|].
  destruct (fgets LINEBUF inp1) as [[buf2 inp2]|]; [|done].
  destruct (fgets LINEBUF inp2) as [[buf3 inp3]|]; [|done].
  pose proof (wf_create (trim_newline buf) (trim_newline buf2)
                (parse_tags (trim_newline buf3)) st Hwf) as Hwf1.
  pose proof (malloc_fresh st Hwf) as Hfresh.
  simpl in *. apply wf_enqueue; simpl.
  - apply wf_store_card; [done..|].
    intros cd _ [Hi Hd]. unfold sched_ok, INT_MAX in *. simpl. lia.
  - by left.
  - intros Hq. by apply Hfresh, (wf_queue_store _ Hwf).
Qed.

Lemma find_card_by_id_Some (n : Z) (st : State) (c : ptr) :
  find_card_by_id n st = Some c →
  c ∈ cards_head st ∧ card_id (deref (heap st) c) = n.
Proof.
  unfold find_card_by_id.
  destruct (list_find _ _) as [[i x]|] eqn:E; simpl; [|done].
  intros [= ->]. apply list_find_Some in E as (Hi & Hid & _).
  split; [by eapply list_elem_of_lookup_2 | done].
Qed.

Lemma wf_remove (inp : list ascii) (st : State) :
  wf st → wf (remove_card_interactive inp st).2.
Proof.
  intros Hwf. unfold remove_card_interactive.
  destruct (fgets 64 inp) as [[buf inp1]|]; [|done].
  destruct (find_card_by_id (atoi buf) st) as [c|] eqn:Hfind; [|done].
  simpl.
  set (kept := filter (λ x, x ≠ c) (q_nodes (queue st))).
  change (wf (delete_card c (set_queue (mkQueue kept (wrap_int (Z.of_nat (length kept)))) st))).
  apply wf_delete; simpl.
  - apply wf_set_queue; simpl; [done| | |done].
    + apply NoDup_filter, (wf_queue_nodup _ Hwf).
    + intros x [_ Hx]%list_elem_of_filter. by apply (wf_queue_store _ Hwf).
  - by intros [? _]%list_elem_of_filter.
Qed.

Lemma create_card_fresh (q a : cstring) (tgs : list cstring) (st : State) :
  wf st →
  wf (create_card q a tgs st).2 ∧
  (create_card q a tgs st).1 ∈ cards_head (create_card q a tgs st).2 ∧
  (create_card q a tgs st).1 ∉ q_nodes (queue (create_card q a tgs st).2).
Proof.
  intros Hwf. split; [by apply wf_create|]. simpl. split; [by left|].
  intros Hq. by apply (malloc_fresh st Hwf), (wf_queue_store _ Hwf).
Qed.

Lemma wf_set_next_card_id (n : Z) (st : State) : wf st → wf (set_next_card_id n st).
Proof. intros []. by split. Qed.

Lemma wf_enqueue_all (l : list ptr) (st : State) :
  wf st → NoDup l →
  (∀ c, c ∈ l → c ∈ cards_head st ∧ c ∉ q_nodes (queue st)) →
  wf (foldl (λ st c, enqueue_card c st) st l).
Proof.
  revert st. induction l as [|c l IH]; intros st Hwf Hnd Hl; simpl; [done|].
  apply NoDup_cons in Hnd as [Hc Hnd].
  destruct (Hl c) as [Hcs Hcq]; [by left|].
  apply IH; [by apply wf_enqueue | done |].
  intros x Hx. destruct (Hl x) as [Hxs Hxq]; [by right|].
  split; [done|]. simpl. rewrite elem_of_app, list_elem_of_singleton.
  intros [?| ->]; done.
Qed.

Lemma wf_load_sample_cards (st : State) :
  wf st → q_nodes (queue st) = [] → wf (load_sample_cards st).
Proof.
  intros Hwf Hq. unfold load_sample_cards.
  set (st1 := (create_card (lit "What is FIFO in queues?") (lit "First In First Out")
                 [lit "queue"; lit "ds"] st).2).
  set (st2 := (create_card (lit "How to handle collisions in hash map?")
                 (lit "Use chaining (linked lists) or open addressing")
                 [lit "hashmap"; lit "ds"] st1).2).
  set (st3 := (create_card (lit "What is enqueue operation?")
                 (lit "Insert element at the tail of queue")
                 [lit "queue"; lit "srs"] st2).2).
  change (wf (foldl (λ st c, enqueue_card c st) st3 (cards_head st3))).
  assert (Hwf3 : wf st3) by by do 3 apply wf_create.
  apply wf_enqueue_all; [done | apply (wf_store_nodup _ Hwf3) |].
  intros c Hc. split; [done|].
  change (q_nodes (queue st3)) with (q_nodes (queue st)). rewrite Hq.
  apply not_elem_of_nil.
Qed.

Lemma wf_main_state : wf main_state.
Proof. apply wf_load_sample_cards; [apply wf_init | done]. Qed.

(** *** Loading *)

Lemma atoi_in_int (s : cstring) : in_int (atoi s).
Proof. apply wrap_int_in_int. Qed.

Lemma wf_load_commit (v : LoadVars) (st : State) :
  wf st → lv_ok v → wf (load_commit v st).
Proof.
  intros Hwf [Hi Hd]. unfold load_commit.
  destruct (lv_qtext v) as [q|]; [|done].
  destruct (lv_atext v) as [a|]; [|done].
  pose proof (create_card_fresh q a (parse_tags (default [] (lv_tagsline v))) st Hwf)
    as (Hwf1 & Hc & Hq).
  destruct (create_card q a _ st) as [c st1]. simpl in Hwf1, Hc, Hq.
  apply wf_enqueue.
  - assert (wf (store_card
                  (set_due_in (if 0 <=? lv_due v then lv_due v else 0)) c
                  (store_card
                     (set_interval (if 0 <? lv_interval v then lv_interval v else 1))
                     c st1))) as Hwf3.
    { apply wf_store_card; [|done|].
      - apply wf_store_card; [done..|].
        intros cd _ [? ?]. split; [|done]. simpl.
        unfold in_int, INT_MIN, INT_MAX in *. destruct (Z.ltb_spec 0 (lv_interval v)); lia.
      - intros cd _ [? ?]. split; [done|]. simpl.
        unfold in_int, INT_MIN, INT_MAX in *. destruct (Z.leb_spec 0 (lv_due v)); lia. }
    destruct (lv_id v >=? _); [by apply wf_set_next_card_id | done].
  - by destruct (lv_id v >=? _).
  - by destruct (lv_id v >=? _).
Qed.

Lemma load_line_ok (line : cstring) (v : LoadVars) (st : State) :
  wf st → lv_ok v →
  wf (load_line line (v, st)).2 ∧ lv_ok (load_line line (v, st)).1.
Proof.
  intros Hwf Hv. pose proof Hv as [Hi Hd]. unfold load_line.
  repeat case_match; simpl; try done;
    try (split; [done|]; split; simpl; by try apply atoi_in_int).
  split; [by apply wf_load_commit|]. by split.
Qed.

Lemma load_loop_ok (fuel : nat) (inp : list ascii) (v : LoadVars) (st : State) :
  wf st → lv_ok v →
  wf (load_loop fuel inp (v, st)).2 ∧ lv_ok (load_loop fuel inp (v, st)).1.
Proof.
  revert inp v st.
  induction fuel as [|fuel IH]; intros inp v st Hwf Hv; cbn [load_loop]; [done|].
  destruct (fgets LINEBUF inp) as [[line rest]|]; [|done].
  pose proof (load_line_ok (trim_newline line) v st Hwf Hv) as [Hwf1 Hv1].
  destruct (load_line _ (v, st)) as [v1 st1]. by apply IH.
Qed.

Lemma wf_load (file : list ascii) (st : State) :
  wf st → wf (load_cards_from_file file st).
Proof.
  intros Hwf. unfold load_cards_from_file.
  pose proof (load_loop_ok (length file) file load_vars0 (clear_all_data st)
                (wf_clear st Hwf)) as [Hwf1 Hv1]; [by split|].
  destruct (load_loop _ _ _) as [v1 st1]. by apply wf_load_commit.
Qed.

(** Every state of a run satisfies the invariant. *)
Lemma reachable_wf (st : State) : reachable st → wf st.
Proof.
  induction 1.
  - apply wf_main_state.
  - by apply wf_scan_loop.
  - by apply wf_practice_round.
  - by apply wf_add.
  - by apply wf_remove.
  - by apply wf_load.
Qed.

(** ** The scan pass *)

Lemma dec_all_lookup (l : list ptr) (h : gmap ptr Card) (x : ptr) :
  NoDup l →
  dec_all l h !! x = if decide (x ∈ l) then dec_due_in <$> h !! x else h !! x.
Proof.
  unfold dec_all. revert h. induction l as [|y l IH]; intros h Hnd; simpl; [done|].
  apply NoDup_cons in Hnd as [Hy Hnd]. rewrite IH by done.
  destruct (decide (x = y)) as [->|Hne].
  - rewrite decide_False by done. rewrite decide_True by by left.
    apply lookup_alter_eq.
  - rewrite lookup_alter_ne by done.
    destruct (decide (x ∈ l)) as [Hin|Hnin].
    + by rewrite decide_True by by right.
    + rewrite decide_False; [done|]. rewrite elem_of_cons. tauto.
Qed.

(** The rounds of a scan over cards that are not due: each card has its
    [due_in] decremented and goes to the back of the queue. *)
Lemma scan_loop_rotate (pre post : list ptr) (n : nat) (k : Z) (st : State) :
  q_nodes (queue st) = pre ++ post →
  in_int (q_size (queue st)) →
  NoDup pre →
  (∀ x, x ∈ pre → 0 < due_in (deref (heap st) x)) →
  (length pre ≤ n)%nat →
  scan_loop n k st
  = scan_loop (n - length pre) (k + Z.of_nat (length pre))
      (mkState (dec_all pre (heap st)) (cards_head st) (next_card_id st) (tag_map st)
               (mkQueue (post ++ pre) (q_size (queue st)))).
Proof.
  revert post n k st. induction pre as [|x pre IH]; intros post n k st Hq Hsz Hnd Hdue Hn.
  - simpl in *. rewrite Nat.sub_0_r, Z.add_0_r, app_nil_r, <- Hq.
    by destruct st as [? ? ? ? []].
  - destruct n as [|n]; simpl in Hn; [lia|].
    apply NoDup_cons in Hnd as [Hx Hnd].
    cbn [scan_loop]. unfold queue_dequeue. rewrite Hq. cbn [app].
    assert ((0 <? due_in (deref (heap st) x)) = true) as ->.
    { apply Z.ltb_lt, Hdue. by left. }
    rewrite (IH (post ++ [x])); simpl.
    + rewrite wrap_int_add_l.
      replace (q_size (queue st) - 1 + 1) with (q_size (queue st)) by lia.
      rewrite wrap_int_id by done. rewrite <- app_assoc. simpl.
      f_equal. lia.
    + by rewrite <- app_assoc.
    + apply wrap_int_in_int.
    + done.
    + intros y Hy. rewrite deref_alter_ne by (intros ->; done).
      apply Hdue. by right.
    + lia.
Qed.

(** The fields a scan does not touch. *)
Lemma scan_loop_frame (n : nat) (k : Z) (st : State) :
  cards_head (scan_loop n k st).2 = cards_head st ∧
  tag_map (scan_loop n k st).2 = tag_map st ∧
  next_card_id (scan_loop n k st).2 = next_card_id st ∧
  ∀ c, tags (deref (heap (scan_loop n k st).2) c) = tags (deref (heap st) c).
Proof.
  revert k st. induction n as [|n IH]; intros k st; simpl; [done|].
  unfold queue_dequeue. destruct (q_nodes (queue st)) as [|c rest]; [done|].
  case_match; [|done].
  destruct (IH (k + 1) (set_queue (queue_enqueue (mkQueue rest (wrap_int (q_size (queue st) - 1))) c)
                         (store_card dec_due_in c st))) as (-> & -> & -> & Htags).
  repeat split; try done.
  intros c'. rewrite Htags. simpl. by apply tags_deref_alter.
Qed.

(** In a queue that holds a due card, the cards before the first due card
    are not due. *)
Lemma first_due_split (h : gmap ptr Card) (l : list ptr) (c0 : ptr) :
  c0 ∈ l → ¬ 0 < due_in (deref h c0) →
  ∃ pre c post, l = pre ++ c :: post ∧
    (∀ x, x ∈ pre → 0 < due_in (deref h x)) ∧ ¬ 0 < due_in (deref h c).
Proof.
  induction l as [|y l IH]; [by intros ?%elem_of_nil|].
  intros Hin Hc0. destruct (decide (0 < due_in (deref h y))) as [Hy|Hy].
  - apply elem_of_cons in Hin as [->|Hin]; [done|].
    destruct (IH Hin Hc0) as (pre & c & post & -> & Hpre & Hc).
    exists (y :: pre), c, post. split; [done|]. split; [|done].
    intros x [->|Hx]%elem_of_cons; [done | by apply Hpre].
  - exists [], y, l. split; [done|]. split; [|done]. by intros x ?%elem_of_nil.
Qed.

(** A scan pass over a queue that holds a due card, in a state that satisfies
    the invariant. *)
Lemma scan_first_due (st : State) (c0 : ptr) :
  wf st →
  Z.of_nat (length (q_nodes (queue st))) ≤ INT_MAX →
  c0 ∈ q_nodes (queue st) →
  ¬ 0 < due_in (deref (heap st) c0) →
  ∃ pre c post st',
    q_nodes (queue st) = pre ++ c :: post ∧
    (∀ x, x ∈ pre → 0 < due_in (deref (heap st) x)) ∧
    due_in (deref (heap st) c) = 0 ∧
    scan st = (Some c, Z.of_nat (length pre), st') ∧
    Z.of_nat (length pre) + 1 ≤ q_size (queue st) ∧
    q_nodes (queue st') = post ++ pre ∧
    (∀ x, x ∈ pre → due_in (deref (heap st') x) = due_in (deref (heap st) x) - 1) ∧
    (∀ x, x ∉ pre → heap st' !! x = heap st !! x).
Proof.
  intros Hwf Hlen Hin Hc0.
  destruct (first_due_split (heap st) _ c0 Hin Hc0) as (pre & c & post & Hq & Hpre & Hc).
  pose proof (wf_queue_nodup _ Hwf) as Hnd. rewrite Hq in Hnd.
  apply NoDup_app in Hnd as (Hndpre & Hdisj & Hndpost).
  assert (Hsize : q_size (queue st) = Z.of_nat (length (pre ++ c :: post))).
  { rewrite (wf_queue_size _ Hwf), Hq. apply wrap_int_id.
    rewrite Hq in Hlen. unfold in_int, INT_MIN. lia. }
  assert (Hcdue : due_in (deref (heap st) c) = 0).
  { assert (c ∈ cards_head st) as Hcs.
    { apply (wf_queue_store _ Hwf). rewrite Hq, elem_of_app. right. by left. }
    apply (wf_live _ Hwf) in Hcs as [cd Hcd].
    pose proof (wf_sched _ Hwf c cd Hcd) as [_ ?].
    rewrite (deref_lookup _ _ _ Hcd) in *. lia. }
  rewrite length_app in Hsize. simpl in Hsize.
  exists pre, c, post.
  eexists. split; [done|]. split; [done|]. split; [done|]. split.
  - unfold scan. rewrite (scan_loop_rotate pre (c :: post)); [|done|..].
    + rewrite Hsize.
      replace (Z.to_nat (Z.of_nat (length pre + S (length post))) - length pre)%nat
        with (S (length post)) by lia.
      cbn [scan_loop]. unfold queue_dequeue. simpl.
      assert ((0 <? due_in (deref (dec_all pre (heap st)) c)) = false) as ->.
      { apply Z.ltb_ge. unfold deref. rewrite dec_all_lookup by done.
        rewrite decide_False.
        - fold (deref (heap st) c). lia.
        - intros Hcpre. apply (Hdisj c Hcpre). by left. }
      reflexivity.
    + rewrite (wf_queue_size _ Hwf). apply wrap_int_in_int.
    + done.
    + done.
    + rewrite Hsize. lia.
  - simpl. split; [lia|]. split; [done|]. split.
    + intros x Hx. unfold deref at 1. rewrite dec_all_lookup by done.
      rewrite decide_True by done.
      assert (x ∈ cards_head st) as Hxs.
      { apply (wf_queue_store _ Hwf). rewrite Hq, elem_of_app. by left. }
      apply (wf_live _ Hwf) in Hxs as [cd Hcd].
      rewrite (deref_lookup _ _ _ Hcd), Hcd. done.
    + intros x Hx. rewrite dec_all_lookup by done. by rewrite decide_False.
Qed.

(** C5. One scan pass over a queue that holds a card with [due_in = 0]
    presents the first such card of the queue: the cards in front of it are
    popped, each has [due_in > 0], gets it decremented by exactly 1 and goes
    to the back of the queue in order; no other card changes; and the number
    of pops (the rotated cards and the presented one) is at most the size of
    the queue. *)
Theorem scan_presents_first_due (st : State) (c0 : ptr) :
  reachable st →
  Z.of_nat (length (q_nodes (queue st))) ≤ INT_MAX →
  c0 ∈ q_nodes (queue st) →
  due_in (deref (heap st) c0) = 0 →
  ∃ pre c post st',
    q_nodes (queue st) = pre ++ c :: post ∧
    (∀ x, x ∈ pre → 0 < due_in (deref (heap st) x)) ∧
    due_in (deref (heap st) c) = 0 ∧
    scan st = (Some c, Z.of_nat (length pre), st') ∧
    Z.of_nat (length pre) + 1 ≤ q_size (queue st) ∧
    q_nodes (queue st') = post ++ pre ∧
    (∀ x, x ∈ pre → due_in (deref (heap st') x) = due_in (deref (heap st) x) - 1) ∧
    (∀ x, x ∉ pre → heap st' !! x = heap st !! x).
Proof.
  intros Hwf%reachable_wf Hlen Hin Hc0.
  apply (scan_first_due st c0); [done..|lia].
Qed.

(** C8. In every state of a run (after creating a card, after grading with
    any verdict, after every decrement of a scan, after loading any file)
    every card has [interval >= 1] and [due_in >= 0]. *)
Theorem sched_fields_in_range (st : State) (c : ptr) (cd : Card) :
  reachable st → heap st !! c = Some cd → 1 ≤ interval cd ∧ 0 ≤ due_in cd.
Proof.
  intros Hr Hc. destruct (wf_sched _ (reachable_wf st Hr) c cd Hc) as [[? _] [? _]].
  done.
Qed.

(** ** Practice rounds *)

Lemma scan_loop_perm (n : nat) (k : Z) (st : State) :
  match (scan_loop n k st).1.1 with
  | Some c => c :: q_nodes (queue (scan_loop n k st).2)
  | None => q_nodes (queue (scan_loop n k st).2)
  end ≡ₚ q_nodes (queue st).
Proof.
  revert k st. induction n as [|n IH]; intros k st; simpl; [done|].
  unfold queue_dequeue. destruct (q_nodes (queue st)) as [|c rest] eqn:Hq; simpl.
  - by rewrite Hq.
  - destruct (0 <? due_in (deref (heap st) c)); [|done].
    etrans; [apply IH|]. simpl. by rewrite Permutation_app_comm.
Qed.

Lemma scan_found (st st1 : State) (c : ptr) (k : Z) :
  wf st → scan st = (Some c, k, st1) →
  wf st1 ∧ c ∈ q_nodes (queue st) ∧ (c ∉ q_nodes (queue st1)) ∧
  c ∈ cards_head st1 ∧ is_Some (heap st1 !! c) ∧
  cards_head st1 = cards_head st ∧ tag_map st1 = tag_map st ∧
  q_size (queue st) ≠ 0.
Proof.
  intros Hwf Hscan. unfold scan in Hscan.
  pose proof (wf_scan_loop (Z.to_nat (q_size (queue st))) 0 st Hwf) as [Hwf1 Hfound].
  pose proof (scan_loop_perm (Z.to_nat (q_size (queue st))) 0 st) as Hperm.
  pose proof (scan_loop_frame (Z.to_nat (q_size (queue st))) 0 st) as (Hst & Hmap & _).
  assert (q_size (queue st) ≠ 0) as Hsz.
  { intros Hz. rewrite Hz in Hscan. simpl in Hscan. done. }
  rewrite Hscan in *. simpl in *. destruct (Hfound c eq_refl) as [Hc Hq].
  split_and!; try done.
  - rewrite <- Hperm. by left.
  - by apply (wf_live _ Hwf1).
Qed.

Lemma grade_correct_interval (cd : Card) :
  sched_ok cd →
  interval (grade_correct cd) = (if 2 * interval cd <=? INT_MAX then 2 * interval cd else 1)
  ∧ due_in (grade_correct cd) = interval (grade_correct cd).
Proof.
  intros [[Hlo Hhi] _]. split; [|done]. simpl.
  unfold wrap_int, INT_MAX in *.
  destruct (Z.leb_spec (2 * interval cd) (2 ^ 31 - 1)) as [Hfit|Hover].
  - rewrite Z.mod_small by lia.
    destruct (Z.ltb_spec (interval cd * 2 + 2 ^ 31 - 2 ^ 31) 1); lia.
  - replace (interval cd * 2 + 2 ^ 31) with (interval cd * 2 - 2 ^ 31 + 1 * 2 ^ 32) by lia.
    rewrite Z.mod_add by lia. rewrite Z.mod_small by lia.
    destruct (Z.ltb_spec (interval cd * 2 - 2 ^ 31 - 2 ^ 31) 1); lia.
Qed.

(** C2, the claim as stated fails: a card loaded with interval 2^30 and
    answered correctly gets interval 1 (the doubled value does not fit an
    [int], and the clamp [if (c->interval < 1)] takes over), not 2^31. *)
Lemma correct_verdict_overflow :
  let st := load_cards_from_file overflow_file main_state in
  let r := practice_round (line "" ++ line "y") st in
  scan st = (Some 0%nat, 0, set_queue (mkQueue [] 0) st) ∧
  interval (deref (heap st) 0%nat) = 1073741824 ∧
  r.1.1 = Again ∧
  interval (deref (heap r.2) 0%nat) = 1 ∧
  interval (deref (heap r.2) 0%nat) ≠ 2 * interval (deref (heap st) 0%nat).
Proof. vm_compute. repeat split; discriminate. Qed.

(** C2, amended. When a presented card is graded (two input lines, neither
    of them [q]): after a correct verdict the interval is twice the old one
    when that fits an [int] (at most [INT_MAX]), and 1 otherwise, and
    [due_in] equals the new interval; after an incorrect verdict both are 1.
    In both cases the card is then at the back of the queue. *)
Theorem grading_updates_schedule (st st1 : State) (inp inp1 inp2 : list ascii)
    (cmd cmd2 : cstring) (c : ptr) (k : Z) :
  reachable st →
  scan st = (Some c, k, st1) →
  fgets 16 inp = Some (cmd, inp1) → trim_newline cmd ≠ lit "q" →
  fgets 16 inp1 = Some (cmd2, inp2) → trim_newline cmd2 ≠ lit "q" →
  ∃ st', practice_round inp st = (Again, inp2, st') ∧
    (if is_yes (trim_newline cmd2)
     then interval (deref (heap st') c)
          = (if 2 * interval (deref (heap st1) c) <=? INT_MAX
             then 2 * interval (deref (heap st1) c) else 1)
          ∧ due_in (deref (heap st') c) = interval (deref (heap st') c)
     else interval (deref (heap st') c) = 1 ∧ due_in (deref (heap st') c) = 1) ∧
    q_nodes (queue st') = q_nodes (queue st1) ++ [c].
Proof.
  intros Hwf%reachable_wf Hscan Hcmd Hq1 Hcmd2 Hq2.
  destruct (scan_found st st1 c k Hwf Hscan) as (Hwf1 & _ & _ & _ & [cd Hcd] & _).
  unfold practice_round. rewrite Hscan, Hcmd. rewrite decide_False by done.
  rewrite Hcmd2. rewrite decide_False by done.
  eexists. split; [reflexivity|]. simpl. split; [|done].
  rewrite deref_alter_eq by by exists cd.
  rewrite (deref_lookup _ _ _ Hcd).
  destruct (is_yes (trim_newline cmd2)); [|done].
  apply grade_correct_interval. by eapply (wf_sched _ Hwf1).
Qed.

(** C10. When input ends while a card is presented (at the first prompt, or
    at the verdict prompt after a first line other than [q]), the practice
    loop returns at once: the presented card, which was in the queue, is
    still in the card list, live, and listed in the tag map under its tags,
    but it is no longer in the queue. *)
Theorem eof_drops_presented_card (st st1 : State) (inp : list ascii) (c : ptr) (k : Z) :
  reachable st →
  scan st = (Some c, k, st1) →
  (fgets 16 inp = None ∨
   ∃ cmd inp1, fgets 16 inp = Some (cmd, inp1) ∧ trim_newline cmd ≠ lit "q" ∧
               fgets 16 inp1 = None) →
  ∃ inp',
    practice_round inp st = (Return, inp', st1) ∧
    (∀ fuel, practice_loop (S fuel) inp st = Some (inp', st1)) ∧
    c ∈ q_nodes (queue st) ∧
    (c ∉ q_nodes (queue st1)) ∧
    cards_head st1 = cards_head st ∧ c ∈ cards_head st1 ∧ is_Some (heap st1 !! c) ∧
    tag_map st1 = tag_map st ∧
    (∀ t, occ c (cards_of (tag_map st1) t) = occ t (tags (deref (heap st1) c))).
Proof.
  intros Hwf%reachable_wf Hscan Heof.
  destruct (scan_found st st1 c k Hwf Hscan)
    as (Hwf1 & Hin & Hout & Hc & Hlive & Hst & Hmap & Hsz).
  assert (∃ inp', practice_round inp st = (Return, inp', st1)) as [inp' Hround].
  { unfold practice_round. rewrite Hscan.
    destruct Heof as [->|(cmd & inp1 & -> & Hq & Hcmd2)]; [by eexists|].
    rewrite decide_False by done. rewrite Hcmd2. by eexists. }
  exists inp'. split; [done|]. split.
  { intros fuel. unfold practice_loop.
    destruct (Z.eqb_spec (q_size (queue st)) 0); [done|].
    simpl. by rewrite Hround. }
  split_and!; try done.
  intros t. rewrite (wf_index _ Hwf1). by rewrite decide_True.
Qed.

(** ** The tag index *)

Lemma chain_find_elem (ch : list TagEntry2) (e : TagEntry2) :
  NoDup (tag <$> ch) → e ∈ ch → chain_find (tag e) ch = Some e.
Proof.
  induction ch as [|e' ch IH]; csimpl; [by intros _ ?%elem_of_nil|].
  rewrite NoDup_cons. intros [Hnin Hnd] [->|Hin]%elem_of_cons.
  - by rewrite decide_True.
  - rewrite decide_False; [by apply IH|].
    intros Heq. apply Hnin. rewrite Heq. by apply list_elem_of_fmap_2.
Qed.

(** Every entry of the map is the one [tag_find] returns for its tag. *)
Lemma tag_find_complete (m : list (list TagEntry2)) (h : nat) (e : TagEntry2) :
  map_ok m → e ∈ chain m h → tag_find m (tag e) = Some e.
Proof.
  intros [_ Hent Hnd] Hin. unfold tag_find.
  destruct (Hent h e Hin) as [-> _]. by apply chain_find_elem.
Qed.

Lemma search_by_tag_cards_of (t : cstring) (st : State) :
  search_by_tag t st = cards_of (tag_map st) (normalize_tag (strncpy 255 t)).
Proof. done. Qed.

(** The tag map after [delete_card]: the card is gone from every list, and
    the other cards are listed as before. *)
Lemma delete_card_index (st : State) (c : ptr) :
  wf st →
  map_ok (tag_map (delete_card c st)) ∧
  ∀ t c', occ c' (cards_of (tag_map (delete_card c st)) t)
          = if decide (c' = c) then 0%nat else occ c' (cards_of (tag_map st) t).
Proof.
  intros Hwf. simpl. split; [apply map_ok_remove_card, Hwf|].
  intros t c'. rewrite cards_of_remove_card by apply Hwf.
  rewrite occ_iter_remove_first. case_decide as Hc; [|done]. subst c'.
  rewrite (wf_index _ Hwf). case_decide; lia.
Qed.

(** C4. After a card is deleted, no lookup lists it, for any tag; no entry
    of the tag map lists it; every entry of the map lists at least one card;
    and a tag whose list held no other card has no entry left, in any
    chain. *)
Theorem delete_clears_tag_index (st st' : State) (inp inp' : list ascii) (n : Z) :
  reachable st →
  remove_card_interactive inp st = (Deleted n, inp', st') →
  ∃ c, find_card_by_id n st = Some c ∧
    (c ∉ cards_head st') ∧
    (∀ t, c ∉ search_by_tag t st') ∧
    (∀ h e, e ∈ chain (tag_map st') h → (c ∉ cards e) ∧ cards e ≠ []) ∧
    (∀ t, (∀ x, x ∈ cards_of (tag_map st) t → x = c) →
          tag_find (tag_map st') t = None ∧
          ∀ h e, e ∈ chain (tag_map st') h → tag e ≠ t).
Proof.
  intros Hwf%reachable_wf Hrem. unfold remove_card_interactive in Hrem.
  destruct (fgets 64 inp) as [[buf inp1]|]; [|done].
  destruct (find_card_by_id (atoi buf) st) as [c|] eqn:Hfind; [|done].
  injection Hrem as <- <- <-. exists c. split; [done|].
  apply find_card_by_id_Some in Hfind as [Hc _].
  destruct (delete_card_index st c Hwf) as [Hok Hocc]. simpl in *.
  set (m' := tag_remove_card c (tags (deref (heap st) c)) (tag_map st)) in *.
  assert (Hgone : ∀ t, c ∉ cards_of m' t).
  { intros t. apply occ_0. rewrite Hocc. by rewrite decide_True. }
  split_and!.
  - rewrite elem_of_remove_first by apply Hwf. by intros [? _].
  - intros t. rewrite search_by_tag_cards_of. apply Hgone.
  - intros h e He. split; [|by eapply (map_entry _ Hok)].
    pose proof (tag_find_complete _ h e Hok He) as Hfe.
    specialize (Hgone (tag e)). unfold cards_of in Hgone. by rewrite Hfe in Hgone.
  - intros t Honly.
    assert (cards_of m' t = []) as Hnil.
    { destruct (cards_of m' t) as [|x l] eqn:E; [done|]. exfalso.
      assert (0 < occ x (cards_of m' t))%nat as Hpos
        by (rewrite E; apply occ_pos; by left).
      rewrite Hocc in Hpos. case_decide as Hx; [lia|].
      apply occ_pos in Hpos. by apply Hx, Honly. }
    assert (tag_find m' t = None) as Hnone.
    { destruct (tag_find m' t) as [e|] eqn:E; [|done]. exfalso.
      unfold cards_of in Hnil. rewrite E in Hnil.
      apply chain_find_Some in E as [He _].
      by apply (map_entry _ Hok) in He as [_ ?]. }
    split; [done|]. intros h e He <-.
    by rewrite (tag_find_complete _ h e Hok He) in Hnone.
Qed.

(** C9, the claim as stated fails: a card added with the tags [x,x] is listed
    twice by the lookup of [x]. *)
Lemma duplicate_tag_listed_twice :
  let r := add_card_interactive twice_tagged_input main_state in
  r.1.1 = Added 3%nat ∧
  tags (deref (heap r.2) 3%nat) = [lit "x"; lit "x"] ∧
  search_by_tag (lit "x") r.2 = [3%nat; 3%nat] ∧
  ¬ NoDup (search_by_tag (lit "x") r.2).
Proof.
  vm_compute. split_and!; try done.
  intros [Hnin _]%NoDup_cons. apply Hnin. by left.
Qed.

(** C9, amended. For every tag, the card list of its entry in the tag index
    (what [tag_find] returns, empty when there is no entry) lists a stored
    card once for every occurrence of that tag among the tags the card was
    created with, and lists no other card.  [search_by_tag] looks up the
    query cut to its first 255 characters and normalized: its result lists a
    stored card once for every occurrence of that cut, normalized query among
    the tags of the card, and no other card; for a query that is a
    normalized tag of at most 255 characters, that is once for every
    occurrence of the tag itself.  Neither result lists a card more than
    once when the tags of the card are pairwise different. *)
Theorem lookup_multiplicity (st : State) (t : cstring) (c : ptr) :
  reachable st →
  occ c (cards_of (tag_map st) t)
  = (if decide (c ∈ cards_head st)
     then occ t (tags (deref (heap st) c))
     else 0%nat)
  ∧ occ c (search_by_tag t st)
    = (if decide (c ∈ cards_head st)
       then occ (normalize_tag (strncpy 255 t)) (tags (deref (heap st) c))
       else 0%nat)
  ∧ ((length t ≤ 255)%nat → normalize_tag t = t →
     occ c (search_by_tag t st)
     = (if decide (c ∈ cards_head st)
        then occ t (tags (deref (heap st) c))
        else 0%nat))
  ∧ (NoDup (tags (deref (heap st) c)) →
     (occ c (cards_of (tag_map st) t) ≤ 1)%nat ∧ (occ c (search_by_tag t st) ≤ 1)%nat).
Proof.
  intros Hwf%reachable_wf. rewrite search_by_tag_cards_of, !(wf_index _ Hwf).
  split_and!; [done..| |].
  - intros Hlen Hnorm. unfold strncpy. by rewrite take_ge, Hnorm by done.
  - intros Hnd. case_decide; [|lia]. split; by apply NoDup_occ.
Qed.

(** ** Trimming and normalizing *)

Lemma isspace_tolower (c : ascii) : isspace (tolower c) = isspace c.
Proof. by destruct c as [[] [] [] [] [] [] [] []]. Qed.

Lemma tolower_idemp (c : ascii) : tolower (tolower c) = tolower c.
Proof. by destruct c as [[] [] [] [] [] [] [] []]. Qed.

Section trimming.
Variable f : ascii → bool.

Lemma strip_end_idemp (s : cstring) : strip_end f (strip_end f s) = strip_end f s.
Proof.
  induction s as [|c s IH]; simpl; [done|].
  destruct (strip_end f s) as [|x r] eqn:E.
  - destruct (f c) eqn:Hc; simpl; [done|]. by rewrite Hc.
  - simpl in *. by rewrite IH.
Qed.

Lemma strip_end_nil (s : cstring) : strip_end f s = [] ↔ Forall (λ c, f c = true) s.
Proof.
  induction s as [|c s IH]; simpl; [by split|].
  rewrite Forall_cons, <- IH.
  destruct (strip_end f s) as [|x r]; [|by split; [|intros [_ ?]]].
  destruct (f c); split; try done. by intros [? _].
Qed.

Lemma strip_end_length (s : cstring) : (length (strip_end f s) ≤ length s)%nat.
Proof.
  induction s as [|c s IH]; simpl; [done|].
  destruct (strip_end f s) as [|x r]; [destruct (f c)|]; simpl in *; lia.
Qed.

Lemma skip_while_length (s : cstring) : (length (skip_while f s) ≤ length s)%nat.
Proof. induction s as [|c s IH]; simpl; [done|]. destruct (f c); simpl; lia. Qed.

Lemma skip_while_head (s : cstring) :
  match skip_while f s with [] => True | c :: _ => f c = false end.
Proof. induction s as [|c s IH]; simpl; [done|]. by destruct (f c) eqn:E; [|simpl]. Qed.

(** Cutting the end of a string that starts with a kept character leaves
    that character in front. *)
Lemma skip_while_strip_end (s : cstring) :
  match s with [] => True | c :: _ => f c = false end →
  skip_while f (strip_end f s) = strip_end f s.
Proof.
  destruct s as [|c s]; simpl; [done|]. intros Hc.
  destruct (strip_end f s); rewrite ?Hc; simpl; by rewrite Hc.
Qed.

Lemma skip_while_map (g : ascii → ascii) (s : cstring) :
  (∀ c, f (g c) = f c) → skip_while f (map g s) = map g (skip_while f s).
Proof.
  intros Hg. induction s as [|c s IH]; simpl; [done|].
  rewrite Hg. by destruct (f c).
Qed.

Lemma strip_end_map (g : ascii → ascii) (s : cstring) :
  (∀ c, f (g c) = f c) → strip_end f (map g s) = map g (strip_end f s).
Proof.
  intros Hg. induction s as [|c s IH]; simpl; [done|].
  rewrite IH, Hg. destruct (strip_end f s); simpl; [by destruct (f c)|done].
Qed.

End trimming.

Lemma trim_whitespace_idemp (s : cstring) :
  trim_whitespace (trim_whitespace s) = trim_whitespace s.
Proof.
  unfold trim_whitespace, str_ltrim, str_rtrim.
  rewrite skip_while_strip_end by apply skip_while_head.
  apply strip_end_idemp.
Qed.

Lemma trim_whitespace_map_tolower (s : cstring) :
  trim_whitespace (map tolower s) = map tolower (trim_whitespace s).
Proof.
  unfold trim_whitespace, str_ltrim, str_rtrim.
  rewrite skip_while_map by apply isspace_tolower.
  by rewrite strip_end_map by apply isspace_tolower.
Qed.

Lemma normalize_tag_idemp (s : cstring) :
  normalize_tag (normalize_tag s) = normalize_tag s.
Proof.
  unfold normalize_tag.
  rewrite trim_whitespace_map_tolower, trim_whitespace_idemp, map_map.
  apply map_ext, tolower_idemp.
Qed.

Lemma normalize_tag_length (s : cstring) : (length (normalize_tag s) ≤ length s)%nat.
Proof.
  unfold normalize_tag, trim_whitespace, str_ltrim, str_rtrim.
  rewrite length_map.
  etrans; [apply strip_end_length | apply skip_while_length].
Qed.

(** C7, the claim as stated fails: [search_by_tag] copies the query into a
    buffer of 256 characters before it normalizes it, so a query of 256
    characters that normalizes to [queue] finds nothing, while [queue] finds
    two cards. *)
Lemma long_query_truncated :
  normalize_tag long_query = lit "queue" ∧
  search_by_tag long_query main_state = [] ∧
  search_by_tag (lit "queue") main_state = [2%nat; 0%nat].
Proof. by vm_compute. Qed.

(** C7, amended. For every query of at most 255 characters the lookup is the
    lookup of the normalized query (surrounding white space trimmed, then
    lower case), that is the card list of the entry of the normalized
    query. *)
Theorem lookup_normalizes_query (st : State) (q : cstring) :
  (length q ≤ 255)%nat →
  search_by_tag q st = search_by_tag (normalize_tag q) st ∧
  search_by_tag q st = cards_of (tag_map st) (normalize_tag q).
Proof.
  intros Hlen. rewrite !search_by_tag_cards_of. unfold strncpy.
  pose proof (normalize_tag_length q).
  rewrite !take_ge by lia. by rewrite normalize_tag_idemp.
Qed.

(** ** Adding a card *)

(** C6, the claim as stated fails: a question of three blanks is empty after
    trimming white space, and the card is created all the same. *)
Lemma blank_question_accepted :
  let r := add_card_interactive blank_question_input main_state in
  trim_whitespace (lit "   ") = [] ∧
  r.1.1 = Added 3%nat ∧
  cards_head r.2 = 3%nat :: cards_head main_state ∧
  question (deref (heap r.2) 3%nat) = lit "   " ∧
  q_nodes (queue r.2) = q_nodes (queue main_state) ++ [3%nat].
Proof. by vm_compute. Qed.

(** C6, amended. [add_card_interactive] cancels with "Empty question"
    exactly when the question line is empty once its trailing line feeds and
    carriage returns are cut, that is when it holds no other character; the
    state is then unchanged (no card, no tag entry, no queue node).  Any
    other question line, also one of blanks only, followed by an answer line
    and a tags line, creates a card with that question and enqueues it. *)
Theorem add_card_empty_question (inp inp1 : list ascii) (buf : cstring) (st : State) :
  fgets LINEBUF inp = Some (buf, inp1) →
  ((add_card_interactive inp st).1.1 = AddEmptyQuestion ↔ trim_newline buf = []) ∧
  (trim_newline buf = [] ↔ Forall (λ c, c = LF ∨ c = CR) buf) ∧
  (trim_newline buf = [] → add_card_interactive inp st = (AddEmptyQuestion, inp1, st)) ∧
  (trim_newline buf ≠ [] →
   ∀ buf2 inp2 buf3 inp3,
     fgets LINEBUF inp1 = Some (buf2, inp2) →
     fgets LINEBUF inp2 = Some (buf3, inp3) →
     ∃ c st', add_card_interactive inp st = (Added c, inp3, st') ∧
       cards_head st' = c :: cards_head st ∧
       question (deref (heap st') c) = trim_newline buf ∧
       q_nodes (queue st') = q_nodes (queue st) ++ [c]).
Proof.
  intros Hbuf. unfold add_card_interactive. rewrite Hbuf.
  assert (length (trim_newline buf) = 0%nat ↔ trim_newline buf = []) as Hlen
    by (by destruct (trim_newline buf)).
  split_and!.
  - case_decide as Hd; [by rewrite <- Hlen|]. rewrite Hlen in Hd.
    split; [|done].
    destruct (fgets LINEBUF inp1) as [[buf2 inp2]|]; [|done].
    destruct (fgets LINEBUF inp2) as [[buf3 inp3]|]; done.
  - unfold trim_newline. rewrite strip_end_nil. apply Forall_proper; [|done].
    intros c. unfold is_newline. rewrite orb_true_iff, !bool_decide_eq_true. done.
  - intros Hnil. rewrite decide_True by by apply Hlen. done.
  - intros Hne buf2 inp2 buf3 inp3 Hbuf2 Hbuf3.
    rewrite decide_False by by rewrite Hlen. rewrite Hbuf2, Hbuf3.
    eexists _, _. split; [reflexivity|]. simpl. split_and!; try done.
    rewrite deref_alter_eq by (rewrite lookup_insert_eq; by eexists).
    by rewrite deref_insert, decide_True.
Qed.

(** ** Card list and queue under creations and deletions *)

Lemma ids_ext (h h' : gmap ptr Card) (l : list ptr) :
  (∀ c, c ∈ l → deref h' c = deref h c) → ids h' l = ids h l.
Proof.
  unfold ids. induction l as [|x l IH]; intros Hl; csimpl; [done|].
  rewrite Hl by by left. rewrite IH; [done|]. intros c Hc. apply Hl. by right.
Qed.

Lemma remove_first_sublist (c : ptr) (l : list ptr) : remove_first c l `sublist_of` l.
Proof.
  induction l as [|x l IH]; simpl; [done|].
  case_decide; [by apply sublist_cons | by apply sublist_skip].
Qed.

Lemma drain_nodes (n : nat) (q : Queue) :
  (length (q_nodes q) < n)%nat → drain n q = q_nodes q.
Proof.
  revert q. induction n as [|n IH]; intros q Hn; [lia|].
  simpl. unfold queue_dequeue. destruct (q_nodes q) as [|c rest] eqn:Hq; [done|].
  simpl in Hn. rewrite IH; simpl; [done | lia].
Qed.

(** More calls than nodes drain nothing more. *)
Lemma drain_enough (n : nat) (q : Queue) :
  (length (q_nodes q) < n)%nat → drain n q = drain_all q.
Proof. intros Hn. unfold drain_all. rewrite !drain_nodes; [done | lia | done]. Qed.

Lemma paired_add (inp : list ascii) (st : State) :
  paired st → paired (add_card_interactive inp st).2.
Proof.
  intros [Hwf Hq]. split; [by apply wf_add|].
  unfold add_card_interactive.
  destruct (fgets LINEBUF inp) as [[buf inp1]|]; [|done].
  case_decide; [done|].
  destruct (fgets LINEBUF inp1) as [[buf2 inp2]|]; [|done].
  destruct (fgets LINEBUF inp2) as [[buf3 inp3]|]; [|done].
  simpl. intros x [->|Hx]%elem_of_cons; rewrite elem_of_app, list_elem_of_singleton;
    [by right | left; by apply Hq].
Qed.

Lemma paired_remove (inp : list ascii) (st : State) :
  paired st → paired (remove_card_interactive inp st).2.
Proof.
  intros [Hwf Hq]. split; [by apply wf_remove|].
  unfold remove_card_interactive.
  destruct (fgets 64 inp) as [[buf inp1]|]; [|done].
  destruct (find_card_by_id (atoi buf) st) as [c|] eqn:Hfind; [|done].
  simpl. intros x [Hne Hin]%elem_of_remove_first; [|apply Hwf].
  apply list_elem_of_filter. split; [done | by apply Hq].
Qed.

Lemma paired_run_ops (ops : list StoreOp) (inp : list ascii) (st : State) :
  paired st → paired (run_ops ops (inp, st)).2.
Proof.
  unfold run_ops. revert inp st.
  induction ops as [|op ops IH]; intros inp st Hp; [done|].
  cbn [foldl]. destruct op; unfold run_op at 2; cbn [fst snd]; apply IH.
  - by apply paired_add.
  - by apply paired_remove.
Qed.

Lemma ids_fresh_add (inp : list ascii) (st : State) :
  wf st → ids_fresh st → next_card_id st + 1 ≤ INT_MAX →
  ids_fresh (add_card_interactive inp st).2 ∧
  next_card_id (add_card_interactive inp st).2 ≤ next_card_id st + 1.
Proof.
  intros Hwf [Hids Hbelow Hlo] Hnext.
  pose proof (malloc_fresh st Hwf) as Hfresh.
  unfold add_card_interactive in *.
  destruct (fgets LINEBUF inp) as [[buf inp1]|]; [|split; [by split | simpl; lia]].
  case_decide; [split; [by split | simpl; lia]|].
  destruct (fgets LINEBUF inp1) as [[buf2 inp2]|]; [|split; [by split | simpl; lia]].
  destruct (fgets LINEBUF inp2) as [[buf3 inp3]|]; [|split; [by split | simpl; lia]].
  simpl in *.
  assert (wrap_int (next_card_id st + 1) = next_card_id st + 1) as Hwrap.
  { apply wrap_int_id. unfold in_int. lia. }
  set (c := malloc (heap st)) in *.
  set (h' := alter (set_due_in 0) c
               (<[c := mkCard (next_card_id st) (trim_newline buf) (trim_newline buf2)
                              (parse_tags (trim_newline buf3)) 1 0]> (heap st))).
  assert (Hold : ∀ x, x ∈ cards_head st → deref h' x = deref (heap st) x).
  { intros x Hx. assert (x ≠ c) by (intros ->; done). unfold h'.
    rewrite deref_alter_ne by done. rewrite deref_insert. by rewrite decide_False. }
  assert (Hnew : card_id (deref h' c) = next_card_id st).
  { unfold h'. rewrite deref_alter_eq by (rewrite lookup_insert_eq; by eexists).
    by rewrite deref_insert, decide_True. }
  split; [|lia]. split; simpl.
  - change (NoDup (card_id (deref h' c) :: ids h' (cards_head st))).
    rewrite (ids_ext (heap st)) by done. rewrite Hnew.
    apply NoDup_cons. split; [|done].
    unfold ids. intros (x & Hid & Hx)%list_elem_of_fmap.
    specialize (Hbelow x Hx). lia.
  - rewrite Hwrap. intros x [->|Hx]%elem_of_cons.
    + fold h'. rewrite Hnew. lia.
    + fold h'. rewrite Hold by done. specialize (Hbelow x Hx). lia.
  - lia.
Qed.

Lemma ids_fresh_remove (inp : list ascii) (st : State) :
  wf st → ids_fresh st →
  ids_fresh (remove_card_interactive inp st).2 ∧
  next_card_id (remove_card_interactive inp st).2 = next_card_id st.
Proof.
  intros Hwf [Hids Hbelow Hlo].
  unfold remove_card_interactive in *.
  destruct (fgets 64 inp) as [[buf inp1]|]; [|by split].
  destruct (find_card_by_id (atoi buf) st) as [c|] eqn:Hfind; [|by split].
  simpl in *. split; [|done].
  pose proof (wf_store_nodup _ Hwf) as Hnd.
  assert (Hold : ∀ x, x ∈ remove_first c (cards_head st) →
            deref (delete c (heap st)) x = deref (heap st) x).
  { intros x [Hne _]%elem_of_remove_first; [|done]. by apply deref_delete_ne. }
  split; simpl.
  - rewrite (ids_ext (heap st)) by done.
    eapply sublist_NoDup; [exact Hids|].
    apply fmap_sublist, remove_first_sublist.
  - intros x Hx. rewrite Hold by done.
    apply Hbelow. by apply elem_of_remove_first in Hx as [_ ?].
  - done.
Qed.

Lemma ids_fresh_run_ops (ops : list StoreOp) (inp : list ascii) (st : State) :
  paired st → ids_fresh st →
  next_card_id st + Z.of_nat (length ops) ≤ INT_MAX →
  ids_fresh (run_ops ops (inp, st)).2.
Proof.
  unfold run_ops. revert inp st.
  induction ops as [|op ops IH]; intros inp st Hp Hf Hnext; [done|].
  cbn [foldl]. simpl length in Hnext.
  destruct op; unfold run_op at 2; cbn [fst snd].
  - destruct (ids_fresh_add inp st (pair_wf _ Hp) Hf) as [Hf' Hn']; [lia|].
    apply IH; [by apply paired_add | done | lia].
  - destruct (ids_fresh_remove inp st (pair_wf _ Hp) Hf) as [Hf' Hn'].
    apply IH; [by apply paired_remove | done | lia].
Qed.

Lemma paired_main_state : paired main_state.
Proof.
  split; [apply wf_main_state|]. vm_compute. intros c Hc. exact Hc.
Qed.

Lemma ids_fresh_main_state : ids_fresh main_state.
Proof.
  split.
  - apply (bool_decide_unpack _). by vm_compute.
  - intros c Hc. vm_compute in Hc.
    repeat (apply elem_of_cons in Hc as [->|Hc]; [by vm_compute|]).
    by apply elem_of_nil in Hc.
  - by vm_compute.
Qed.

(** C3. After any sequence of card creations (each with the enqueue of its
    caller) and card deletions, on any input, started where the card list and
    the queue hold the same cards: draining the queue gives every card of
    the card list exactly once, so the ids drained are, as a multiset, the
    ids of the card list; and every id is drained exactly once, given that
    the ids were pairwise different at the start and that the id counter,
    an [int], does not overflow during the sequence. *)
Theorem store_queue_bijection (ops : list StoreOp) (inp : list ascii) (st : State) :
  paired st →
  let st' := (run_ops ops (inp, st)).2 in
  drain_all (queue st') ≡ₚ cards_head st' ∧
  NoDup (drain_all (queue st')) ∧
  ids (heap st') (drain_all (queue st')) ≡ₚ ids (heap st') (cards_head st') ∧
  (ids_fresh st → next_card_id st + Z.of_nat (length ops) ≤ INT_MAX →
   NoDup (ids (heap st') (drain_all (queue st')))).
Proof.
  intros Hp st'.
  destruct (paired_run_ops ops inp st Hp) as [Hwf Hq]. fold st' in Hwf, Hq.
  unfold drain_all. rewrite drain_nodes by lia.
  assert (q_nodes (queue st') ≡ₚ cards_head st') as Hperm.
  { apply NoDup_Permutation; [apply Hwf..|].
    intros c. split; [apply Hwf | apply Hq]. }
  split_and!; [done | apply Hwf | |].
  - unfold ids. by rewrite Hperm.
  - intros Hf Hnext.
    destruct (ids_fresh_run_ops ops inp st Hp Hf Hnext) as [Hids _ _]. fold st' in Hids.
    unfold ids in *. by rewrite Hperm.
Qed.

(** ** Saving and loading *)

(** C1, the code at a failing input: saving the three sample cards and
    loading the file back gives cards with the same questions, answers,
    tags, intervals and [due_in] (in reverse list order), but with the ids
    4, 5, 6 instead of 3, 2, 1: [load_cards_from_file] reads the saved id
    only to advance [next_card_id], and the card keeps the id [create_card]
    gave it. *)
Lemma save_load_renumbers_cards :
  let st := main_state in
  let st' := load_cards_from_file (save_cards_to_file st) st in
  ids (heap st) (cards_head st) = [3; 2; 1] ∧
  ids (heap st') (cards_head st') = [6; 5; 4] ∧
  (λ c, card_data (deref (heap st') c)) <$> cards_head st'
  = reverse ((λ c, card_data (deref (heap st) c)) <$> cards_head st).
Proof. by vm_compute. Qed.

(** The loader reads a line into [char line[LINEBUF]]: of a question of 4095
    characters, saved behind [Q=], it keeps the first 4093. *)
Lemma save_load_cuts_long_question :
  let st := (add_card_interactive long_question_input main_state).2 in
  let st' := load_cards_from_file (save_cards_to_file st) st in
  (λ c, length (question (deref (heap st) c))) <$> cards_head st
  = [4095; 26; 37; 23]%nat ∧
  (λ c, length (question (deref (heap st') c))) <$> cards_head st'
  = [23; 37; 26; 4093]%nat.
Proof. by vm_compute. Qed.

(** ** The theorems at concrete inputs *)

Lemma scan_presents_first_due_witness :
  let st := load_cards_from_file due_file main_state in
  reachable st ∧
  Z.of_nat (length (q_nodes (queue st))) ≤ INT_MAX ∧
  1%nat ∈ q_nodes (queue st) ∧
  due_in (deref (heap st) 1%nat) = 0 ∧
  ∃ pre c post st',
    q_nodes (queue st) = pre ++ c :: post ∧
    (∀ x, x ∈ pre → 0 < due_in (deref (heap st) x)) ∧
    due_in (deref (heap st) c) = 0 ∧
    scan st = (Some c, Z.of_nat (length pre), st') ∧
    Z.of_nat (length pre) + 1 ≤ q_size (queue st) ∧
    q_nodes (queue st') = post ++ pre ∧
    (∀ x, x ∈ pre → due_in (deref (heap st') x) = due_in (deref (heap st) x) - 1) ∧
    (∀ x, x ∉ pre → heap st' !! x = heap st !! x).
Proof.
  intros st.
  assert (reachable st) as Hr by apply reach_load, reach_main.
  assert (Z.of_nat (length (q_nodes (queue st))) ≤ INT_MAX) as Hlen by (by vm_compute).
  assert (1%nat ∈ q_nodes (queue st)) as Hin by (vm_compute; right; left).
  assert (due_in (deref (heap st) 1%nat) = 0) as Hdue by (by vm_compute).
  split_and!; [done..|].
  exact (scan_presents_first_due st 1%nat Hr Hlen Hin Hdue).
Defined.

Lemma sched_fields_in_range_witness :
  let st := (practice_round one_answer_input main_state).2 in
  let cd := mkCard 3 (lit "What is enqueue operation?")
              (lit "Insert element at the tail of queue") [lit "queue"; lit "srs"] 2 2 in
  reachable st ∧ heap st !! 2%nat = Some cd ∧ 1 ≤ interval cd ∧ 0 ≤ due_in cd.
Proof.
  intros st cd.
  assert (reachable st) as Hr by apply reach_round, reach_main.
  assert (heap st !! 2%nat = Some cd) as Hcd by (by vm_compute).
  split_and!; [done..| |]; by apply (sched_fields_in_range st 2%nat cd Hr Hcd).
Defined.

Lemma grading_updates_schedule_witness :
  let st := main_state in
  let st1 := set_queue (mkQueue [1%nat; 0%nat] 2) st in
  reachable st ∧
  scan st = (Some 2%nat, 0, st1) ∧
  fgets 16 one_answer_input = Some (line "", line "y") ∧
  trim_newline (line "") ≠ lit "q" ∧
  fgets 16 (line "y") = Some (line "y", []) ∧
  trim_newline (line "y") ≠ lit "q" ∧
  ∃ st', practice_round one_answer_input st = (Again, [], st') ∧
    (if is_yes (trim_newline (line "y"))
     then interval (deref (heap st') 2%nat)
          = (if 2 * interval (deref (heap st1) 2%nat) <=? INT_MAX
             then 2 * interval (deref (heap st1) 2%nat) else 1)
          ∧ due_in (deref (heap st') 2%nat) = interval (deref (heap st') 2%nat)
     else interval (deref (heap st') 2%nat) = 1 ∧ due_in (deref (heap st') 2%nat) = 1) ∧
    q_nodes (queue st') = q_nodes (queue st1) ++ [2%nat].
Proof.
  intros st st1.
  assert (scan st = (Some 2%nat, 0, st1)) as Hscan by (by vm_compute).
  assert (fgets 16 one_answer_input = Some (line "", line "y")) as H1 by (by vm_compute).
  assert (trim_newline (line "") ≠ lit "q") as Hq1 by (by vm_compute).
  assert (fgets 16 (line "y") = Some (line "y", [])) as H2 by (by vm_compute).
  assert (trim_newline (line "y") ≠ lit "q") as Hq2 by (by vm_compute).
  split_and!; [apply reach_main | done..|].
  exact (grading_updates_schedule st st1 one_answer_input (line "y") [] (line "")
           (line "y") 2%nat 0 reach_main Hscan H1 Hq1 H2 Hq2).
Defined.

Lemma eof_drops_presented_card_witness :
  let st := main_state in
  let st1 := set_queue (mkQueue [1%nat; 0%nat] 2) st in
  reachable st ∧
  scan st = (Some 2%nat, 0, st1) ∧
  fgets 16 [] = None ∧
  ∃ inp',
    practice_round [] st = (Return, inp', st1) ∧
    (∀ fuel, practice_loop (S fuel) [] st = Some (inp', st1)) ∧
    2%nat ∈ q_nodes (queue st) ∧
    (2%nat ∉ q_nodes (queue st1)) ∧
    cards_head st1 = cards_head st ∧ 2%nat ∈ cards_head st1 ∧
    is_Some (heap st1 !! 2%nat) ∧
    tag_map st1 = tag_map st ∧
    (∀ t, occ 2%nat (cards_of (tag_map st1) t) = occ t (tags (deref (heap st1) 2%nat))).
Proof.
  intros st st1.
  assert (scan st = (Some 2%nat, 0, st1)) as Hscan by (by vm_compute).
  split_and!; [apply reach_main | done..|].
  exact (eof_drops_presented_card st st1 [] 2%nat 0 reach_main Hscan (or_introl eq_refl)).
Defined.

Lemma delete_clears_tag_index_witness :
  let st := main_state in
  let r := remove_card_interactive (line "3") st in
  reachable st ∧
  r = (Deleted 3, [], r.2) ∧
  ∃ c, find_card_by_id 3 st = Some c ∧
    (c ∉ cards_head r.2) ∧
    (∀ t, c ∉ search_by_tag t r.2) ∧
    (∀ h e, e ∈ chain (tag_map r.2) h → (c ∉ cards e) ∧ cards e ≠ []) ∧
    (∀ t, (∀ x, x ∈ cards_of (tag_map st) t → x = c) →
          tag_find (tag_map r.2) t = None ∧
          ∀ h e, e ∈ chain (tag_map r.2) h → tag e ≠ t).
Proof.
  intros st r.
  assert (r = (Deleted 3, [], r.2)) as Hr by (by vm_compute).
  split_and!; [apply reach_main | done |].
  exact (delete_clears_tag_index st r.2 (line "3") [] 3 reach_main Hr).
Defined.

Lemma lookup_multiplicity_witness :
  let st := (add_card_interactive twice_tagged_input main_state).2 in
  let t := lit "x" in
  let c := 3%nat in
  reachable st ∧
  (length t ≤ 255)%nat ∧
  normalize_tag t = t ∧
  occ c (cards_of (tag_map st) t)
  = (if decide (c ∈ cards_head st)
     then occ t (tags (deref (heap st) c))
     else 0%nat)
  ∧ occ c (search_by_tag t st)
    = (if decide (c ∈ cards_head st)
       then occ (normalize_tag (strncpy 255 t)) (tags (deref (heap st) c))
       else 0%nat)
  ∧ occ c (search_by_tag t st)
    = (if decide (c ∈ cards_head st)
       then occ t (tags (deref (heap st) c))
       else 0%nat)
  ∧ (NoDup (tags (deref (heap st) c)) →
     (occ c (cards_of (tag_map st) t) ≤ 1)%nat ∧ (occ c (search_by_tag t st) ≤ 1)%nat).
Proof.
  intros st t c.
  assert (reachable st) as Hr by apply reach_add, reach_main.
  assert (length t ≤ 255)%nat as Hlen by (vm_compute; lia).
  assert (normalize_tag t = t) as Hnorm by (by vm_compute).
  pose proof (lookup_multiplicity st t c Hr) as (H1 & H2 & H3 & H4).
  split_and!; [done..| |done]. exact (H3 Hlen Hnorm).
Defined.

Lemma lookup_normalizes_query_witness :
  (length (lit "QUEUE ") ≤ 255)%nat ∧
  search_by_tag (lit "QUEUE ") main_state
  = search_by_tag (normalize_tag (lit "QUEUE ")) main_state ∧
  search_by_tag (lit "QUEUE ") main_state
  = cards_of (tag_map main_state) (normalize_tag (lit "QUEUE ")).
Proof.
  assert (length (lit "QUEUE ") ≤ 255)%nat as Hlen by (vm_compute; lia).
  split; [done|]. exact (lookup_normalizes_query main_state (lit "QUEUE ") Hlen).
Defined.

Lemma add_card_empty_question_witness :
  let inp := [CR; LF] ++ line "ans" in
  fgets LINEBUF inp = Some ([CR; LF], line "ans") ∧
  ((add_card_interactive inp main_state).1.1 = AddEmptyQuestion
   ↔ trim_newline [CR; LF] = []) ∧
  (trim_newline [CR; LF] = [] ↔ Forall (λ c, c = LF ∨ c = CR) [CR; LF]) ∧
  (trim_newline [CR; LF] = [] →
   add_card_interactive inp main_state = (AddEmptyQuestion, line "ans", main_state)) ∧
  (trim_newline [CR; LF] ≠ [] →
   ∀ buf2 inp2 buf3 inp3,
     fgets LINEBUF (line "ans") = Some (buf2, inp2) →
     fgets LINEBUF inp2 = Some (buf3, inp3) →
     ∃ c st', add_card_interactive inp main_state = (Added c, inp3, st') ∧
       cards_head st' = c :: cards_head main_state ∧
       question (deref (heap st') c) = trim_newline [CR; LF] ∧
       q_nodes (queue st') = q_nodes (queue main_state) ++ [c]).
Proof.
  intros inp.
  assert (fgets LINEBUF inp = Some ([CR; LF], line "ans")) as Hbuf by (by vm_compute).
  split; [done|].
  exact (add_card_empty_question inp (line "ans") [CR; LF] main_state Hbuf).
Defined.

Lemma store_queue_bijection_witness :
  let ops := [OpAdd; OpDelete; OpAdd] in
  let st' := (run_ops ops (edit_session_input, main_state)).2 in
  paired main_state ∧
  ids_fresh main_state ∧
  next_card_id main_state + Z.of_nat (length ops) ≤ INT_MAX ∧
  drain_all (queue st') ≡ₚ cards_head st' ∧
  NoDup (drain_all (queue st')) ∧
  ids (heap st') (drain_all (queue st')) ≡ₚ ids (heap st') (cards_head st') ∧
  NoDup (ids (heap st') (drain_all (queue st'))).
Proof.
  intros ops st'.
  assert (next_card_id main_state + Z.of_nat (length ops) ≤ INT_MAX) as Hn by (by vm_compute).
  pose proof (store_queue_bijection ops edit_session_input main_state paired_main_state)
    as (H1 & H2 & H3 & H4).
  split_and!; [apply paired_main_state | apply ids_fresh_main_state | done..|].
  exact (H4 ids_fresh_main_state Hn).
Defined.

(** ** The loops reach their end *)

Lemma fgets_chars_app (n : nat) (inp : list ascii) :
  (fgets_chars n inp).1 ++ (fgets_chars n inp).2 = inp.
Proof.
  revert inp. induction n as [|n IH]; intros [|c inp]; simpl; try done.
  case_decide; [done|].
  specialize (IH inp). destruct (fgets_chars n inp) as [l r]. simpl in *.
  by rewrite IH.
Qed.

(** A successful [fgets] takes at least one character off the stream. *)
Lemma fgets_rest_shorter (size : nat) (inp rest : list ascii) (line : cstring) :
  (1 < size)%nat → fgets size inp = Some (line, rest) →
  (length rest < length inp)%nat.
Proof.
  intros Hsize. unfold fgets. destruct inp as [|c inp]; [done|].
  destruct size as [|[|n]]; [lia..|].
  pose proof (fgets_chars_app (S n) (c :: inp)) as Happ.
  replace (S (S n) - 1)%nat with (S n) by lia.
  destruct (fgets_chars (S n) (c :: inp)) as [l r] eqn:E. intros [= _ <-].
  simpl in Happ. rewrite <- Happ, length_app.
  simpl in E. case_decide.
  - injection E as <- <-. simpl. lia.
  - destruct (fgets_chars n inp). injection E as <- <-. simpl. lia.
Qed.

(** [load_loop] ends at the end of the file: fuel beyond the length of the
    file changes nothing. *)
Lemma load_loop_fuel (fuel1 fuel2 : nat) (inp : list ascii) (vs : LoadVars * State) :
  (length inp ≤ fuel1)%nat → (length inp ≤ fuel2)%nat →
  load_loop fuel1 inp vs = load_loop fuel2 inp vs.
Proof.
  revert fuel2 inp vs.
  induction fuel1 as [|fuel1 IH]; intros fuel2 inp vs H1 H2.
  - destruct inp; [|simpl in H1; lia]. by destruct fuel2.
  - destruct fuel2 as [|fuel2].
    + destruct inp; [done | simpl in H2; lia].
    + cbn [load_loop]. destruct (fgets LINEBUF inp) as [[line rest]|] eqn:E; [|done].
      apply fgets_rest_shorter in E; [|unfold LINEBUF; lia].
      apply IH; lia.
Qed.

Lemma scan_loop_length (n : nat) (k : Z) (st : State) :
  (length (q_nodes (queue (scan_loop n k st).2)) ≤ length (q_nodes (queue st)))%nat ∧
  ((scan_loop n k st).1.1 ≠ None →
   (length (q_nodes (queue (scan_loop n k st).2)) < length (q_nodes (queue st)))%nat).
Proof.
  pose proof (scan_loop_perm n k st) as Hperm.
  destruct ((scan_loop n k st).1.1) as [c|].
  - apply Permutation_length in Hperm. simpl in Hperm. split; [lia|]. intros _. lia.
  - apply Permutation_length in Hperm. split; [lia | done].
Qed.

Lemma practice_round_length (inp : list ascii) (st : State) :
  (length (q_nodes (queue (practice_round inp st).2)) ≤ length (q_nodes (queue st)))%nat.
Proof.
  unfold practice_round, scan.
  pose proof (scan_loop_length (Z.to_nat (q_size (queue st))) 0 st) as [Hle Hlt].
  destruct (scan_loop _ 0 st) as [[found k] st1]. simpl in *.
  destruct found as [c|]; [|by case_match].
  specialize (Hlt ltac:(done)).
  destruct (fgets 16 inp) as [[cmd inp1]|]; [|simpl; lia].
  case_decide; simpl; [rewrite length_app; simpl; lia|].
  destruct (fgets 16 inp1) as [[cmd2 inp2]|]; [|simpl; lia].
  case_decide; simpl; rewrite length_app; simpl; lia.
Qed.

Lemma sum_list_with_dec (f g : ptr → nat) (l : list ptr) :
  (∀ x, x ∈ l → (g x + 1 = f x)%nat) →
  (sum_list_with g l + length l = sum_list_with f l)%nat.
Proof.
  induction l as [|x l IH]; intros Hl; simpl; [done|].
  rewrite <- IH by (intros y Hy; apply Hl; by right).
  rewrite <- (Hl x) by by left. lia.
Qed.

(** A scan pass over a queue without a due card: every card is decremented,
    and the queue is as before. *)
Lemma scan_all_waiting (st : State) :
  wf st →
  Z.of_nat (length (q_nodes (queue st))) ≤ INT_MAX →
  (∀ x, x ∈ q_nodes (queue st) → 0 < due_in (deref (heap st) x)) →
  ∃ st', scan st = (None, Z.of_nat (length (q_nodes (queue st))), st') ∧
    queue st' = queue st ∧
    (due_sum (heap st') (q_nodes (queue st')) + length (q_nodes (queue st))
     = due_sum (heap st) (q_nodes (queue st)))%nat.
Proof.
  intros Hwf Hlen Hall.
  assert (Hsize : q_size (queue st) = Z.of_nat (length (q_nodes (queue st)))).
  { rewrite (wf_queue_size _ Hwf). apply wrap_int_id. unfold in_int, INT_MIN. lia. }
  eexists. split.
  - unfold scan. rewrite (scan_loop_rotate (q_nodes (queue st)) []).
    + rewrite Hsize, Nat2Z.id, Nat.sub_diag. simpl. reflexivity.
    + by rewrite app_nil_r.
    + rewrite (wf_queue_size _ Hwf). apply wrap_int_in_int.
    + apply Hwf.
    + done.
    + rewrite Hsize. lia.
  - simpl. split; [rewrite <- Hsize; by destruct (queue st)|].
    apply sum_list_with_dec. intros x Hx. specialize (Hall x Hx).
    unfold deref in *. rewrite dec_all_lookup by apply Hwf.
    rewrite decide_True by done.
    destruct (heap st !! x) as [cd|]; simpl in *; lia.
Qed.

(** A round that ends in [Again] has either read input or, with the input
    untouched, brought every card of the queue one rotation closer. *)
Lemma practice_round_progress (inp inp' : list ascii) (st st' : State) :
  wf st →
  Z.of_nat (length (q_nodes (queue st))) ≤ INT_MAX →
  practice_round inp st = (Again, inp', st') →
  (length inp' < length inp)%nat ∨
  (inp' = inp ∧
   (due_sum (heap st') (q_nodes (queue st')) < due_sum (heap st) (q_nodes (queue st)))%nat).
Proof.
  intros Hwf Hlen. unfold practice_round.
  destruct (decide (Forall (λ x, 0 < due_in (deref (heap st) x)) (q_nodes (queue st))))
    as [Hall|Hsome].
  - rewrite Forall_forall in Hall.
    destruct (scan_all_waiting st Hwf Hlen Hall) as (st1 & -> & Hq & Hsum).
    destruct (Z.eqb_spec (q_size (queue st1)) 0) as [|Hnz]; [done|].
    intros [= <- <-]. right. split; [done|].
    assert (length (q_nodes (queue st)) ≠ 0%nat).
    { intros Hz. apply Hnz. rewrite Hq, (wf_queue_size _ Hwf), Hz. done. }
    lia.
  - apply not_Forall_Exists in Hsome; [|apply _].
    apply Exists_exists in Hsome as (c0 & Hin & Hdue).
    destruct (scan_first_due st c0 Hwf Hlen Hin Hdue)
      as (pre & c & post & st1 & _ & _ & _ & -> & _).
    destruct (fgets 16 inp) as [[cmd inp1]|] eqn:E1; [|done].
    case_decide; [done|].
    destruct (fgets 16 inp1) as [[cmd2 inp2]|] eqn:E2; [|done].
    case_decide; [done|].
    intros [= <- <-]. left.
    apply fgets_rest_shorter in E1; [|lia]. apply fgets_rest_shorter in E2; [|lia]. lia.
Qed.

Lemma practice_rounds_terminate (m s : nat) (inp : list ascii) (st : State) :
  (length inp ≤ m)%nat →
  (due_sum (heap st) (q_nodes (queue st)) ≤ s)%nat →
  wf st →
  Z.of_nat (length (q_nodes (queue st))) ≤ INT_MAX →
  ∃ fuel r, practice_rounds fuel inp st = Some r.
Proof.
  revert s inp st. induction m as [|m IHm].
  all: induction s as [|s IHs]; intros inp st Hm Hs Hwf Hlen.
  all: destruct (practice_round inp st) as [[[] inp'] st'] eqn:E;
    try (exists 1%nat; eexists; simpl; by rewrite E).
  all: pose proof (wf_practice_round inp st Hwf) as Hwf';
    pose proof (practice_round_length inp st) as Hlen';
    rewrite E in Hwf', Hlen'; simpl in Hwf', Hlen';
    destruct (practice_round_progress inp inp' st st' Hwf Hlen E) as [Hin|[-> Hsum]];
    try lia.
  - destruct (IHs inp st') as (fuel & r & Hr); [done | lia | done | lia |].
    exists (S fuel), r. simpl. by rewrite E.
  - destruct (IHm (due_sum (heap st') (q_nodes (queue st'))) inp' st')
      as (fuel & r & Hr); [lia | done | done | lia |].
    exists (S fuel), r. simpl. by rewrite E.
  - destruct (IHm (due_sum (heap st') (q_nodes (queue st'))) inp' st')
      as (fuel & r & Hr); [lia | done | done | lia |].
    exists (S fuel), r. simpl. by rewrite E.
  - destruct (IHs inp st') as (fuel & r & Hr); [done | lia | done | lia |].
    exists (S fuel), r. simpl. by rewrite E.
Qed.

(** [practice_loop] returns: on every input, from every state of a run whose
    queue length fits [q->size], some number of rounds reaches the end, and
    more fuel gives the same result. *)
Lemma practice_loop_terminates (inp : list ascii) (st : State) :
  reachable st →
  Z.of_nat (length (q_nodes (queue st))) ≤ INT_MAX →
  ∃ fuel r, practice_loop fuel inp st = Some r.
Proof.
  intros Hwf%reachable_wf Hlen. unfold practice_loop.
  destruct (q_size (queue st) =? 0); [by exists 0%nat; eexists|].
  by eapply (practice_rounds_terminate (length inp)).
Qed.

Lemma practice_rounds_fuel (fuel fuel' : nat) (inp : list ascii) (st : State)
    (r : list ascii * State) :
  (fuel ≤ fuel')%nat → practice_rounds fuel inp st = Some r →
  practice_rounds fuel' inp st = Some r.
Proof.
  revert fuel' inp st. induction fuel as [|fuel IH]; intros fuel' inp st Hle; [done|].
  destruct fuel' as [|fuel']; [lia|]. simpl.
  destruct (practice_round inp st) as [[[] inp'] st']; try done.
  apply IH. lia.
Qed.

(** ** Numbers through [%d] and [atoi] *)

Lemma digit_val_char (d : Z) : 0 ≤ d ≤ 9 → digit_val (digit_char d) = Some d.
Proof.
  intros Hd.
  assert (d = 0 ∨ d = 1 ∨ d = 2 ∨ d = 3 ∨ d = 4 ∨ d = 5 ∨ d = 6 ∨ d = 7 ∨ d = 8 ∨ d = 9)
    as Hcases by lia.
  by destruct_or!; subst.
Qed.

Lemma digits_val_app (a : Z) (l s : cstring) :
  Forall (λ c, is_Some (digit_val c)) l →
  digits_val a (l ++ s) = digits_val (digits_val a l) s.
Proof.
  revert a. induction l as [|c l IH]; intros a Hl; simpl; [done|].
  apply Forall_cons in Hl as [[d Hd] Hl]. rewrite Hd. by apply IH.
Qed.

(** The digits [fmt_u] puts in front of [acc], read back. *)
Lemma fmt_u_spec (fuel : nat) (n : Z) (acc : cstring) :
  (0 < fuel)%nat → 0 ≤ n < 10 ^ Z.of_nat fuel →
  ∃ l, fmt_u fuel n acc = l ++ acc ∧
    Forall (λ c, is_Some (digit_val c)) l ∧
    (0 < length l ≤ fuel)%nat ∧
    ∀ a, digits_val a l = a * 10 ^ Z.of_nat (length l) + n.
Proof.
  revert n acc. induction fuel as [|fuel IH]; intros n acc Hfuel Hn; [lia|].
  assert (0 ≤ n mod 10 ≤ 9) as Hd by (pose proof (Z.mod_pos_bound n 10); lia).
  pose proof (digit_val_char _ Hd) as Hdv.
  pose proof (Z.div_mod n 10 ltac:(lia)) as Hdm.
  cbn [fmt_u]. destruct (Z.eqb_spec (n / 10) 0) as [Hz|Hnz].
  - exists [digit_char (n mod 10)]. split; [done|]. split.
    { constructor; [by eexists | constructor]. }
    split; [simpl; lia|]. intros a. simpl. rewrite Hdv. lia.
  - assert (0 < fuel)%nat as Hf.
    { destruct fuel; [|lia]. simpl in Hn.
      assert (n / 10 = 0) by (apply Z.div_small; lia). done. }
    assert (0 ≤ n / 10 < 10 ^ Z.of_nat fuel) as Hn'.
    { split; [apply Z.div_pos; lia|].
      apply Z.div_lt_upper_bound; [lia|].
      rewrite Nat2Z.inj_succ, Z.pow_succ_r in Hn by lia. lia. }
    destruct (IH (n / 10) (digit_char (n mod 10) :: acc) Hf Hn')
      as (l & -> & Hl & Hlen & Hval).
    exists (l ++ [digit_char (n mod 10)]). split; [by rewrite <- app_assoc|]. split.
    { apply Forall_app. split; [done|]. constructor; [by eexists | constructor]. }
    split; [rewrite length_app; simpl; lia|].
    intros a. rewrite digits_val_app by done. simpl. rewrite Hdv, Hval.
    rewrite length_app. simpl.
    replace (Z.of_nat (length l + 1)) with (Z.succ (Z.of_nat (length l))) by lia.
    rewrite Z.pow_succ_r by lia. lia.
Qed.

(** What [%d] prints is a sign and digits, eleven characters at most, and
    [atoi] reads the number back. *)
Lemma fmt_d_spec (z : Z) :
  in_int z →
  atoi (fmt_d z) = z ∧
  Forall (λ c, is_Some (digit_val c) ∨ c = "-"%char) (fmt_d z) ∧
  (0 < length (fmt_d z) ≤ 11)%nat.
Proof.
  intros Hz. unfold in_int, INT_MIN, INT_MAX in Hz. unfold fmt_d.
  destruct (Z.ltb_spec z 0) as [Hneg|Hpos].
  - assert (0 ≤ - z < 10 ^ Z.of_nat 10) as Hr by (simpl; lia).
    destruct (fmt_u_spec 10 (- z) [] ltac:(lia) Hr) as (l & Hl & Hdig & Hlen & Hval).
    rewrite Hl, app_nil_r. split; [|split].
    + unfold atoi, strtol. simpl. rewrite Hval.
      unfold clamp_long, LONG_MIN, LONG_MAX. rewrite Z.mul_0_l, Z.add_0_l.
      rewrite Z.min_r, Z.max_r by lia. rewrite wrap_int_id; [lia|].
      unfold in_int, INT_MIN, INT_MAX. lia.
    + constructor; [by right|]. eapply Forall_impl; [exact Hdig|]. by left.
    + simpl. lia.
  - assert (0 ≤ z < 10 ^ Z.of_nat 10) as Hr by (simpl; lia).
    destruct (fmt_u_spec 10 z [] ltac:(lia) Hr) as (l & Hl & Hdig & Hlen & Hval).
    rewrite Hl, app_nil_r. split; [|split].
    + destruct l as [|c l]; [simpl in Hlen; lia|].
      apply Forall_cons in Hdig as [[d Hd] Hdig].
      assert (isspace c = false ∧ c ≠ "-"%char ∧ c ≠ "+"%char) as (Hsp & Hm & Hp).
      { clear -Hd. by destruct c as [[] [] [] [] [] [] [] []]. }
      unfold atoi, strtol. cbn [skip_while]. rewrite Hsp.
      rewrite !decide_False by done. rewrite Hval.
      unfold clamp_long, LONG_MIN, LONG_MAX. rewrite Z.mul_0_l, Z.add_0_l.
      rewrite Z.min_r, Z.max_r by lia. apply wrap_int_id.
      unfold in_int, INT_MIN, INT_MAX. lia.
    + eapply Forall_impl; [exact Hdig|]. by left.
    + lia.
Qed.

(** ** Reading a saved file *)

Section strip_end_facts.
Variable f : ascii → bool.

Lemma strip_end_snoc_true (s : cstring) (c : ascii) :
  f c = true → strip_end f (s ++ [c]) = strip_end f s.
Proof.
  intros Hc. induction s as [|x s IH]; simpl; [by rewrite Hc|]. by rewrite IH.
Qed.

(** With [strip_end_snoc_true], the loop read from the end of the string: it
    stops at the last character that does not satisfy [f]. *)
Lemma strip_end_snoc_false (s : cstring) (c : ascii) :
  f c = false → strip_end f (s ++ [c]) = s ++ [c].
Proof.
  intros Hc. induction s as [|x s IH]; simpl; [by rewrite Hc|].
  rewrite IH. by destruct s.
Qed.

Lemma strip_end_all_kept (s : cstring) :
  Forall (λ c, f c = false) s → strip_end f s = s.
Proof.
  induction 1 as [|c s Hc Hs IH]; simpl; [done|].
  rewrite IH. destruct s; [by rewrite Hc | done].
Qed.

(** A string that keeps its end still keeps it behind a prefix that does. *)
Lemma strip_end_app_kept (pre s : cstring) :
  strip_end f pre = pre → strip_end f s = s → strip_end f (pre ++ s) = pre ++ s.
Proof.
  intros Hpre Hs. destruct s as [|c s]; [by rewrite app_nil_r|].
  clear Hpre. induction pre as [|x pre IH]; simpl in *; [done|].
  rewrite IH. by destruct pre.
Qed.

Lemma strip_end_weaken (g : ascii → bool) (s : cstring) :
  (∀ c, g c = true → f c = true) → strip_end f s = s → strip_end g s = s.
Proof.
  intros Hg. induction s as [|c s IH]; simpl; [done|].
  destruct (strip_end f s) as [|x r] eqn:E.
  - destruct (f c) eqn:Hc; [done|]. intros [= <-]. simpl.
    destruct (g c) eqn:Hgc; [|done]. apply Hg in Hgc. congruence.
  - intros [= Hs]. rewrite IH by done. by rewrite <- Hs.
Qed.

End strip_end_facts.

Lemma c_str_id (s : list ascii) : NUL ∉ s → c_str s = s.
Proof.
  induction s as [|c s IH]; simpl; [done|].
  rewrite not_elem_of_cons. intros [Hc Hs]. rewrite decide_False by done.
  by rewrite IH.
Qed.

Lemma fgets_chars_line (n : nat) (s rest : list ascii) :
  LF ∉ s → (length s < n)%nat →
  fgets_chars n (s ++ LF :: rest) = (s ++ [LF], rest).
Proof.
  revert n. induction s as [|c s IH]; intros n Hlf Hn.
  - destruct n; [simpl in Hn; lia|]. done.
  - destruct n; [simpl in Hn; lia|]. apply not_elem_of_cons in Hlf as [Hc Hs].
    simpl. rewrite decide_False by done. rewrite IH; [done..|simpl in Hn; lia].
Qed.

(** [fgets] on a stream that starts with a line shorter than the buffer reads
    that line, and [trim_newline] cuts its line feed. *)
Lemma fgets_line (s rest : list ascii) :
  LF ∉ s → NUL ∉ s → (length s + 1 < LINEBUF)%nat →
  fgets LINEBUF (s ++ LF :: rest) = Some (s ++ [LF], rest).
Proof.
  intros Hlf Hnul Hlen. unfold fgets.
  destruct (s ++ LF :: rest) eqn:E; [by destruct s|]. rewrite <- E.
  rewrite fgets_chars_line; [|done|lia].
  rewrite c_str_id; [done|].
  rewrite elem_of_app, list_elem_of_singleton. by intros [?|?].
Qed.

Lemma load_loop_line (s rest : list ascii) (vs : LoadVars * State) :
  LF ∉ s → NUL ∉ s → (length s + 1 < LINEBUF)%nat → trim_newline s = s →
  load_loop (length (s ++ LF :: rest)) (s ++ LF :: rest) vs
  = load_loop (length rest) rest (load_line s vs).
Proof.
  intros Hlf Hnul Hlen Htrim.
  rewrite length_app. simpl length.
  replace (length s + S (length rest))%nat with (S (length s + length rest)) by lia.
  cbn [load_loop]. rewrite fgets_line by done.
  unfold trim_newline in *. rewrite strip_end_snoc_true by done. rewrite Htrim.
  apply load_loop_fuel; lia.
Qed.

(** *** The seven kinds of line *)

Lemma load_line_id (s : cstring) (v : LoadVars) (st : State) :
  load_line (lit "ID=" ++ s) (v, st)
  = (mkLoadVars (atoi s) (lv_interval v) (lv_due v)
                (lv_qtext v) (lv_atext v) (lv_tagsline v), st).
Proof. done. Qed.

Lemma load_line_q (s : cstring) (v : LoadVars) (st : State) :
  load_line (lit "Q=" ++ s) (v, st)
  = (mkLoadVars (lv_id v) (lv_interval v) (lv_due v)
                (Some s) (lv_atext v) (lv_tagsline v), st).
Proof. done. Qed.

Lemma load_line_a (s : cstring) (v : LoadVars) (st : State) :
  load_line (lit "A=" ++ s) (v, st)
  = (mkLoadVars (lv_id v) (lv_interval v) (lv_due v)
                (lv_qtext v) (Some s) (lv_tagsline v), st).
Proof. done. Qed.

Lemma load_line_t (s : cstring) (v : LoadVars) (st : State) :
  load_line (lit "T=" ++ s) (v, st)
  = (mkLoadVars (lv_id v) (lv_interval v) (lv_due v)
                (lv_qtext v) (lv_atext v) (Some s), st).
Proof. done. Qed.

Lemma load_line_i (s : cstring) (v : LoadVars) (st : State) :
  load_line (lit "I=" ++ s) (v, st)
  = (mkLoadVars (lv_id v) (atoi s) (lv_due v)
                (lv_qtext v) (lv_atext v) (lv_tagsline v), st).
Proof. done. Qed.

Lemma load_line_d (s : cstring) (v : LoadVars) (st : State) :
  load_line (lit "D=" ++ s) (v, st)
  = (mkLoadVars (lv_id v) (lv_interval v) (atoi s)
                (lv_qtext v) (lv_atext v) (lv_tagsline v), st).
Proof. done. Qed.

Lemma load_line_sep (v : LoadVars) (st : State) :
  load_line (lit "---") (v, st) = (load_vars0, load_commit v st).
Proof. done. Qed.

(** *** The lines of a saved card *)

Lemma is_newline_isspace (c : ascii) : is_newline c = true → isspace c = true.
Proof.
  unfold is_newline. rewrite orb_true_iff, !bool_decide_eq_true. by intros [->| ->].
Qed.

Lemma str_rtrim_trimmed (t : cstring) : trim_whitespace t = t → str_rtrim t = t.
Proof.
  unfold trim_whitespace, str_rtrim. intros Ht.
  rewrite <- Ht at 1. by rewrite strip_end_idemp.
Qed.

Lemma trim_newline_tag (t : cstring) : tag_ok t → trim_newline t = t.
Proof.
  intros [_ _ _ _ Ht _]. unfold trim_newline.
  apply (strip_end_weaken isspace); [apply is_newline_isspace|].
  by apply str_rtrim_trimmed.
Qed.

Lemma join_tags_ok (ts : list cstring) :
  Forall tag_ok ts →
  (LF ∉ join_tags ts) ∧ (NUL ∉ join_tags ts) ∧
  trim_newline (join_tags ts) = join_tags ts.
Proof.
  induction 1 as [|t ts Ht Hts (IHlf & IHnul & IHtrim)]; simpl.
  { split_and!; [apply not_elem_of_nil..|done]. }
  destruct ts as [|t' ts].
  - split_and!; [apply Ht..|by apply trim_newline_tag].
  - split_and!.
    + rewrite elem_of_app, elem_of_cons.
      intros [?|[Hc|?]]; [by apply (tag_lf _ Ht) | done | done].
    + rewrite elem_of_app, elem_of_cons.
      intros [?|[Hc|?]]; [by apply (tag_nul _ Ht) | done | done].
    + unfold trim_newline in *. rewrite cons_middle, app_assoc.
      apply strip_end_app_kept; [|done].
      apply strip_end_app_kept; [by apply trim_newline_tag | done].
Qed.

Lemma fmt_d_line (z : Z) :
  in_int z →
  (LF ∉ fmt_d z) ∧ (NUL ∉ fmt_d z) ∧ trim_newline (fmt_d z) = fmt_d z ∧
  (length (fmt_d z) ≤ 11)%nat.
Proof.
  intros Hz. destruct (fmt_d_spec z Hz) as (_ & Hch & Hlen).
  assert (Forall (λ c, c ≠ LF ∧ c ≠ NUL ∧ is_newline c = false) (fmt_d z)) as Hall.
  { eapply Forall_impl; [exact Hch|]. intros c [[d Hd]| ->]; [|done].
    clear -Hd. by destruct c as [[] [] [] [] [] [] [] []]. }
  split_and!.
  - intros Hin. by eapply Forall_forall in Hall as [? _].
  - intros Hin. by eapply Forall_forall in Hall as (_ & ? & _).
  - apply strip_end_all_kept. eapply Forall_impl; [exact Hall|]. by intros c (_ & _ & ?).
  - lia.
Qed.

(** A literal key holds no line feed and no NUL. *)
Ltac key_ok := by apply (bool_decide_unpack _); vm_compute.

(** A key in front of a body that fits is a line [load_loop] reads whole. *)
Lemma load_loop_keyed (k body rest : list ascii) (vs : LoadVars * State) :
  LF ∉ k → NUL ∉ k → trim_newline k = k →
  LF ∉ body → NUL ∉ body → trim_newline body = body →
  (length k + length body + 1 < LINEBUF)%nat →
  load_loop (length (k ++ body ++ [LF] ++ rest)) (k ++ body ++ [LF] ++ rest) vs
  = load_loop (length rest) rest (load_line (k ++ body) vs).
Proof.
  intros Hk1 Hk2 Hk3 Hb1 Hb2 Hb3 Hlen.
  replace (k ++ body ++ [LF] ++ rest) with ((k ++ body) ++ LF :: rest)
    by by rewrite <- app_assoc.
  apply load_loop_line.
  - rewrite elem_of_app. by intros [?|?].
  - rewrite elem_of_app. by intros [?|?].
  - rewrite length_app. lia.
  - unfold trim_newline in *. by apply strip_end_app_kept.
Qed.

(** [load_loop] over the seven lines of a saved card commits that card. *)
Lemma load_loop_card (cd : Card) (rest : list ascii) (st : State) :
  storable cd →
  load_loop (length (save_card cd ++ rest)) (save_card cd ++ rest) (load_vars0, st)
  = load_loop (length rest) rest (load_vars0, load_commit (vars_of cd) st).
Proof.
  intros [Hid [Hq1 Hq2 Hq3 Hq4] [Ha1 Ha2 Ha3 Ha4] Htags Htl [Hi Hd]].
  destruct (fmt_d_spec _ Hid) as [Hid' _].
  destruct (fmt_d_line _ Hid) as (Hid1 & Hid2 & Hid3 & Hid4).
  assert (in_int (interval cd)) as Hii by (unfold in_int, INT_MIN, INT_MAX in *; lia).
  assert (in_int (due_in cd)) as Hdi by (unfold in_int, INT_MIN, INT_MAX in *; lia).
  destruct (fmt_d_spec _ Hii) as [Hi' _].
  destruct (fmt_d_line _ Hii) as (Hi1 & Hi2 & Hi3 & Hi4).
  destruct (fmt_d_spec _ Hdi) as [Hd' _].
  destruct (fmt_d_line _ Hdi) as (Hd1 & Hd2 & Hd3 & Hd4).
  destruct (join_tags_ok _ Htags) as (Ht1 & Ht2 & Ht3).
  assert (∀ k : string, (length (lit k) ≤ 3)%nat → ∀ body : cstring,
            (length body ≤ 11)%nat → (length (lit k) + length body + 1 < LINEBUF)%nat)
    as Hshort by (intros k Hk body Hb; unfold LINEBUF; lia).
  unfold save_card. rewrite <- !app_assoc.
  rewrite load_loop_keyed, load_line_id; [|key_ok|key_ok|done..|].
  2:{ apply Hshort; [vm_compute; lia | done]. }
  rewrite load_loop_keyed, load_line_q; [|key_ok|key_ok|done..|].
  2:{ change (length (lit "Q=")) with 2%nat. lia. }
  rewrite load_loop_keyed, load_line_a; [|key_ok|key_ok|done..|].
  2:{ change (length (lit "A=")) with 2%nat. lia. }
  rewrite load_loop_keyed, load_line_t; [|key_ok|key_ok|done..|].
  2:{ change (length (lit "T=")) with 2%nat. lia. }
  rewrite load_loop_keyed, load_line_i; [|key_ok|key_ok|done..|].
  2:{ apply Hshort; [vm_compute; lia | done]. }
  rewrite load_loop_keyed, load_line_d; [|key_ok|key_ok|done..|].
  2:{ apply Hshort; [vm_compute; lia | done]. }
  replace (lit "---" ++ [LF] ++ rest) with (lit "---" ++ [] ++ [LF] ++ rest) by done.
  rewrite load_loop_keyed; [|key_ok|key_ok|done|
                            apply not_elem_of_nil|apply not_elem_of_nil|done|].
  2:{ unfold LINEBUF. simpl. lia. }
  rewrite app_nil_r, load_line_sep. simpl.
  by rewrite Hid', Hi', Hd'.
Qed.

(** *** The tags line *)

Lemma strsep_all_no_comma (t : cstring) : ","%char ∉ t → strsep_all t = [t].
Proof.
  induction t as [|c t IH]; simpl; [done|].
  rewrite not_elem_of_cons. intros [Hc Ht]. rewrite decide_False by done.
  by rewrite IH.
Qed.

Lemma strsep_all_comma (t s : cstring) :
  ","%char ∉ t → strsep_all (t ++ ","%char :: s) = t :: strsep_all s.
Proof.
  induction t as [|c t IH]; simpl; [done|].
  rewrite not_elem_of_cons. intros [Hc Ht]. rewrite decide_False by done.
  by rewrite IH.
Qed.

Lemma parse_tag_ok (t : cstring) : tag_ok t → parse_tag t = Some t.
Proof.
  intros [Hne _ _ _ Htrim Hlow]. unfold parse_tag, normalize_tag.
  rewrite Htrim. destruct t; [done|]. by rewrite Htrim, Hlow.
Qed.

(** [parse_tags] reads the tags of a saved card back. *)
Lemma parse_tags_join (ts : list cstring) :
  Forall tag_ok ts → parse_tags (join_tags ts) = ts.
Proof.
  unfold parse_tags. induction 1 as [|t ts Ht Hts IH]; [done|].
  cbn [join_tags]. destruct ts as [|t' ts].
  - rewrite strsep_all_no_comma by apply Ht. simpl. by rewrite parse_tag_ok.
  - change (lit "," ++ join_tags (t' :: ts)) with (","%char :: join_tags (t' :: ts)).
    rewrite strsep_all_comma by apply Ht.
    change (omap parse_tag (t :: strsep_all (join_tags (t' :: ts))))
      with (match parse_tag t with
            | Some y => y :: omap parse_tag (strsep_all (join_tags (t' :: ts)))
            | None => omap parse_tag (strsep_all (join_tags (t' :: ts)))
            end).
    by rewrite parse_tag_ok, IH.
Qed.

(** *** Committing the cards of a saved file *)

Lemma load_loop_cards (cds : list Card) (st : State) :
  Forall storable cds →
  load_loop (length (concat (save_card <$> cds))) (concat (save_card <$> cds))
            (load_vars0, st)
  = (load_vars0, reload cds st).
Proof.
  intros Hcds. revert st. induction Hcds as [|cd cds Hcd Hcds IH]; intros st; [done|].
  rewrite fmap_cons. cbn [concat]. rewrite load_loop_card by done. apply IH.
Qed.

(** Loading a saved file commits the saved cards in list order, on the
    cleared state. *)
Lemma load_save_reload (st : State) :
  Forall storable (deref (heap st) <$> cards_head st) →
  load_cards_from_file (save_cards_to_file st) st
  = reload (deref (heap st) <$> cards_head st) (clear_all_data st).
Proof.
  intros Hst. unfold load_cards_from_file, save_cards_to_file.
  replace (map (λ c, save_card (deref (heap st) c)) (cards_head st))
    with (save_card <$> (deref (heap st) <$> cards_head st))
    by by rewrite <- list_fmap_compose.
  by rewrite load_loop_cards.
Qed.

(** One committed card: a new card in front of the card list, with the saved
    question, answer, tags, interval and [due_in], and the id the counter
    held; the other cards are as before. *)
Lemma load_commit_card (cd : Card) (st : State) :
  storable cd → wf st →
  wf (load_commit (vars_of cd) st) ∧
  ∃ c, cards_head (load_commit (vars_of cd) st) = c :: cards_head st ∧
    card_data (deref (heap (load_commit (vars_of cd) st)) c) = card_data cd ∧
    card_id (deref (heap (load_commit (vars_of cd) st)) c) = next_card_id st ∧
    (∀ x, x ∈ cards_head st →
          deref (heap (load_commit (vars_of cd) st)) x = deref (heap st) x) ∧
    next_card_id (load_commit (vars_of cd) st)
    = (if card_id cd >=? wrap_int (next_card_id st + 1)
       then wrap_int (card_id cd + 1) else wrap_int (next_card_id st + 1)).
Proof.
  intros Hcd Hwf. split.
  { apply wf_load_commit; [done|]. destruct Hcd as [_ _ _ _ _ [? ?]].
    split; unfold in_int, INT_MIN, INT_MAX in *; simpl; lia. }
  pose proof (malloc_fresh st Hwf) as Hfresh.
  destruct Hcd as [_ _ _ Htags _ [Hi Hd]].
  unfold load_commit, vars_of.
  cbn [lv_qtext lv_atext lv_tagsline lv_interval lv_due lv_id default]. unfold id.
  rewrite parse_tags_join by done.
  assert ((0 <? interval cd) = true) as -> by (apply Z.ltb_lt; lia).
  assert ((0 <=? due_in cd) = true) as -> by (apply Z.leb_le; lia).
  set (c := malloc (heap st)) in *.
  exists c. simpl. fold c.
  set (h' := alter (set_due_in (due_in cd)) c
               (alter (set_interval (interval cd)) c
                  (<[c := mkCard (next_card_id st) (question cd) (answer cd) (tags cd) 1 0]>
                     (heap st)))).
  assert (Hc : deref h' c
               = mkCard (next_card_id st) (question cd) (answer cd) (tags cd)
                        (interval cd) (due_in cd)).
  { unfold h'. rewrite deref_alter_eq.
    - rewrite deref_alter_eq by (rewrite lookup_insert_eq; by eexists).
      by rewrite deref_insert, decide_True.
    - rewrite lookup_alter_eq, lookup_insert_eq. by eexists. }
  assert (Hold : ∀ x, x ∈ cards_head st → deref h' x = deref (heap st) x).
  { intros x Hx. assert (x ≠ c) by (intros ->; done). unfold h'.
    rewrite !deref_alter_ne by done. rewrite deref_insert. by rewrite decide_False. }
  destruct (card_id cd >=? wrap_int (next_card_id st + 1)); simpl; fold c h';
    rewrite Hc; by split_and!.
Qed.

Lemma reload_data (cds : list Card) (st : State) :
  Forall storable cds → wf st →
  wf (reload cds st) ∧
  (λ c, card_data (deref (heap (reload cds st)) c)) <$> cards_head (reload cds st)
  = reverse (card_data <$> cds)
    ++ ((λ c, card_data (deref (heap st) c)) <$> cards_head st).
Proof.
  intros Hcds. revert st. induction Hcds as [|cd cds Hcd Hcds IH]; intros st Hwf; [done|].
  destruct (load_commit_card cd st Hcd Hwf) as (Hwf' & c & Hstore & Hdata & _ & Hold & _).
  change (reload (cd :: cds) st) with (reload cds (load_commit (vars_of cd) st)).
  destruct (IH _ Hwf') as [Hwf'' ->]. split; [done|].
  rewrite Hstore, !fmap_cons, Hdata, reverse_cons, <- app_assoc.
  f_equal. cbn [app]. f_equal. apply list_fmap_ext. intros i x Hx.
  rewrite Hold; [done|]. by eapply list_elem_of_lookup_2.
Qed.

(** Saving and loading: what does come back.  When every card fits the file
    format, the loaded card list holds, in reverse order, cards with the
    question, answer, tags, interval and [due_in] of the saved ones. *)
Lemma save_load_data (st : State) :
  wf st →
  Forall storable (deref (heap st) <$> cards_head st) →
  (λ c, card_data (deref (heap (load_cards_from_file (save_cards_to_file st) st)) c))
    <$> cards_head (load_cards_from_file (save_cards_to_file st) st)
  = reverse ((λ c, card_data (deref (heap st) c)) <$> cards_head st).
Proof.
  intros Hwf Hst. rewrite load_save_reload by done.
  destruct (reload_data _ (clear_all_data st) Hst (wf_clear st Hwf)) as [_ ->].
  simpl. rewrite app_nil_r. by rewrite <- list_fmap_compose.
Qed.

Lemma reload_ids (cds : list Card) (st : State) :
  Forall storable cds → wf st →
  (∀ cd, cd ∈ cds → card_id cd < next_card_id st) →
  INT_MIN ≤ next_card_id st →
  next_card_id st + Z.of_nat (length cds) ≤ INT_MAX →
  next_card_id (reload cds st) = next_card_id st + Z.of_nat (length cds) ∧
  ids (heap (reload cds st)) (cards_head (reload cds st))
  = reverse ((λ i, next_card_id st + Z.of_nat i) <$> seq 0 (length cds))
    ++ ids (heap st) (cards_head st).
Proof.
  intros Hcds. revert st.
  induction Hcds as [|cd cds Hcd Hcds IH]; intros st Hwf Hbelow Hlo Hhi.
  { simpl. split; [lia | done]. }
  destruct (load_commit_card cd st Hcd Hwf) as (Hwf' & c & Hstore & _ & Hid & Hold & Hnext).
  change (reload (cd :: cds) st) with (reload cds (load_commit (vars_of cd) st)).
  simpl length in *.
  assert (wrap_int (next_card_id st + 1) = next_card_id st + 1) as Hwrap.
  { apply wrap_int_id. unfold in_int. lia. }
  rewrite Hwrap in Hnext.
  assert ((card_id cd >=? next_card_id st + 1) = false) as Hge.
  { rewrite Z.geb_leb. apply Z.leb_gt. specialize (Hbelow cd ltac:(by left)). lia. }
  rewrite Hge in Hnext.
  destruct (IH _ Hwf') as [-> ->].
  - intros cd' Hcd'. rewrite Hnext. specialize (Hbelow cd' ltac:(by right)). lia.
  - lia.
  - lia.
  - rewrite Hnext. split; [lia|].
    rewrite Hstore. unfold ids at 1. rewrite fmap_cons, Hid.
    fold (ids (heap (load_commit (vars_of cd) st)) (cards_head st)).
    rewrite (ids_ext (heap st)) by done.
    cbn [seq]. rewrite fmap_cons, reverse_cons, <- app_assoc.
    rewrite <- fmap_S_seq, <- list_fmap_compose. cbn [app].
    rewrite Z.add_0_r. f_equal.
    f_equal. apply list_fmap_ext. intros i x _. simpl. lia.
Qed.

(** Saving and loading: what does not come back.  In a state whose ids are
    below the id counter (as in every run before the counter overflows), the
    cards of the loaded list carry the next ids of the counter, so none of
    them has an id that was in use when the file was saved. *)
Lemma save_load_ids (st : State) :
  wf st →
  Forall storable (deref (heap st) <$> cards_head st) →
  (∀ c, c ∈ cards_head st → card_id (deref (heap st) c) < next_card_id st) →
  INT_MIN ≤ next_card_id st →
  next_card_id st + Z.of_nat (length (cards_head st)) ≤ INT_MAX →
  ids (heap (load_cards_from_file (save_cards_to_file st) st))
      (cards_head (load_cards_from_file (save_cards_to_file st) st))
  = reverse ((λ i, next_card_id st + Z.of_nat i) <$> seq 0 (length (cards_head st)))
  ∧ ∀ x, x ∈ ids (heap (load_cards_from_file (save_cards_to_file st) st))
               (cards_head (load_cards_from_file (save_cards_to_file st) st)) →
         x ∉ ids (heap st) (cards_head st).
Proof.
  intros Hwf Hst Hbelow Hlo Hhi. rewrite load_save_reload by done.
  destruct (reload_ids _ (clear_all_data st) Hst (wf_clear st Hwf)) as [_ Hids].
  - intros cd (c & -> & Hc)%list_elem_of_fmap. by apply Hbelow.
  - done.
  - by rewrite length_fmap.
  - rewrite Hids, length_fmap. simpl. rewrite app_nil_r. split; [done|].
    intros x. rewrite elem_of_reverse. intros (i & -> & _)%list_elem_of_fmap.
    unfold ids. intros (c & Hid & Hc)%list_elem_of_fmap.
    specialize (Hbelow c Hc). lia.
Qed.

(** The sample cards fit the file format, so both lemmas apply to the state
    [main] starts with. *)
Lemma main_state_storable :
  Forall storable (deref (heap main_state) <$> cards_head main_state).
Proof.
  assert (∀ s : cstring, bool_decide (LF ∉ s) = true → bool_decide (NUL ∉ s) = true →
            trim_newline s = s → (length s + 4 ≤ LINEBUF)%nat → text_ok s) as Htext.
  { intros s ?%bool_decide_eq_true ?%bool_decide_eq_true ??. by split. }
  assert (∀ t : cstring, t ≠ [] → bool_decide (","%char ∉ t) = true →
            bool_decide (LF ∉ t) = true → bool_decide (NUL ∉ t) = true →
            trim_whitespace t = t → map tolower t = t → tag_ok t) as Htag.
  { intros t ? ?%bool_decide_eq_true ?%bool_decide_eq_true ?%bool_decide_eq_true ??.
    by split. }
  assert (∀ n : nat, (n ≤ 100)%nat → (n + 4 ≤ LINEBUF)%nat) as Hlen
    by (intros n Hn; unfold LINEBUF; lia).
  vm_compute fmap.
  repeat apply Forall_cons_2; [..|apply Forall_nil_2];
    (split; cbn [card_id question answer tags interval due_in];
     [ by vm_compute
     | apply Htext; [by vm_compute..|apply Hlen; vm_compute; lia]
     | apply Htext; [by vm_compute..|apply Hlen; vm_compute; lia]
     | repeat apply Forall_cons_2; [..|apply Forall_nil_2];
         apply Htag; by vm_compute
     | apply Hlen; vm_compute; lia
     | by vm_compute ]).
Qed.

(** ** The texts of a run *)

Section trimming_elements.
Variable f : ascii → bool.

Lemma elem_of_strip_end (s : cstring) (x : ascii) : x ∈ strip_end f s → x ∈ s.
Proof.
  induction s as [|c s IH]; simpl; [done|].
  destruct (strip_end f s) as [|y r].
  - destruct (f c); [by intros ?%elem_of_nil|].
    intros ->%list_elem_of_singleton. by left.
  - intros [->|Hx]%elem_of_cons; [by left | right; by apply IH].
Qed.

Lemma elem_of_skip_while (s : cstring) (x : ascii) : x ∈ skip_while f s → x ∈ s.
Proof.
  induction s as [|c s IH]; simpl; [done|].
  destruct (f c); [intros ?; right; by apply IH | done].
Qed.

Lemma strip_end_app_inv (pre s : cstring) :
  strip_end f (pre ++ s) = pre ++ s → strip_end f s = s.
Proof.
  induction pre as [|c pre IH]; simpl; [done|].
  destruct (strip_end f (pre ++ s)) as [|y r] eqn:E.
  - destruct (f c); [done|]. intros [= Hnil]. symmetry in Hnil.
    by apply app_eq_nil in Hnil as [_ ->].
  - intros [= Heq]. apply IH. by rewrite Heq.
Qed.

Lemma strip_end_drop (n : nat) (s : cstring) :
  strip_end f s = s → strip_end f (drop n s) = drop n s.
Proof.
  intros Hs. apply (strip_end_app_inv (take n s)). by rewrite take_drop.
Qed.

End trimming_elements.

Lemma text_wf_drop (n : nat) (s : cstring) : text_wf s → text_wf (drop n s).
Proof.
  intros [Hlf Hnul Hend]. split.
  - intros Hin. apply Hlf. by eapply elem_of_sublist, sublist_drop.
  - intros Hin. apply Hnul. by eapply elem_of_sublist, sublist_drop.
  - by apply strip_end_drop.
Qed.

Lemma c_str_nul (l : list ascii) : NUL ∉ c_str l.
Proof.
  induction l as [|c l IH]; simpl; [apply not_elem_of_nil|].
  case_decide; [apply not_elem_of_nil|]. by apply not_elem_of_cons.
Qed.

(** What [fgets] reads holds a line feed at its end at most. *)
Lemma fgets_chars_trim (n : nat) (inp : list ascii) :
  LF ∉ trim_newline (c_str (fgets_chars n inp).1).
Proof.
  revert inp. induction n as [|n IH]; intros [|c inp]; simpl;
    try apply not_elem_of_nil.
  case_decide as Hc; [subst; by vm_compute; apply not_elem_of_nil|].
  specialize (IH inp). destruct (fgets_chars n inp) as [l r]. simpl in *.
  case_decide; [apply not_elem_of_nil|].
  unfold trim_newline in *. simpl.
  destruct (strip_end is_newline (c_str l)) as [|y s].
  - destruct (is_newline c); [apply not_elem_of_nil|].
    by apply not_elem_of_cons.
  - by apply not_elem_of_cons.
Qed.

(** A line as the program takes it from a stream: read by [fgets], cut by
    [trim_newline]. *)
Lemma fgets_text_wf (size : nat) (inp rest : list ascii) (buf : cstring) :
  fgets size inp = Some (buf, rest) → text_wf (trim_newline buf).
Proof.
  unfold fgets. destruct inp as [|c inp]; [done|].
  pose proof (fgets_chars_trim (size - 1) (c :: inp)) as Hlf.
  destruct (fgets_chars (size - 1) (c :: inp)) as [l r]. intros [= <- <-].
  split; [done| |apply strip_end_idemp].
  intros Hin%elem_of_strip_end. by apply c_str_nul in Hin.
Qed.

(** *** The tags [parse_tags] returns *)

Lemma tolower_inv (c x : ascii) :
  x = ","%char ∨ x = LF ∨ x = NUL → tolower c = x → c = x.
Proof.
  intros [->|[->| ->]]; by destruct c as [[] [] [] [] [] [] [] []].
Qed.

Lemma strsep_all_tokens (s : cstring) :
  Forall (λ tok, (","%char ∉ tok) ∧ ∀ x, x ∈ tok → x ∈ s) (strsep_all s).
Proof.
  induction s as [|c s IH]; simpl.
  { constructor; [|constructor]. split; [apply not_elem_of_nil | done]. }
  case_decide as Hc.
  - constructor.
    + split; [apply not_elem_of_nil | by intros x ?%elem_of_nil].
    + eapply Forall_impl; [exact IH|]. intros tok [? Hsub].
      split; [done|]. intros x Hx. right. by apply Hsub.
  - destruct (strsep_all s) as [|tok toks]; [|].
    + constructor; [|constructor]. split.
      * intros Hx%list_elem_of_singleton. by apply Hc.
      * intros x ->%list_elem_of_singleton. by left.
    + apply Forall_cons in IH as [[Htok Hsub] IH]. constructor.
      * split; [by apply not_elem_of_cons|].
        intros x [->|Hx]%elem_of_cons; [by left | right; by apply Hsub].
      * eapply Forall_impl; [exact IH|]. intros tok' [? Hsub'].
        split; [done|]. intros x Hx. right. by apply Hsub'.
Qed.

Lemma elem_of_trim_whitespace (s : cstring) (x : ascii) :
  x ∈ trim_whitespace s → x ∈ s.
Proof. by intros ?%elem_of_strip_end%elem_of_skip_while. Qed.

Lemma parse_tag_tag_ok (tok t : cstring) :
  (","%char ∉ tok) → (LF ∉ tok) → (NUL ∉ tok) →
  parse_tag tok = Some t → tag_ok t.
Proof.
  intros Hcomma Hlf Hnul. unfold parse_tag.
  destruct (trim_whitespace tok) as [|c u] eqn:E; [done|]. intros [= <-].
  rewrite <- E. unfold normalize_tag. rewrite trim_whitespace_idemp.
  assert (∀ x, x = ","%char ∨ x = LF ∨ x = NUL → x ∉ tok →
               x ∉ map tolower (trim_whitespace tok)) as Hnot.
  { intros x Hx Hxtok (y & Hy & Hin)%list_elem_of_fmap.
    symmetry in Hy. apply tolower_inv in Hy; [|done]. subst y.
    by apply Hxtok, elem_of_trim_whitespace. }
  split.
  - rewrite E. done.
  - apply Hnot; auto.
  - apply Hnot; auto.
  - apply Hnot; auto.
  - by rewrite trim_whitespace_map_tolower, trim_whitespace_idemp.
  - rewrite map_map. apply map_ext, tolower_idemp.
Qed.

Lemma parse_tags_tag_ok (s : cstring) :
  (LF ∉ s) → (NUL ∉ s) → Forall tag_ok (parse_tags s).
Proof.
  intros Hlf Hnul. unfold parse_tags.
  pose proof (strsep_all_tokens s) as Htoks.
  induction Htoks as [|tok toks [Hcomma Hsub] Htoks IH]; [constructor|].
  change (omap parse_tag (tok :: toks))
    with (match parse_tag tok with
          | Some y => y :: omap parse_tag toks
          | None => omap parse_tag toks
          end).
  destruct (parse_tag tok) as [t|] eqn:E; [|done].
  constructor; [|done].
  apply (parse_tag_tag_ok tok); [done| | |done]; intros Hin; eauto.
Qed.

(** *** The operations keep the texts well formed *)

Lemma texts_wf_ext (st st' : State) :
  heap st' = heap st → in_int (next_card_id st') → texts_wf st → texts_wf st'.
Proof. intros Hh Hn [Hc _]. split; [by rewrite Hh | done]. Qed.

Lemma texts_wf_store_card (f : Card → Card) (c : ptr) (st : State) :
  (∀ cd, card_wf cd → card_wf (f cd)) → texts_wf st → texts_wf (store_card f c st).
Proof.
  intros Hf [Hc Hn]. split; [|done]. simpl. intros c' cd.
  destruct (decide (c' = c)) as [->|Hne].
  - rewrite lookup_alter_eq. destruct (heap st !! c) as [cd0|] eqn:E; [|done].
    simpl. intros [= <-]. by eapply Hf, Hc.
  - rewrite lookup_alter_ne by done. apply Hc.
Qed.

Lemma card_wf_sched (f : Card → Card) :
  (∀ cd, card_id (f cd) = card_id cd ∧ question (f cd) = question cd ∧
         answer (f cd) = answer cd ∧ tags (f cd) = tags cd) →
  ∀ cd, card_wf cd → card_wf (f cd).
Proof.
  intros Hf cd [? ? ? ?]. destruct (Hf cd) as (Hi & Hq & Ha & Ht).
  split; by rewrite ?Hi, ?Hq, ?Ha, ?Ht.
Qed.

(** An update of the scheduling fields keeps a card well formed. *)
Ltac sched_update := apply card_wf_sched; intros ?; try case_match; by split_and!.

Lemma texts_wf_create (q a : cstring) (tgs : list cstring) (st : State) :
  text_wf q → text_wf a → Forall tag_ok tgs → texts_wf st →
  texts_wf (create_card q a tgs st).2.
Proof.
  intros Hq Ha Ht [Hc Hn]. split; simpl; [|apply wrap_int_in_int].
  intros c cd. destruct (decide (c = malloc (heap st))) as [->|Hne].
  - rewrite lookup_insert_eq. intros [= <-]. by split.
  - rewrite lookup_insert_ne by done. apply Hc.
Qed.

Lemma texts_wf_delete (c : ptr) (st : State) : texts_wf st → texts_wf (delete_card c st).
Proof.
  intros [Hc Hn]. split; [|done]. simpl.
  intros c' cd [_ ?]%lookup_delete_Some. by eapply Hc.
Qed.

Lemma texts_wf_clear (st : State) : texts_wf st → texts_wf (clear_all_data st).
Proof.
  intros [Hc Hn]. split; [|done]. simpl. intros c cd.
  rewrite lookup_delete_all. case_decide; [done|]. apply Hc.
Qed.

Lemma texts_wf_scan_loop (n : nat) (k : Z) (st : State) :
  texts_wf st → texts_wf (scan_loop n k st).2.
Proof.
  revert k st. induction n as [|n IH]; intros k st Hst; simpl; [done|].
  unfold queue_dequeue. destruct (q_nodes (queue st)) as [|c rest]; [done|].
  destruct (0 <? due_in (deref (heap st) c)).
  - apply IH. apply (texts_wf_ext (store_card dec_due_in c st)); [done|apply Hst|].
    apply texts_wf_store_card; [sched_update | done].
  - by apply (texts_wf_ext st); [done|apply Hst|].
Qed.

Lemma texts_wf_practice_round (inp : list ascii) (st : State) :
  texts_wf st → texts_wf (practice_round inp st).2.
Proof.
  intros Hst. unfold practice_round, scan.
  pose proof (texts_wf_scan_loop (Z.to_nat (q_size (queue st))) 0 st Hst) as Hst1.
  destruct (scan_loop _ 0 st) as [[found k] st1]. simpl in *.
  destruct found as [c|]; [|by case_match].
  destruct (fgets 16 inp) as [[cmd inp1]|]; [|done].
  case_decide; simpl; [by apply (texts_wf_ext st1); [done|apply Hst1|]|].
  destruct (fgets 16 inp1) as [[cmd2 inp2]|]; [|done].
  case_decide; simpl; [by apply (texts_wf_ext st1); [done|apply Hst1|]|].
  apply (texts_wf_ext (grade (trim_newline cmd2) c st1)); [done|apply Hst1|].
  apply texts_wf_store_card; [sched_update | done].
Qed.

Lemma texts_wf_add (inp : list ascii) (st : State) :
  texts_wf st → texts_wf (add_card_interactive inp st).2.
Proof.
  intros Hst. unfold add_card_interactive.
  destruct (fgets LINEBUF inp) as [[buf inp1]|] eqn:E1; [|done].
  case_decide; [done|].
  destruct (fgets LINEBUF inp1) as [[buf2 inp2]|] eqn:E2; [|done].
  destruct (fgets LINEBUF inp2) as [[buf3 inp3]|] eqn:E3; [|done].
  apply fgets_text_wf in E1, E2, E3.
  pose proof (texts_wf_create (trim_newline buf) (trim_newline buf2)
                (parse_tags (trim_newline buf3)) st E1 E2) as Hst1.
  simpl in *.
  set (st1 := (create_card (trim_newline buf) (trim_newline buf2)
                 (parse_tags (trim_newline buf3)) st).2).
  apply (texts_wf_ext (store_card (set_due_in 0) (malloc (heap st)) st1)); [done| |].
  - simpl. apply wrap_int_in_int.
  - apply texts_wf_store_card; [sched_update|]. apply Hst1; [|done].
    apply parse_tags_tag_ok; apply E3.
Qed.

Lemma texts_wf_remove (inp : list ascii) (st : State) :
  texts_wf st → texts_wf (remove_card_interactive inp st).2.
Proof.
  intros Hst. unfold remove_card_interactive.
  destruct (fgets 64 inp) as [[buf inp1]|]; [|done].
  destruct (find_card_by_id (atoi buf) st) as [c|]; [|done].
  simpl. apply (texts_wf_ext (delete_card c st)); [done|apply Hst|].
  by apply texts_wf_delete.
Qed.

Lemma texts_wf_load_commit (v : LoadVars) (st : State) :
  lv_texts v → texts_wf st → texts_wf (load_commit v st).
Proof.
  intros [Hq Ha Ht] Hst. unfold load_commit.
  destruct (lv_qtext v) as [q|]; [|done].
  destruct (lv_atext v) as [a|]; [|done].
  pose proof (texts_wf_create q a (parse_tags (default [] (lv_tagsline v))) st
                (Hq _ eq_refl) (Ha _ eq_refl)) as Hst1.
  destruct (create_card q a _ st) as [c st1]. simpl in Hst1.
  assert (texts_wf st1) as Hst1'.
  { apply Hst1; [|done]. destruct (lv_tagsline v) as [t|]; simpl.
    - apply parse_tags_tag_ok; by apply Ht.
    - constructor. }
  set (st3 := store_card
                (set_due_in (if 0 <=? lv_due v then lv_due v else 0)) c
                (store_card
                   (set_interval (if 0 <? lv_interval v then lv_interval v else 1))
                   c st1)).
  assert (texts_wf st3) as Hst3.
  { apply texts_wf_store_card; [sched_update|].
    apply texts_wf_store_card; [sched_update | done]. }
  destruct (lv_id v >=? _).
  - apply (texts_wf_ext st3); [done| |done]. simpl. apply wrap_int_in_int.
  - apply (texts_wf_ext st3); [done| |done]. apply Hst3.
Qed.

Lemma load_line_texts (line : cstring) (v : LoadVars) (st : State) :
  text_wf line → lv_texts v → texts_wf st →
  lv_texts (load_line line (v, st)).1 ∧ texts_wf (load_line line (v, st)).2.
Proof.
  intros Hline Hv Hst. pose proof Hv as [Hq Ha Ht]. unfold load_line.
  assert (lv_texts load_vars0) as H0 by (by split).
  repeat case_match; simpl; (split; [|try done]);
    try (split; simpl; try done; intros s [= <-]; by apply text_wf_drop).
  by apply texts_wf_load_commit.
Qed.

Lemma load_loop_texts (fuel : nat) (inp : list ascii) (v : LoadVars) (st : State) :
  lv_texts v → texts_wf st →
  lv_texts (load_loop fuel inp (v, st)).1 ∧ texts_wf (load_loop fuel inp (v, st)).2.
Proof.
  revert inp v st.
  induction fuel as [|fuel IH]; intros inp v st Hv Hst; cbn [load_loop]; [done|].
  destruct (fgets LINEBUF inp) as [[line rest]|] eqn:E; [|done].
  apply fgets_text_wf in E.
  pose proof (load_line_texts (trim_newline line) v st E Hv Hst) as [Hv1 Hst1].
  destruct (load_line _ (v, st)) as [v1 st1]. by apply IH.
Qed.

Lemma texts_wf_load (file : list ascii) (st : State) :
  texts_wf st → texts_wf (load_cards_from_file file st).
Proof.
  intros Hst. unfold load_cards_from_file.
  pose proof (load_loop_texts (length file) file load_vars0 (clear_all_data st))
    as [Hv1 Hst1]; [by split | by apply texts_wf_clear |].
  destruct (load_loop _ _ _) as [v1 st1]. by apply texts_wf_load_commit.
Qed.

Lemma texts_wf_main_state : texts_wf main_state.
Proof.
  assert (∀ s : cstring, bool_decide (LF ∉ s) = true → bool_decide (NUL ∉ s) = true →
            trim_newline s = s → text_wf s) as Htext.
  { intros s ?%bool_decide_eq_true ?%bool_decide_eq_true ?. by split. }
  assert (∀ t : cstring, t ≠ [] → bool_decide (","%char ∉ t) = true →
            bool_decide (LF ∉ t) = true → bool_decide (NUL ∉ t) = true →
            trim_whitespace t = t → map tolower t = t → tag_ok t) as Htag.
  { intros t ? ?%bool_decide_eq_true ?%bool_decide_eq_true ?%bool_decide_eq_true ??.
    by split. }
  unfold main_state, load_sample_cards.
  set (st1 := (create_card (lit "What is FIFO in queues?") (lit "First In First Out")
                 [lit "queue"; lit "ds"] init_state).2).
  set (st2 := (create_card (lit "How to handle collisions in hash map?")
                 (lit "Use chaining (linked lists) or open addressing")
                 [lit "hashmap"; lit "ds"] st1).2).
  set (st3 := (create_card (lit "What is enqueue operation?")
                 (lit "Insert element at the tail of queue")
                 [lit "queue"; lit "srs"] st2).2).
  change (texts_wf (foldl (λ st c, enqueue_card c st) st3 (cards_head st3))).
  assert (texts_wf st3) as Hst3.
  { do 3 (apply texts_wf_create;
          [apply Htext; by vm_compute | apply Htext; by vm_compute
          | repeat apply Forall_cons_2; [..|apply Forall_nil_2]; apply Htag; by vm_compute |]).
    split; [intros c cd; simpl; by rewrite lookup_empty | by vm_compute]. }
  assert (∀ l st, texts_wf st → texts_wf (foldl (λ st c, enqueue_card c st) st l)) as Henq.
  { induction l as [|c l IH]; intros st Hst; [done|]. simpl. apply IH.
    by apply (texts_wf_ext st); [done|apply Hst|]. }
  by apply Henq.
Qed.

(** Every state of a run has well-formed texts. *)
Lemma reachable_texts_wf (st : State) : reachable st → texts_wf st.
Proof.
  induction 1.
  - apply texts_wf_main_state.
  - by apply texts_wf_scan_loop.
  - by apply texts_wf_practice_round.
  - by apply texts_wf_add.
  - by apply texts_wf_remove.
  - by apply texts_wf_load.
Qed.

(** Saving and loading in a run: when the texts of every card fit the line
    buffer of the loader, the loaded card list holds, in reverse order, cards
    with the question, answer, tags, interval and [due_in] of the saved
    ones. *)
Lemma save_load_data_reachable (st : State) :
  reachable st →
  (∀ c, c ∈ cards_head st → fits (deref (heap st) c)) →
  (λ c, card_data (deref (heap (load_cards_from_file (save_cards_to_file st) st)) c))
    <$> cards_head (load_cards_from_file (save_cards_to_file st) st)
  = reverse ((λ c, card_data (deref (heap st) c)) <$> cards_head st).
Proof.
  intros Hr Hfits. pose proof (reachable_wf st Hr) as Hwf.
  pose proof (reachable_texts_wf st Hr) as [Htexts _].
  apply save_load_data; [done|].
  apply Forall_fmap, Forall_forall. intros c Hc. simpl.
  pose proof Hc as [cd Hcd]%(wf_live _ Hwf).
  rewrite (deref_lookup _ _ _ Hcd).
  specialize (Hfits c Hc). rewrite (deref_lookup _ _ _ Hcd) in Hfits.
  destruct (Htexts c cd Hcd) as [Hid [Hq1 Hq2 Hq3] [Ha1 Ha2 Ha3] Htags].
  destruct Hfits as [Hfq Hfa Hft].
  split; [done | by split | by split | done | done | by eapply (wf_sched _ Hwf)].
Qed.

(** * Further properties of the code *)

(** ** The queue *)

Lemma foldl_enqueue_nodes (q : Queue) (l : list ptr) :
  q_nodes (foldl queue_enqueue q l) = q_nodes q ++ l.
Proof.
  revert q. induction l as [|c l IH]; intros q; simpl; [by rewrite app_nil_r|].
  rewrite IH. simpl. by rewrite <- app_assoc.
Qed.

(** X1. The queue is first in, first out and [size] counts its nodes: after
    enqueuing the cards of a list one by one, draining the queue returns the
    cards that were in it, then the new cards in the order they were
    enqueued; [size] has grown by the number of cards enqueued (while the
    length fits an [int]), and [queue_is_empty] holds exactly when [size] is
    0. *)
Theorem queue_fifo (q : Queue) (l : list ptr) :
  q_size q = Z.of_nat (length (q_nodes q)) →
  Z.of_nat (length (q_nodes q) + length l) ≤ INT_MAX →
  drain_all (foldl queue_enqueue q l) = drain_all q ++ l ∧
  q_size (foldl queue_enqueue q l) = q_size q + Z.of_nat (length l) ∧
  (queue_is_empty (foldl queue_enqueue q l) = true ↔ q_size (foldl queue_enqueue q l) = 0).
Proof.
  intros Hsz Hlen.
  assert (q_size (foldl queue_enqueue q l) = q_size q + Z.of_nat (length l)) as Hsize.
  { revert q Hsz Hlen. induction l as [|c l IH]; intros q Hsz Hlen; simpl; [lia|].
    rewrite IH; simpl.
    - rewrite wrap_int_id; [lia|]. unfold in_int, INT_MIN. simpl in Hlen. lia.
    - rewrite length_app. simpl. rewrite wrap_int_id; [lia|].
      unfold in_int, INT_MIN. simpl in Hlen. lia.
    - rewrite length_app. simpl in *. lia. }
  split_and!.
  - unfold drain_all. rewrite !drain_nodes by lia. apply foldl_enqueue_nodes.
  - done.
  - rewrite Hsize, Hsz. unfold queue_is_empty. rewrite foldl_enqueue_nodes.
    destruct (q_nodes q) as [|x r]; [destruct l|]; simpl; split; try done; lia.
Qed.

Lemma queue_fifo_witness :
  let q := queue (main_state) in
  let l := [7; 8]%nat in
  q_size q = Z.of_nat (length (q_nodes q)) ∧
  Z.of_nat (length (q_nodes q) + length l) ≤ INT_MAX ∧
  drain_all (foldl queue_enqueue q l) = drain_all q ++ l ∧
  q_size (foldl queue_enqueue q l) = q_size q + Z.of_nat (length l) ∧
  (queue_is_empty (foldl queue_enqueue q l) = true ↔ q_size (foldl queue_enqueue q l) = 0).
Proof.
  intros q l.
  assert (q_size q = Z.of_nat (length (q_nodes q))) as H1 by (by vm_compute).
  assert (Z.of_nat (length (q_nodes q) + length l) ≤ INT_MAX) as H2 by (by vm_compute).
  split; [done|]. split; [done|]. exact (queue_fifo q l H1 H2).
Defined.

(** ** The tag map: insertion and lookup *)

Lemma tag_find_cards_of (m : list (list TagEntry2)) (t : cstring) :
  map_ok m →
  tag_find m t = match cards_of m t with [] => None | cs => Some (mkTagEntry t cs) end.
Proof.
  intros Hm. unfold cards_of. destruct (tag_find m t) as [e|] eqn:E; [|done].
  unfold tag_find in E. apply chain_find_Some in E as [Hin Ht].
  apply (map_entry _ Hm) in Hin as [_ Hne].
  destruct e as [t' cs]. simpl in *. subst. by destruct cs.
Qed.

(** X2. On a tag map of the shape the program keeps (one entry per tag, in
    the bucket of its hash, none empty): after [tag_add_card(t, c)],
    [tag_find(t)] returns the entry of [t] with [c] in front of the cards it
    listed before; the entry of every other tag is as before, also for tags
    that hash to the same bucket; and the map keeps its shape. *)
Theorem tag_add_then_find (m : list (list TagEntry2)) (t : cstring) (c : ptr) :
  map_ok m →
  tag_find (tag_add_card t c m) t = Some (mkTagEntry t (c :: cards_of m t)) ∧
  (∀ t', t' ≠ t → tag_find (tag_add_card t c m) t' = tag_find m t') ∧
  map_ok (tag_add_card t c m).
Proof.
  intros Hm. split_and!.
  - rewrite tag_find_add by done. by rewrite decide_True.
  - intros t' Hne. rewrite tag_find_add by done. by rewrite decide_False.
  - by apply map_ok_add.
Qed.

Lemma tag_add_then_find_witness :
  let m := tag_map main_state in
  let t := lit "ds" in
  let c := 7%nat in
  map_ok m ∧
  tag_find (tag_add_card t c m) t = Some (mkTagEntry t (c :: cards_of m t)) ∧
  (∀ t', t' ≠ t → tag_find (tag_add_card t c m) t' = tag_find m t') ∧
  map_ok (tag_add_card t c m).
Proof.
  intros m t c.
  assert (map_ok m) as Hm by apply wf_main_state.
  split; [done|]. exact (tag_add_then_find m t c Hm).
Defined.

Lemma iter_remove_first_replicate (c : ptr) (n : nat) (l : list ptr) :
  Nat.iter n (remove_first c) (replicate n c ++ l) = l.
Proof.
  induction n as [|n IH]; [done|].
  rewrite Nat.iter_succ_r. simpl. by rewrite decide_True.
Qed.

(** X3. In a state that satisfies the invariant of the program state,
    deleting a card right after creating it undoes the creation: the heap, the card list and the queue are as before, and so is the entry
    [tag_find] returns for every tag (whatever the tags of the card, repeated
    ones included).  Only [next_card_id] has moved on: the id is not given
    out again. *)
Theorem create_delete_restores (q a : cstring) (tgs : list cstring) (st : State) :
  wf st →
  let c := (create_card q a tgs st).1 in
  let st' := delete_card c (create_card q a tgs st).2 in
  heap st' = heap st ∧ cards_head st' = cards_head st ∧ queue st' = queue st ∧
  (∀ t, tag_find (tag_map st') t = tag_find (tag_map st) t) ∧
  next_card_id st' = wrap_int (next_card_id st + 1).
Proof.
  intros Hwf c st'. pose proof (malloc_fresh st Hwf) as Hfresh.
  assert (heap st !! malloc (heap st) = None) as Hnone.
  { apply eq_None_not_Some. by rewrite <- (wf_live _ Hwf). }
  split_and!; simpl.
  - by apply delete_insert_id.
  - by rewrite decide_True.
  - done.
  - intros t. pose proof (wf_map _ Hwf) as Hm.
    rewrite deref_insert, decide_True by done. simpl.
    rewrite !tag_find_cards_of; [|done|by apply map_ok_remove_card, map_ok_add_all].
    rewrite cards_of_remove_card by by apply map_ok_add_all.
    rewrite cards_of_add_all by done.
    by rewrite iter_remove_first_replicate.
  - done.
Qed.

Lemma create_delete_restores_witness :
  let q := lit "q?" in
  let a := lit "a" in
  let tgs := [lit "ds"; lit "new"; lit "ds"] in
  let st := main_state in
  let c := (create_card q a tgs st).1 in
  let st' := delete_card c (create_card q a tgs st).2 in
  wf st ∧
  heap st' = heap st ∧ cards_head st' = cards_head st ∧ queue st' = queue st ∧
  (∀ t, tag_find (tag_map st') t = tag_find (tag_map st) t) ∧
  next_card_id st' = wrap_int (next_card_id st + 1).
Proof.
  intros q a tgs st c st'.
  split; [apply wf_main_state|].
  exact (create_delete_restores q a tgs st wf_main_state).
Defined.

(** ** Finding a card by its id *)

Lemma find_card_by_id_cons (n : Z) (h : gmap ptr Card) (c : ptr) (l : list ptr)
    (nid : Z) (tm : list (list TagEntry2)) (q : Queue) :
  find_card_by_id n (mkState h (c :: l) nid tm q)
  = if decide (card_id (deref h c) = n) then Some c
    else find_card_by_id n (mkState h l nid tm q).
Proof.
  unfold find_card_by_id. simpl. case_decide; [done|].
  by destruct (list_find _ l) as [[i x]|].
Qed.

(** X4. [find_card_by_id] returns NULL exactly when no card of the list has
    the id; otherwise it returns the first card of the list with that id;
    and when the ids of the list are pairwise different, every card of the
    list is found by its id. *)
Theorem find_card_by_id_spec (n : Z) (st : State) :
  (find_card_by_id n st = None ↔ n ∉ ids (heap st) (cards_head st)) ∧
  (∀ c, find_card_by_id n st = Some c →
        ∃ pre post, cards_head st = pre ++ c :: post ∧
          card_id (deref (heap st) c) = n ∧ n ∉ ids (heap st) pre) ∧
  (NoDup (ids (heap st) (cards_head st)) →
   ∀ c, c ∈ cards_head st → find_card_by_id (card_id (deref (heap st) c)) st = Some c).
Proof.
  unfold find_card_by_id, ids. split_and!.
  - rewrite fmap_None, list_find_None, Forall_forall, list_elem_of_fmap.
    split.
    + intros H (c & -> & Hc). by apply (H c).
    + intros H c Hc Hid. apply H. by exists c.
  - intros c ([i x] & Hfind & ->)%fmap_Some. simpl.
    apply list_find_Some in Hfind as (Hi & Hid & Hbefore).
    apply list_elem_of_split_length in Hi as (pre & post & Hsplit & ->).
    rewrite Hsplit in Hbefore. exists pre, post. split_and!; [done..|].
    intros (y & Hy & (j & Hj)%list_elem_of_lookup_1)%list_elem_of_fmap.
    apply (Hbefore j y); [|by apply lookup_lt_Some in Hj|done].
    by apply lookup_app_l_Some.
  - intros Hnd c Hc.
    destruct (list_find (λ c0, card_id (deref (heap st) c0) = card_id (deref (heap st) c))
                (cards_head st)) as [[i x]|] eqn:E.
    + simpl. f_equal. apply list_find_Some in E as (Hi & Hid & _).
      apply list_elem_of_lookup_1 in Hc as [j Hj].
      assert (i = j) as ->; [|congruence].
      apply (NoDup_lookup _ i j (card_id (deref (heap st) c)) Hnd).
      * by rewrite list_lookup_fmap, Hi; simpl; rewrite Hid.
      * by rewrite list_lookup_fmap, Hj.
    + apply list_find_None in E. rewrite Forall_forall in E. by destruct (E c Hc).
Qed.

(** ** Clearing *)

Lemma clear_all_data_eq (st : State) :
  wf st →
  clear_all_data st = mkState ∅ [] (next_card_id st) empty_tag_map queue_create.
Proof.
  intros Hwf. unfold clear_all_data, queue_free_nodes, queue_create. f_equal.
  apply map_eq. intros c. rewrite lookup_delete_all, lookup_empty.
  case_decide as Hin; [done|]. apply eq_None_not_Some. by rewrite <- (wf_live _ Hwf).
Qed.

(** X5. [clear_all_data] frees every card: from a state that satisfies the
    invariant of the program state, no card stays allocated, the card list, the queue and every bucket of the tag map are empty, so no search
    and no lookup by id finds anything.  [next_card_id] is not reset. *)
Theorem clear_all_data_frees_all (st : State) :
  wf st →
  clear_all_data st = mkState ∅ [] (next_card_id st) empty_tag_map queue_create ∧
  (∀ t, search_by_tag t (clear_all_data st) = []) ∧
  (∀ n, find_card_by_id n (clear_all_data st) = None).
Proof.
  intros Hwf. split_and!; [by apply clear_all_data_eq|..].
  - intros t. rewrite search_by_tag_cards_of. apply cards_of_empty.
  - done.
Qed.

Lemma clear_all_data_frees_all_witness :
  let st := main_state in
  wf st ∧
  clear_all_data st = mkState ∅ [] (next_card_id st) empty_tag_map queue_create ∧
  (∀ t, search_by_tag t (clear_all_data st) = []) ∧
  (∀ n, find_card_by_id n (clear_all_data st) = None).
Proof.
  intros st. split; [apply wf_main_state|].
  exact (clear_all_data_frees_all st wf_main_state).
Defined.

(** ** Adding a card: the card and its place in the index *)

(** X6. When [add_card_interactive] adds a card (in a state that satisfies
    the invariant of the program state), the card is newly allocated; its id is the value of [next_card_id], which moves on by one;
    its question, answer and tags are the three lines read (each without its
    line end, the third through [parse_tags]); its interval is 1 and it is
    due at once; no other card changes; and [find_card_by_id] on the new id
    returns the new card. *)
Theorem added_card (inp inp' : list ascii) (st st' : State) (c : ptr) :
  wf st →
  add_card_interactive inp st = (Added c, inp', st') →
  heap st !! c = None ∧
  (∃ buf inp1 buf2 inp2 buf3,
     fgets LINEBUF inp = Some (buf, inp1) ∧
     fgets LINEBUF inp1 = Some (buf2, inp2) ∧
     fgets LINEBUF inp2 = Some (buf3, inp') ∧
     heap st' !! c = Some (mkCard (next_card_id st) (trim_newline buf) (trim_newline buf2)
                             (parse_tags (trim_newline buf3)) 1 0)) ∧
  next_card_id st' = wrap_int (next_card_id st + 1) ∧
  (∀ x, x ≠ c → heap st' !! x = heap st !! x) ∧
  find_card_by_id (next_card_id st) st' = Some c.
Proof.
  intros Hwf. unfold add_card_interactive.
  destruct (fgets LINEBUF inp) as [[buf inp1]|] eqn:E1; [|done].
  case_decide; [done|].
  destruct (fgets LINEBUF inp1) as [[buf2 inp2]|] eqn:E2; [|done].
  destruct (fgets LINEBUF inp2) as [[buf3 inp3]|] eqn:E3; [|done].
  intros [= <- <- <-].
  assert (heap st !! malloc (heap st) = None) as Hnone.
  { apply eq_None_not_Some. rewrite <- (wf_live _ Hwf). by apply malloc_fresh. }
  split_and!; simpl.
  - done.
  - exists buf, inp1, buf2, inp2, buf3. split_and!; try done.
    by rewrite lookup_alter_eq, lookup_insert_eq.
  - done.
  - intros x Hx. by rewrite lookup_alter_ne, lookup_insert_ne.
  - unfold enqueue_card, set_queue, store_card, set_heap. simpl.
    rewrite find_card_by_id_cons. rewrite decide_True; [done|].
    rewrite deref_alter_eq by (rewrite lookup_insert_eq; by eexists).
    by rewrite deref_insert, decide_True.
Qed.

Lemma added_card_witness :
  let inp := new_card_input in
  let st := main_state in
  let r := add_card_interactive inp st in
  let c := 3%nat in
  wf st ∧
  r = (Added c, [], r.2) ∧
  heap st !! c = None ∧
  (∃ buf inp1 buf2 inp2 buf3,
     fgets LINEBUF inp = Some (buf, inp1) ∧
     fgets LINEBUF inp1 = Some (buf2, inp2) ∧
     fgets LINEBUF inp2 = Some (buf3, []) ∧
     heap r.2 !! c = Some (mkCard (next_card_id st) (trim_newline buf) (trim_newline buf2)
                             (parse_tags (trim_newline buf3)) 1 0)) ∧
  next_card_id r.2 = wrap_int (next_card_id st + 1) ∧
  (∀ x, x ≠ c → heap r.2 !! x = heap st !! x) ∧
  find_card_by_id (next_card_id st) r.2 = Some c.
Proof.
  intros inp st r c.
  assert (r = (Added c, [], r.2)) as Hr by (by vm_compute).
  split; [apply wf_main_state|]. split; [done|].
  exact (added_card inp [] st r.2 c wf_main_state Hr).
Defined.

(** X7. After [add_card_interactive] has added a card (in a state that
    satisfies the invariant of the program state), [search_by_tag] lists the
    new card in front of the cards it listed before, once for every
    occurrence, among the tags of the card, of the query as it is looked up:
    cut to its first 255 characters, then normalized (not at all when the
    card does not have that tag).  For a query of at most 255 characters
    that is the normalized query. *)
Theorem added_card_listed_first (inp inp' : list ascii) (st st' : State) (c : ptr)
    (q : cstring) :
  wf st →
  add_card_interactive inp st = (Added c, inp', st') →
  search_by_tag q st'
  = replicate (occ (normalize_tag (strncpy 255 q)) (tags (deref (heap st') c))) c
    ++ search_by_tag q st
  ∧ ((length q ≤ 255)%nat →
     search_by_tag q st'
     = replicate (occ (normalize_tag q) (tags (deref (heap st') c))) c
       ++ search_by_tag q st).
Proof.
  intros Hwf Hadd.
  assert (search_by_tag q st'
          = replicate (occ (normalize_tag (strncpy 255 q)) (tags (deref (heap st') c))) c
            ++ search_by_tag q st) as Hcut.
  2: { split; [done|]. intros Hlen. rewrite Hcut. unfold strncpy.
       by rewrite take_ge by done. }
  revert Hadd.
  unfold add_card_interactive.
  destruct (fgets LINEBUF inp) as [[buf inp1]|] eqn:E1; [|done].
  case_decide; [done|].
  destruct (fgets LINEBUF inp1) as [[buf2 inp2]|] eqn:E2; [|done].
  destruct (fgets LINEBUF inp2) as [[buf3 inp3]|] eqn:E3; [|done].
  intros [= <- <- <-].
  rewrite !search_by_tag_cards_of.
  generalize (normalize_tag (strncpy 255 q)). intros nq. simpl.
  rewrite cards_of_add_all by apply Hwf.
  rewrite deref_alter_eq by (rewrite lookup_insert_eq; by eexists).
  by rewrite deref_insert, decide_True.
Qed.

Lemma added_card_listed_first_witness :
  let inp := new_card_input in
  let st := main_state in
  let r := add_card_interactive inp st in
  let c := 3%nat in
  let q := lit " STACK" in
  wf st ∧
  r = (Added c, [], r.2) ∧
  (length q ≤ 255)%nat ∧
  search_by_tag q r.2
  = replicate (occ (normalize_tag (strncpy 255 q)) (tags (deref (heap r.2) c))) c
    ++ search_by_tag q st
  ∧ search_by_tag q r.2
    = replicate (occ (normalize_tag q) (tags (deref (heap r.2) c))) c
      ++ search_by_tag q st.
Proof.
  intros inp st r c q.
  assert (r = (Added c, [], r.2)) as Hr by (by vm_compute).
  assert (length q ≤ 255)%nat as Hlen by (vm_compute; lia).
  pose proof (added_card_listed_first inp [] st r.2 c q wf_main_state Hr) as [H1 H2].
  split_and!; [apply wf_main_state | done.. |]. exact (H2 Hlen).
Defined.

(** ** Deleting a card: what stays *)

Lemma iter_remove_first_cons (c x : ptr) (n : nat) (l : list ptr) :
  x ≠ c → Nat.iter n (remove_first c) (x :: l) = x :: Nat.iter n (remove_first c) l.
Proof.
  intros Hne. induction n as [|n IH]; [done|]. simpl. rewrite IH. simpl.
  by rewrite decide_False.
Qed.

Lemma iter_remove_first_all (c : ptr) (l : list ptr) :
  Nat.iter (occ c l) (remove_first c) l = filter (λ x, x ≠ c) l.
Proof.
  induction l as [|x l IH]; [done|]. cbn [occ]. rewrite filter_cons.
  destruct (decide (x = c)) as [->|Hne].
  - rewrite decide_False by (by intros ?). cbn [Nat.add].
    rewrite Nat.iter_succ_r. simpl. by rewrite decide_True.
  - rewrite decide_True by done. simpl. rewrite iter_remove_first_cons by done.
    by rewrite IH.
Qed.

Lemma remove_first_filter (c : ptr) (l : list ptr) :
  NoDup l → remove_first c l = filter (λ x, x ≠ c) l.
Proof.
  induction 1 as [|x l Hx Hnd IH]; [done|]. simpl. rewrite filter_cons.
  destruct (decide (x = c)) as [->|Hne].
  - rewrite decide_False by (by intros ?).
    by rewrite <- IH, remove_first_notin.
  - rewrite decide_True by done. by rewrite IH.
Qed.

(** X8. In a state that satisfies the invariant of the program state,
    [remove_card_interactive] takes out the card it deletes and nothing else: the card is freed, every other card is untouched, and the card
    list, the queue and the result of every search are what they were
    without that card, the other cards in their old order.  [next_card_id]
    stays. *)
Theorem delete_keeps_other_cards (inp inp' : list ascii) (st st' : State) (n : Z) :
  wf st →
  remove_card_interactive inp st = (Deleted n, inp', st') →
  ∃ c, find_card_by_id n st = Some c ∧
    heap st' !! c = None ∧
    (∀ x, x ≠ c → heap st' !! x = heap st !! x) ∧
    cards_head st' = filter (λ x, x ≠ c) (cards_head st) ∧
    q_nodes (queue st') = filter (λ x, x ≠ c) (q_nodes (queue st)) ∧
    (∀ t, search_by_tag t st' = filter (λ x, x ≠ c) (search_by_tag t st)) ∧
    next_card_id st' = next_card_id st.
Proof.
  intros Hwf. unfold remove_card_interactive.
  destruct (fgets 64 inp) as [[buf inp1]|]; [|done].
  destruct (find_card_by_id (atoi buf) st) as [c|] eqn:Hfind; [|done].
  intros [= <- <- <-]. exists c. split; [done|].
  apply find_card_by_id_Some in Hfind as [Hc _].
  split_and!; try (simpl; done).
  - apply lookup_delete_eq.
  - intros x Hx. by apply lookup_delete_ne.
  - apply remove_first_filter, Hwf.
  - intros t. rewrite !search_by_tag_cards_of.
    generalize (normalize_tag (strncpy 255 t)). intros nt. simpl.
    rewrite cards_of_remove_card by apply Hwf.
    pose proof (wf_index _ Hwf nt c) as Hocc.
    rewrite decide_True in Hocc by done. rewrite <- Hocc.
    apply iter_remove_first_all.
Qed.

Lemma delete_keeps_other_cards_witness :
  let st := main_state in
  let r := remove_card_interactive (line "2") st in
  wf st ∧
  r = (Deleted 2, [], r.2) ∧
  ∃ c, find_card_by_id 2 st = Some c ∧
    heap r.2 !! c = None ∧
    (∀ x, x ≠ c → heap r.2 !! x = heap st !! x) ∧
    cards_head r.2 = filter (λ x, x ≠ c) (cards_head st) ∧
    q_nodes (queue r.2) = filter (λ x, x ≠ c) (q_nodes (queue st)) ∧
    (∀ t, search_by_tag t r.2 = filter (λ x, x ≠ c) (search_by_tag t st)) ∧
    next_card_id r.2 = next_card_id st.
Proof.
  intros st r.
  assert (r = (Deleted 2, [], r.2)) as Hr by (by vm_compute).
  split; [apply wf_main_state|]. split; [done|].
  exact (delete_keeps_other_cards (line "2") [] st r.2 2 wf_main_state Hr).
Defined.

Lemma find_card_by_id_filter (n m : Z) (h h' : gmap ptr Card) (c : ptr) (l : list ptr)
    (nid : Z) (tm : list (list TagEntry2)) (q : Queue) :
  NoDup (ids h l) → c ∈ l → card_id (deref h c) = n →
  (∀ x, x ≠ c → h' !! x = h !! x) →
  find_card_by_id m (mkState h' (filter (λ x, x ≠ c) l) nid tm q)
  = if decide (m = n) then None else find_card_by_id m (mkState h l nid tm q).
Proof.
  intros Hnd Hc Hn Hh.
  assert (∀ x, x ≠ c → deref h' x = deref h x) as Hd.
  { intros x Hx. unfold deref. by rewrite Hh. }
  induction l as [|x l IH]; [by apply elem_of_nil in Hc|].
  unfold ids in Hnd. rewrite fmap_cons in Hnd. apply NoDup_cons in Hnd as [Hx Hnd].
  rewrite filter_cons, (find_card_by_id_cons m h).
  destruct (decide (x = c)) as [->|Hne].
  - rewrite decide_False by (by intros ?). rewrite Hn.
    assert (c ∉ l) as Hcl.
    { intros Hin. apply Hx, list_elem_of_fmap. by exists c. }
    destruct (decide (m = n)) as [->|Hmn].
    + clear IH Hnd Hc. induction l as [|y l IH]; [done|].
      rewrite filter_cons.
      apply not_elem_of_cons in Hcl as [Hyc Hcl].
      rewrite decide_True by done. rewrite find_card_by_id_cons.
      rewrite decide_False.
      * apply IH; [|done]. intros Hin. apply Hx. rewrite fmap_cons. by right.
      * rewrite Hd by done. intros Hy. apply Hx. rewrite fmap_cons, Hn, <- Hy. by left.
    + rewrite decide_False by congruence.
      clear IH Hnd Hx Hc. induction l as [|y l IH]; [done|].
      rewrite filter_cons.
      apply not_elem_of_cons in Hcl as [Hyc Hcl].
      rewrite decide_True by done. rewrite !find_card_by_id_cons.
      rewrite Hd by done. case_decide; [done|]. by apply IH.
  - rewrite decide_True by done. rewrite find_card_by_id_cons.
    apply elem_of_cons in Hc as [->|Hc]; [done|].
    rewrite Hd by done.
    destruct (decide (card_id (deref h x) = m)) as [Hxm|Hxm].
    + rewrite decide_False; [done|]. intros ->. apply Hx.
      rewrite Hxm, <- Hn. apply list_elem_of_fmap. by exists c.
    + by apply IH.
Qed.

(** X9. In a state that satisfies the invariant of the program state and
    where the ids of the cards are pairwise different, the id of a deleted
    card is no longer found after [remove_card_interactive], and
    every other id finds the card it found before. *)
Theorem deleted_id_not_found (inp inp' : list ascii) (st st' : State) (n : Z) :
  wf st →
  NoDup (ids (heap st) (cards_head st)) →
  remove_card_interactive inp st = (Deleted n, inp', st') →
  find_card_by_id n st' = None ∧
  ∀ m, m ≠ n → find_card_by_id m st' = find_card_by_id m st.
Proof.
  intros Hwf Hnd. unfold remove_card_interactive.
  destruct (fgets 64 inp) as [[buf inp1]|]; [|done].
  destruct (find_card_by_id (atoi buf) st) as [c|] eqn:Hfind; [|done].
  intros [= <- <- <-].
  apply find_card_by_id_Some in Hfind as [Hc Hid].
  assert (∀ m, find_card_by_id m
            (set_queue (mkQueue (filter (λ x, x ≠ c) (q_nodes (queue st)))
                          (wrap_int (Z.of_nat (length (filter (λ x, x ≠ c) (q_nodes (queue st)))))))
               (delete_card c (set_queue (mkQueue (filter (λ x, x ≠ c) (q_nodes (queue st)))
                                            (q_size (queue st))) st)))
          = if decide (m = atoi buf) then None else find_card_by_id m st) as Hall.
  { intros m. unfold set_queue, delete_card. simpl.
    rewrite remove_first_filter by apply Hwf.
    rewrite (find_card_by_id_filter (atoi buf) m (heap st) (delete c (heap st)) c); try done.
    intros x Hx. by apply lookup_delete_ne. }
  split.
  - rewrite Hall. by rewrite decide_True.
  - intros m Hm. rewrite Hall. by rewrite decide_False.
Qed.

Lemma deleted_id_not_found_witness :
  let st := main_state in
  let r := remove_card_interactive (line "2") st in
  wf st ∧
  NoDup (ids (heap st) (cards_head st)) ∧
  r = (Deleted 2, [], r.2) ∧
  find_card_by_id 2 r.2 = None ∧
  ∀ m, m ≠ 2 → find_card_by_id m r.2 = find_card_by_id m st.
Proof.
  intros st r.
  assert (NoDup (ids (heap st) (cards_head st))) as Hnd by apply ids_fresh_main_state.
  assert (r = (Deleted 2, [], r.2)) as Hr by (by vm_compute).
  split; [apply wf_main_state|]. split; [done|]. split; [done|].
  exact (deleted_id_not_found (line "2") [] st r.2 2 wf_main_state Hnd Hr).
Defined.

(** ** Line ends, white space and tags *)

Section cutting.
Variable f : ascii → bool.

Lemma strip_end_split (s : cstring) :
  ∃ tail, s = strip_end f s ++ tail ∧ Forall (λ c, f c = true) tail.
Proof.
  induction s as [|c s (tail & IH & Htail)]; simpl; [by exists []|].
  destruct (strip_end f s) as [|x r] eqn:E.
  - destruct (f c) eqn:Hc.
    + exists (c :: tail). simpl in IH. subst s. split; [done|]. by apply Forall_cons.
    + exists tail. simpl in IH. by subst s.
  - exists tail. split; [|done]. simpl in *. by rewrite <- IH.
Qed.

Lemma strip_end_last (s : cstring) (c : ascii) :
  last (strip_end f s) = Some c → f c = false.
Proof.
  induction s as [|x s IH]; simpl; [done|].
  destruct (strip_end f s) as [|y r] eqn:E.
  - destruct (f x) eqn:Hx; [done|]. simpl. by intros [= <-].
  - intros Hl. by apply IH.
Qed.

Lemma skip_while_split (s : cstring) :
  ∃ pre, s = pre ++ skip_while f s ∧ Forall (λ c, f c = true) pre.
Proof.
  induction s as [|c s (pre & IH & Hpre)]; simpl; [by exists []|].
  destruct (f c) eqn:Hc.
  - exists (c :: pre). simpl. split; [by rewrite <- IH|]. by apply Forall_cons.
  - by exists [].
Qed.

End cutting.

(** X10. [trim_newline] cuts exactly the line feeds and carriage returns at
    the end of the string: what it cuts holds nothing else, what it leaves
    does not end in one, and a second call changes nothing. *)
Theorem trim_newline_spec (s : cstring) :
  ∃ tail, s = trim_newline s ++ tail ∧
    Forall (λ c, c = LF ∨ c = CR) tail ∧
    (∀ c, last (trim_newline s) = Some c → c ≠ LF ∧ c ≠ CR) ∧
    trim_newline (trim_newline s) = trim_newline s.
Proof.
  destruct (strip_end_split is_newline s) as (tail & Hs & Htail).
  exists tail. split_and!; [done | | |apply strip_end_idemp].
  - eapply Forall_impl; [exact Htail|]. intros c. unfold is_newline.
    rewrite orb_true_iff, !bool_decide_eq_true. done.
  - intros c Hc%strip_end_last. unfold is_newline in Hc.
    apply orb_false_iff in Hc as [?%bool_decide_eq_false ?%bool_decide_eq_false]. done.
Qed.

(** X11. [normalize_tag] returns the string in lower case without the white
    space around it: the lower-cased input is white space, then the result,
    then white space; the result neither starts nor ends with white space
    and holds no upper-case letter; and normalizing it again changes
    nothing. *)
Theorem normalize_tag_spec (s : cstring) :
  ∃ pre post, map tolower s = pre ++ normalize_tag s ++ post ∧
    Forall (λ c, isspace c = true) pre ∧
    Forall (λ c, isspace c = true) post ∧
    (∀ c, head (normalize_tag s) = Some c → isspace c = false) ∧
    (∀ c, last (normalize_tag s) = Some c → isspace c = false) ∧
    (∀ c, c ∈ normalize_tag s → tolower c = c) ∧
    normalize_tag (normalize_tag s) = normalize_tag s.
Proof.
  unfold normalize_tag at 1 2 3 4. rewrite <- trim_whitespace_map_tolower.
  unfold trim_whitespace, str_ltrim, str_rtrim.
  destruct (skip_while_split isspace (map tolower s)) as (pre & Hpre & Hfpre).
  destruct (strip_end_split isspace (skip_while isspace (map tolower s)))
    as (post & Hpost & Hfpost).
  exists pre, post. split_and!; try done.
  - by rewrite <- Hpost.
  - intros c Hc.
    pose proof (skip_while_head isspace (map tolower s)) as Hh.
    destruct (skip_while isspace (map tolower s)) as [|x r] eqn:E; [done|].
    simpl in Hc. destruct (strip_end isspace r); [destruct (isspace x) eqn:Hx|]; try done.
    all: by injection Hc as <-.
  - intros c Hc. by apply strip_end_last in Hc.
  - intros c (x & -> & _)%elem_of_strip_end%elem_of_skip_while%list_elem_of_fmap.
    apply tolower_idemp.
  - apply normalize_tag_idemp.
Qed.

Lemma trim_whitespace_nil (s : cstring) :
  trim_whitespace s = [] ↔ Forall (λ c, isspace c = true) s.
Proof.
  unfold trim_whitespace, str_ltrim, str_rtrim. rewrite strip_end_nil.
  induction s as [|c s IH]; simpl; [done|].
  destruct (isspace c) eqn:Hc.
  - rewrite IH. rewrite Forall_cons. tauto.
  - rewrite !Forall_cons. split; intros [? ?]; congruence.
Qed.

Lemma strsep_all_Forall (P : ascii → Prop) (s : cstring) :
  Forall (Forall P) (strsep_all s) ↔ Forall (λ c, P c ∨ c = ","%char) s.
Proof.
  induction s as [|c s IH]; simpl.
  { split; [done|]. intros _. by repeat constructor. }
  rewrite Forall_cons, <- IH. case_decide as Hc.
  - rewrite Forall_cons. split; [intros [_ ?]; split; auto | intros [_ ?]; by split].
  - destruct (strsep_all s) as [|tok toks].
    + rewrite Forall_singleton, Forall_singleton. split.
      * intros H. split; [by left | constructor].
      * intros [[?|?] _]; done.
    + rewrite !Forall_cons. split.
      * intros [[? ?] ?]. auto.
      * intros [[?|?] [? ?]]; done.
Qed.

Lemma strsep_all_length (s : cstring) :
  length (strsep_all s) = S (occ ","%char s).
Proof.
  induction s as [|c s IH]; simpl; [done|].
  destruct (decide (c = ","%char)) as [->|Hc]; simpl; [by rewrite IH|].
  rewrite <- IH. by destruct (strsep_all s).
Qed.

Lemma omap_nil_iff {A B} (g : A → option B) (l : list A) :
  omap g l = [] ↔ Forall (λ x, g x = None) l.
Proof.
  induction l as [|x l IH]; [done|]. csimpl. rewrite Forall_cons, <- IH.
  destruct (g x); split; try done. by intros [? ?]. by intros [_ ?].
Qed.

Lemma length_omap_le {A B} (g : A → option B) (l : list A) :
  (length (omap g l) ≤ length l)%nat.
Proof.
  induction l as [|x l IH]; [done|]. csimpl. destruct (g x); simpl; lia.
Qed.

(** The tags [parse_tags] returns, for any line. *)
Lemma parse_tags_Forall_normal (line : cstring) :
  Forall (λ t, t ≠ [] ∧ (","%char ∉ t) ∧ normalize_tag t = t) (parse_tags line).
Proof.
  unfold parse_tags.
  pose proof (strsep_all_tokens line) as Htoks.
  induction Htoks as [|tok toks [Hcomma Hsub] Htoks IH]; [constructor|].
  csimpl. destruct (parse_tag tok) as [t|] eqn:E; [|done].
  constructor; [|done]. unfold parse_tag in E.
  destruct (trim_whitespace tok) as [|c u] eqn:Et; [done|]. injection E as <-.
  rewrite <- Et. split_and!.
  - unfold normalize_tag. rewrite trim_whitespace_idemp, Et. done.
  - intros (y & Hy & Hin)%list_elem_of_fmap.
    symmetry in Hy. apply tolower_inv in Hy; [|auto]. subst y.
    by apply Hcomma, elem_of_trim_whitespace, elem_of_trim_whitespace.
  - apply normalize_tag_idemp.
Qed.

(** X12. Every tag [parse_tags] returns, for any line, is not empty, holds
    no comma and is normalized (trimmed and in lower case); and there is at
    most one tag per comma-separated field of the line. *)
Theorem parse_tags_normal (line : cstring) :
  Forall (λ t, t ≠ [] ∧ (","%char ∉ t) ∧ normalize_tag t = t) (parse_tags line) ∧
  (length (parse_tags line) ≤ S (occ ","%char line))%nat.
Proof.
  split; [apply parse_tags_Forall_normal|].
  unfold parse_tags. rewrite <- strsep_all_length. apply length_omap_le.
Qed.

(** X13. [parse_tags] returns no tag exactly for the lines that hold nothing
    but white space and commas (the empty line among them): fields that are
    empty after trimming are skipped. *)
Theorem parse_tags_nil_iff (line : cstring) :
  parse_tags line = [] ↔ Forall (λ c, isspace c = true ∨ c = ","%char) line.
Proof.
  unfold parse_tags. rewrite omap_nil_iff, <- strsep_all_Forall.
  apply Forall_proper; [|done]. intros tok. unfold parse_tag.
  rewrite <- trim_whitespace_nil.
  destruct (trim_whitespace tok); split; done.
Qed.

Lemma parse_tag_normal (t : cstring) :
  t ≠ [] → normalize_tag t = t → parse_tag t = Some t.
Proof.
  intros Hne Hn.
  assert (trim_whitespace t = t) as Htrim.
  { rewrite <- Hn at 1. unfold normalize_tag.
    by rewrite trim_whitespace_map_tolower, trim_whitespace_idemp. }
  unfold parse_tag. rewrite Htrim. destruct t; [done|]. by rewrite Hn.
Qed.

(** X14. The tags line of the file format reads back: when tags that are
    not empty, hold no comma and are normalized are joined by commas, as
    [save_cards_to_file] writes them, [parse_tags] returns the same tags from
    that line, in the same order, repeated tags included.  The tags
    [parse_tags] returns are of that kind, for any line: writing them and
    parsing them again gives them back. *)
Theorem tags_line_round_trip (line : cstring) (ts : list cstring) :
  (Forall (λ t, t ≠ [] ∧ (","%char ∉ t) ∧ normalize_tag t = t) ts →
   parse_tags (join_tags ts) = ts) ∧
  parse_tags (join_tags (parse_tags line)) = parse_tags line.
Proof.
  assert (∀ ts, Forall (λ t, t ≠ [] ∧ (","%char ∉ t) ∧ normalize_tag t = t) ts →
                parse_tags (join_tags ts) = ts) as Hjoin.
  { clear ts. unfold parse_tags. induction 1 as [|t ts (Hne & Hcomma & Hn) Hts IH]; [done|].
    cbn [join_tags]. destruct ts as [|t' ts].
    - rewrite strsep_all_no_comma by done. csimpl. by rewrite parse_tag_normal.
    - change (lit "," ++ join_tags (t' :: ts)) with (","%char :: join_tags (t' :: ts)).
      rewrite strsep_all_comma by done.
      change (omap parse_tag (t :: strsep_all (join_tags (t' :: ts))))
        with (match parse_tag t with
              | Some y => y :: omap parse_tag (strsep_all (join_tags (t' :: ts)))
              | None => omap parse_tag (strsep_all (join_tags (t' :: ts)))
              end).
      rewrite parse_tag_normal by done. by rewrite IH. }
  split; [apply Hjoin|]. apply Hjoin, parse_tags_Forall_normal.
Qed.

(** ** Loading: what a file does to the state *)

Lemma load_commit_queue (v : LoadVars) (st : State) :
  q_nodes (queue st) = reverse (cards_head st) →
  q_nodes (queue (load_commit v st)) = reverse (cards_head (load_commit v st)).
Proof.
  intros Hq. unfold load_commit.
  destruct (lv_qtext v); [|done]. destruct (lv_atext v); [|done].
  unfold create_card. simpl.
  destruct (lv_id v >=? _); simpl; by rewrite reverse_cons, Hq.
Qed.

Lemma load_line_queue (line : cstring) (vs : LoadVars * State) :
  q_nodes (queue vs.2) = reverse (cards_head vs.2) →
  q_nodes (queue (load_line line vs).2) = reverse (cards_head (load_line line vs).2).
Proof.
  destruct vs as [v st]. intros Hq. unfold load_line.
  repeat case_match; try done. by apply load_commit_queue.
Qed.

Lemma load_loop_queue (fuel : nat) (inp : list ascii) (vs : LoadVars * State) :
  q_nodes (queue vs.2) = reverse (cards_head vs.2) →
  q_nodes (queue (load_loop fuel inp vs).2) = reverse (cards_head (load_loop fuel inp vs).2).
Proof.
  revert inp vs. induction fuel as [|fuel IH]; intros inp vs Hq; [done|].
  cbn [load_loop]. destruct (fgets LINEBUF inp) as [[line rest]|]; [|done].
  by apply IH, load_line_queue.
Qed.

Lemma load_queue (file : list ascii) (st : State) :
  q_nodes (queue (load_cards_from_file file st))
  = reverse (cards_head (load_cards_from_file file st)).
Proof.
  unfold load_cards_from_file.
  pose proof (load_loop_queue (length file) file (load_vars0, clear_all_data st) eq_refl) as Hq.
  destruct (load_loop _ file _) as [v st1]. by apply load_commit_queue.
Qed.

(** X15. [load_cards_from_file] replaces the deck: the state after loading a
    file does not depend on the cards, the tag map or the queue from before,
    only on [next_card_id]; and the queue then holds every card of the new
    card list exactly once, in the order of the file (the card list, built
    by insertion at the head, is in the reverse order). *)
Theorem load_replaces_deck (file : list ascii) (st : State) :
  wf st →
  load_cards_from_file file st
  = load_cards_from_file file (set_next_card_id (next_card_id st) init_state) ∧
  q_nodes (queue (load_cards_from_file file st))
  = reverse (cards_head (load_cards_from_file file st)) ∧
  NoDup (cards_head (load_cards_from_file file st)).
Proof.
  intros Hwf. split_and!.
  - unfold load_cards_from_file. rewrite !clear_all_data_eq; [done| |done].
    apply wf_set_next_card_id, wf_init.
  - apply load_queue.
  - apply (wf_store_nodup _ (wf_load file st Hwf)).
Qed.

Lemma load_replaces_deck_witness :
  let file := due_file in
  let st := main_state in
  wf st ∧
  load_cards_from_file file st
  = load_cards_from_file file (set_next_card_id (next_card_id st) init_state) ∧
  q_nodes (queue (load_cards_from_file file st))
  = reverse (cards_head (load_cards_from_file file st)) ∧
  NoDup (cards_head (load_cards_from_file file st)).
Proof.
  intros file st. split; [apply wf_main_state|].
  exact (load_replaces_deck file st wf_main_state).
Defined.

Lemma fgets_chars_whole (n : nat) (inp rest : list ascii) :
  last inp = Some LF →
  fgets_chars n (inp ++ rest) = ((fgets_chars n inp).1, (fgets_chars n inp).2 ++ rest) ∧
  whole_lines (fgets_chars n inp).2.
Proof.
  revert inp. induction n as [|n IH]; intros inp Hlast.
  { destruct inp; [done|]. split; [done | by right]. }
  destruct inp as [|c inp]; [done|]. simpl.
  destruct (decide (c = LF)) as [->|Hc].
  - split; [done|]. destruct inp; [by left | by right].
  - destruct inp as [|c' inp]; [simpl in Hlast; congruence|].
    destruct (IH (c' :: inp) Hlast) as [Happ Hw].
    rewrite Happ. by destruct (fgets_chars n (c' :: inp)).
Qed.

Lemma fgets_whole (size : nat) (inp rest : list ascii) :
  last inp = Some LF →
  ∃ l r, fgets size inp = Some (l, r) ∧ fgets size (inp ++ rest) = Some (l, r ++ rest) ∧
         whole_lines r.
Proof.
  intros Hlast. unfold fgets. destruct inp as [|c inp]; [done|].
  destruct (fgets_chars_whole (size - 1) (c :: inp) rest Hlast) as [Happ Hw].
  cbn [app] in *. rewrite Happ.
  destruct (fgets_chars (size - 1) (c :: inp)) as [l r]. by eexists _, _.
Qed.

(** Reading whole lines and then the rest of the file is reading the file. *)
Lemma load_loop_app (fuel : nat) (inp rest : list ascii) (vs : LoadVars * State) :
  whole_lines inp → (length inp ≤ fuel)%nat →
  load_loop (fuel + length rest) (inp ++ rest) vs
  = load_loop (length rest) rest (load_loop fuel inp vs).
Proof.
  revert inp vs. induction fuel as [|fuel IH]; intros inp vs Hw Hlen.
  { destruct inp; [done | simpl in Hlen; lia]. }
  destruct Hw as [->|Hlast].
  { simpl app. cbn [load_loop fgets]. apply load_loop_fuel; lia. }
  destruct (fgets_whole LINEBUF inp rest Hlast) as (l & r & E1 & E2 & Hw).
  cbn [Nat.add load_loop]. rewrite E1, E2.
  apply IH; [done|]. apply fgets_rest_shorter in E1; [lia | unfold LINEBUF; lia].
Qed.

(** X16. The separator line after the last record of a file is optional: a
    file of whole lines loads to the same state with and without a final
    [---] line (the loader commits a pending record at the end of the
    file). *)
Theorem load_trailing_separator (file : list ascii) (st : State) :
  whole_lines file →
  load_cards_from_file (file ++ line "---") st = load_cards_from_file file st.
Proof.
  intros Hw. unfold load_cards_from_file.
  rewrite length_app, load_loop_app by done.
  destruct (load_loop (length file) file (load_vars0, clear_all_data st)) as [v st1].
  change (load_loop (length (line "---")) (line "---") (v, st1))
    with (load_vars0, load_commit v st1).
  done.
Qed.

Lemma load_trailing_separator_witness :
  let file := line "Q=a" ++ line "A=b" ++ line "D=1" in
  let st := main_state in
  whole_lines file ∧
  load_cards_from_file (file ++ line "---") st = load_cards_from_file file st.
Proof.
  intros file st.
  assert (whole_lines file) as Hw by (right; by vm_compute).
  split; [done|]. exact (load_trailing_separator file st Hw).
Defined.

(** X17. The loader skips every line that does not start with one of its six
    keys and is not the separator: a file loads to the same state with and
    without such a line (blank lines and comments among them), wherever it
    stands between whole lines.  The line is shorter than the line buffer
    and does not end in a carriage return. *)
Theorem load_skips_other_lines (pre post : list ascii) (s : cstring) (st : State) :
  whole_lines pre →
  (LF ∉ s) → (NUL ∉ s) → (length s + 1 < LINEBUF)%nat → trim_newline s = s →
  is_key_line s = false →
  load_cards_from_file (pre ++ s ++ LF :: post) st = load_cards_from_file (pre ++ post) st.
Proof.
  intros Hw Hlf Hnul Hlen Htrim Hkey. unfold load_cards_from_file.
  rewrite (length_app pre (s ++ LF :: post)), (length_app pre post).
  rewrite !load_loop_app by done. rewrite load_loop_line by done.
  destruct (load_loop (length pre) pre (load_vars0, clear_all_data st)) as [v st1].
  unfold is_key_line in Hkey. rewrite !orb_false_iff in Hkey.
  destruct Hkey as [[[[[[H1 H2] H3] H4] H5] H6] H7].
  unfold load_line. by rewrite H1, H2, H3, H4, H5, H6, H7.
Qed.

Lemma load_skips_other_lines_witness :
  let pre := line "Q=a" in
  let post := line "A=b" ++ line "---" in
  let s := lit "# a comment" in
  let st := main_state in
  whole_lines pre ∧
  (LF ∉ s) ∧ (NUL ∉ s) ∧ (length s + 1 < LINEBUF)%nat ∧ trim_newline s = s ∧
  is_key_line s = false ∧
  load_cards_from_file (pre ++ s ++ LF :: post) st = load_cards_from_file (pre ++ post) st.
Proof.
  intros pre post s st.
  assert (whole_lines pre) as Hw by (right; by vm_compute).
  assert (LF ∉ s) as Hlf by (apply (bool_decide_unpack _); by vm_compute).
  assert (NUL ∉ s) as Hnul by (apply (bool_decide_unpack _); by vm_compute).
  assert (length s + 1 < LINEBUF)%nat as Hlen by (vm_compute; lia).
  assert (trim_newline s = s) as Htrim by (by vm_compute).
  assert (is_key_line s = false) as Hkey by (by vm_compute).
  split_and!; [done..|].
  exact (load_skips_other_lines pre post s st Hw Hlf Hnul Hlen Htrim Hkey).
Defined.

(** X18. Saving and loading back keeps the data of the deck: in every state
    of a run whose texts fit the line buffer of the loader, the state loaded
    from the file [save_cards_to_file] writes holds as many cards, with the
    same question, answer, tags, interval and [due_in], the card list in
    reverse order; and the queue holds them in the order of the saved card
    list. *)
Theorem save_load_round_trip (st : State) :
  reachable st →
  (∀ c, c ∈ cards_head st → fits (deref (heap st) c)) →
  let st' := load_cards_from_file (save_cards_to_file st) st in
  (λ c, card_data (deref (heap st') c)) <$> cards_head st'
  = reverse ((λ c, card_data (deref (heap st) c)) <$> cards_head st) ∧
  length (cards_head st') = length (cards_head st) ∧
  (λ c, card_data (deref (heap st') c)) <$> q_nodes (queue st')
  = (λ c, card_data (deref (heap st) c)) <$> cards_head st.
Proof.
  intros Hr Hfits st'.
  pose proof (save_load_data_reachable st Hr Hfits) as Hdata. fold st' in Hdata.
  split_and!; [done| |].
  - apply (f_equal length) in Hdata.
    by rewrite length_reverse, !length_fmap in Hdata.
  - unfold st' at 2. rewrite load_queue. fold st'.
    by rewrite fmap_reverse, Hdata, reverse_involutive.
Qed.

Lemma save_load_round_trip_witness :
  let st := main_state in
  let st' := load_cards_from_file (save_cards_to_file st) st in
  reachable st ∧
  (∀ c, c ∈ cards_head st → fits (deref (heap st) c)) ∧
  (λ c, card_data (deref (heap st') c)) <$> cards_head st'
  = reverse ((λ c, card_data (deref (heap st) c)) <$> cards_head st) ∧
  length (cards_head st') = length (cards_head st) ∧
  (λ c, card_data (deref (heap st') c)) <$> q_nodes (queue st')
  = (λ c, card_data (deref (heap st) c)) <$> cards_head st.
Proof.
  intros st st'.
  assert (∀ c, c ∈ cards_head st → fits (deref (heap st) c)) as Hfits.
  { intros c Hc. vm_compute in Hc.
    repeat (apply elem_of_cons in Hc as [->|Hc]; [split; vm_compute; lia|]).
    by apply elem_of_nil in Hc. }
  split; [apply reach_main|]. split; [done|].
  exact (save_load_round_trip st reach_main Hfits).
Defined.

(** ** Practice: what a session leaves alone *)

Lemma same_deck_refl (st : State) : same_deck st st.
Proof. by split. Qed.

Lemma same_deck_trans (st1 st2 st3 : State) :
  same_deck st1 st2 → same_deck st2 st3 → same_deck st1 st3.
Proof.
  intros [] []. split; try congruence.
  intros c. by rewrite deck_live1.
Qed.

Lemma same_deck_set_queue (q : Queue) (st : State) : same_deck st (set_queue q st).
Proof. by split. Qed.

Lemma same_deck_store_card (f : Card → Card) (c : ptr) (st : State) :
  (∀ cd, card_id (f cd) = card_id cd ∧ question (f cd) = question cd ∧
         answer (f cd) = answer cd ∧ tags (f cd) = tags cd) →
  same_deck st (store_card f c st).
Proof.
  intros Hf.
  assert (∀ x, deref (alter f c (heap st)) x = deref (heap st) x
               ∨ deref (alter f c (heap st)) x = f (deref (heap st) x)) as Hd.
  { intros x. rewrite deref_alter. case_decide as H; [right|by left]. by destruct H as [-> _]. }
  split; simpl; try done.
  - intros x. destruct (decide (x = c)) as [->|Hne].
    + by rewrite lookup_alter_eq, fmap_is_Some.
    + by rewrite lookup_alter_ne.
  - intros x. destruct (Hd x) as [->| ->]; [done | apply Hf].
  - intros x. destruct (Hd x) as [->| ->]; [done | apply Hf].
  - intros x. destruct (Hd x) as [->| ->]; [done | apply Hf].
  - intros x. destruct (Hd x) as [->| ->]; [done | apply Hf].
Qed.

Lemma same_deck_scan_loop (n : nat) (k : Z) (st : State) :
  same_deck st (scan_loop n k st).2.
Proof.
  revert k st. induction n as [|n IH]; intros k st; simpl; [apply same_deck_refl|].
  unfold queue_dequeue. destruct (q_nodes (queue st)) as [|c rest]; [apply same_deck_refl|].
  case_match; [|apply same_deck_set_queue].
  eapply same_deck_trans; [|apply IH].
  eapply same_deck_trans; [|apply same_deck_set_queue].
  by apply same_deck_store_card.
Qed.

Lemma same_deck_grade (cmd : cstring) (c : ptr) (st : State) :
  same_deck st (grade cmd c st).
Proof. unfold grade. apply same_deck_store_card. intros cd. by destruct (is_yes cmd). Qed.

Lemma same_deck_practice_round (inp : list ascii) (st : State) :
  same_deck st (practice_round inp st).2.
Proof.
  unfold practice_round, scan.
  pose proof (same_deck_scan_loop (Z.to_nat (q_size (queue st))) 0 st) as H1.
  destruct (scan_loop _ 0 st) as [[found k] st1]. simpl in H1.
  destruct found as [c|]; [|by case_match].
  destruct (fgets 16 inp) as [[cmd inp1]|]; [|done].
  case_decide; simpl.
  { eapply same_deck_trans; [done | apply same_deck_set_queue]. }
  destruct (fgets 16 inp1) as [[cmd2 inp2]|]; [|done].
  case_decide; simpl.
  { eapply same_deck_trans; [done | apply same_deck_set_queue]. }
  eapply same_deck_trans; [done|].
  eapply same_deck_trans; [apply same_deck_grade | apply same_deck_set_queue].
Qed.

Lemma same_deck_practice_rounds (fuel : nat) (inp inp' : list ascii) (st st' : State) :
  practice_rounds fuel inp st = Some (inp', st') → same_deck st st'.
Proof.
  revert inp st. induction fuel as [|fuel IH]; intros inp st; [done|]. simpl.
  pose proof (same_deck_practice_round inp st) as H1.
  destruct (practice_round inp st) as [[[] inp1] st1]; simpl in H1.
  - intros H2%IH. by eapply same_deck_trans.
  - by intros [= <- <-].
  - by intros [= <- <-].
Qed.

Lemma same_deck_find (st st' : State) (n : Z) :
  same_deck st st' → find_card_by_id n st' = find_card_by_id n st.
Proof.
  intros [Hl _ _ _ Hid _ _ _]. unfold find_card_by_id. rewrite Hl.
  f_equal. clear Hl. induction (cards_head st) as [|c l IH]; [done|].
  simpl. rewrite Hid. case_decide; [done|]. by rewrite IH.
Qed.

(** X19. A practice session changes nothing but the schedule and the queue:
    when [practice_loop] returns, the card list, the tag map and
    [next_card_id] are as before, the same cards are allocated, and every
    card has its id, question, answer and tags; so every search and every
    lookup by id gives what it gave before. *)
Theorem practice_keeps_deck (fuel : nat) (inp inp' : list ascii) (st st' : State) :
  practice_loop fuel inp st = Some (inp', st') →
  same_deck st st' ∧
  (∀ t, search_by_tag t st' = search_by_tag t st) ∧
  (∀ n, find_card_by_id n st' = find_card_by_id n st).
Proof.
  intros Hloop.
  assert (same_deck st st') as Hd.
  { unfold practice_loop in Hloop. case_match.
    - injection Hloop as <- <-. apply same_deck_refl.
    - by eapply same_deck_practice_rounds. }
  split_and!; [done| |].
  - intros t. rewrite !search_by_tag_cards_of. by rewrite (deck_map _ _ Hd).
  - intros n. by apply same_deck_find.
Qed.

Lemma practice_keeps_deck_witness :
  let st := main_state in
  let r := practice_loop 2 one_answer_input st in
  let st' := (default ([], st) r).2 in
  r = Some ([], st') ∧
  same_deck st st' ∧
  (∀ t, search_by_tag t st' = search_by_tag t st) ∧
  (∀ n, find_card_by_id n st' = find_card_by_id n st).
Proof.
  intros st r st'.
  assert (r = Some ([], st')) as Hr by (by vm_compute).
  split; [done|]. exact (practice_keeps_deck 2 one_answer_input [] st st' Hr).
Defined.

(** X20. [practice_loop] returns: on every input, from every state of a run
    whose queue length fits [q->size], some number of rounds of its outer
    loop reaches a [return] or the [break], and the result does not depend
    on the bound given beyond that number. *)
Theorem practice_loop_returns (inp : list ascii) (st : State) :
  reachable st →
  Z.of_nat (length (q_nodes (queue st))) ≤ INT_MAX →
  ∃ fuel r, ∀ fuel', (fuel ≤ fuel')%nat → practice_loop fuel' inp st = Some r.
Proof.
  intros Hr Hlen.
  destruct (practice_loop_terminates inp st Hr Hlen) as (fuel & r & Hloop).
  exists fuel, r. intros fuel' Hle. unfold practice_loop in *.
  destruct (q_size (queue st) =? 0); [done|]. by eapply practice_rounds_fuel.
Qed.

Lemma practice_loop_returns_witness :
  let inp := one_answer_input in
  let st := load_cards_from_file waiting_file main_state in
  reachable st ∧
  Z.of_nat (length (q_nodes (queue st))) ≤ INT_MAX ∧
  ∃ fuel r, ∀ fuel', (fuel ≤ fuel')%nat → practice_loop fuel' inp st = Some r.
Proof.
  intros inp st.
  assert (reachable st) as Hr by apply reach_load, reach_main.
  assert (Z.of_nat (length (q_nodes (queue st))) ≤ INT_MAX) as Hlen by (by vm_compute).
  split; [done|]. split; [done|]. exact (practice_loop_returns inp st Hr Hlen).
Defined.

Lemma fgets_None (size : nat) (inp : list ascii) : fgets size inp = None → inp = [].
Proof. unfold fgets. destruct inp; [done|]. by destruct (fgets_chars _ _). Qed.

(** The cards a practice round takes out of the queue: none, or the
    presented card when the input has ended. *)
Lemma practice_round_queue (inp : list ascii) (st : State) :
  ∃ lost, q_nodes (queue st) ≡ₚ lost ++ q_nodes (queue (practice_round inp st).2) ∧
    (length lost ≤ 1)%nat ∧
    (lost ≠ [] → (practice_round inp st).1.1 = Return ∧ (practice_round inp st).1.2 = []).
Proof.
  unfold practice_round, scan.
  pose proof (scan_loop_perm (Z.to_nat (q_size (queue st))) 0 st) as Hperm.
  destruct (scan_loop _ 0 st) as [[found k] st1]. simpl in Hperm.
  destruct found as [c|].
  2: { exists []. split_and!; [|simpl; lia|done]. case_match; simpl; by rewrite Hperm. }
  destruct (fgets 16 inp) as [[cmd inp1]|] eqn:E1.
  2: { exists [c]. split_and!; [done|simpl; lia|]. intros _. split; [done|].
       by apply fgets_None in E1. }
  assert (q_nodes (queue st) ≡ₚ q_nodes (queue st1) ++ [c]) as Hback.
  { rewrite <- Hperm. apply Permutation_cons_append. }
  case_decide.
  { exists []. split_and!; [done|simpl; lia|done]. }
  destruct (fgets 16 inp1) as [[cmd2 inp2]|] eqn:E2.
  2: { exists [c]. split_and!; [done|simpl; lia|]. intros _. split; [done|].
       by apply fgets_None in E2. }
  case_decide; exists []; (split_and!; [done|simpl; lia|done]).
Qed.

(** X21. A practice session neither duplicates a card in the queue nor adds
    one, and it loses at most one: when [practice_loop] returns, the old
    queue is the new one plus at most one card; and when input is left, the
    new queue holds exactly the cards of the old one (a card is lost only
    when the input ends while it is presented). *)
Theorem practice_keeps_queue (fuel : nat) (inp inp' : list ascii) (st st' : State) :
  practice_loop fuel inp st = Some (inp', st') →
  (∃ lost, q_nodes (queue st) ≡ₚ lost ++ q_nodes (queue st') ∧ (length lost ≤ 1)%nat) ∧
  (inp' ≠ [] → q_nodes (queue st') ≡ₚ q_nodes (queue st)).
Proof.
  intros Hloop.
  assert (∃ lost, q_nodes (queue st) ≡ₚ lost ++ q_nodes (queue st') ∧
                  (length lost ≤ 1)%nat ∧ (lost ≠ [] → inp' = [])) as (lost & Hperm & Hlen & Hlost).
  { unfold practice_loop in Hloop. case_match.
    { injection Hloop as <- <-. exists []. split_and!; [done|simpl; lia|done]. }
    clear H. revert inp st Hloop. induction fuel as [|fuel IH]; intros inp st; [done|].
    simpl. destruct (practice_round_queue inp st) as (lost & Hperm & Hlen & Hlost).
    destruct (practice_round inp st) as [[[] inp1] st1]; simpl in *.
    - intros (lost' & Hperm' & Hlen' & Hlost')%IH.
      destruct lost as [|x lost]; [|by destruct Hlost].
      exists lost'. split_and!; [|done..]. by rewrite Hperm.
    - intros [= <- <-]. destruct lost as [|x lost]; [|by destruct Hlost].
      exists []. split_and!; [done|simpl; lia|done].
    - intros [= <- <-]. exists lost. split_and!; [done..|]. intros Hne. by apply Hlost. }
  split; [by exists lost|].
  intros Hinp. destruct lost as [|x lost]; [done|]. by destruct Hinp, Hlost.
Qed.

Lemma practice_keeps_queue_witness :
  let st := main_state in
  let inp := line "" ++ line "n" ++ line "q" ++ line "8" in
  let r := practice_loop 2 inp st in
  let st' := (default ([], st) r).2 in
  r = Some (line "8", st') ∧
  (∃ lost, q_nodes (queue st) ≡ₚ lost ++ q_nodes (queue st') ∧ (length lost ≤ 1)%nat) ∧
  (line "8" ≠ [] → q_nodes (queue st') ≡ₚ q_nodes (queue st)).
Proof.
  intros st inp r st'.
  assert (r = Some (line "8", st')) as Hr by (by vm_compute).
  split; [done|]. exact (practice_keeps_queue 2 inp (line "8") st st' Hr).
Defined.

(** X22. A scan pass over a queue in which no card is due (in a state that
    satisfies the invariant of the program state, the queue length within
    [q->size]) presents no card: it pops every card once, decrements its
    [due_in] by exactly 1 and pushes it back, so the queue is in its old
    order; no card outside the queue changes, and the deck is as before. *)
Theorem scan_counts_down (st : State) :
  wf st →
  Z.of_nat (length (q_nodes (queue st))) ≤ INT_MAX →
  (∀ x, x ∈ q_nodes (queue st) → 0 < due_in (deref (heap st) x)) →
  ∃ st', scan st = (None, Z.of_nat (length (q_nodes (queue st))), st') ∧
    queue st' = queue st ∧
    (∀ x, x ∈ q_nodes (queue st) →
          due_in (deref (heap st') x) = due_in (deref (heap st) x) - 1) ∧
    (∀ x, x ∉ q_nodes (queue st) → heap st' !! x = heap st !! x) ∧
    same_deck st st'.
Proof.
  intros Hwf Hlen Hall.
  assert (Hsize : q_size (queue st) = Z.of_nat (length (q_nodes (queue st)))).
  { rewrite (wf_queue_size _ Hwf). apply wrap_int_id. unfold in_int, INT_MIN. lia. }
  pose proof (same_deck_scan_loop (Z.to_nat (q_size (queue st))) 0 st) as Hdeck.
  fold (scan st) in Hdeck.
  assert (scan st = (None, Z.of_nat (length (q_nodes (queue st))),
                     mkState (dec_all (q_nodes (queue st)) (heap st)) (cards_head st)
                       (next_card_id st) (tag_map st)
                       (mkQueue (q_nodes (queue st)) (q_size (queue st))))) as Hscan.
  { unfold scan. rewrite (scan_loop_rotate (q_nodes (queue st)) []).
    + rewrite Hsize, Nat2Z.id, Nat.sub_diag. simpl. reflexivity.
    + by rewrite app_nil_r.
    + rewrite (wf_queue_size _ Hwf). apply wrap_int_in_int.
    + apply Hwf.
    + done.
    + rewrite Hsize. lia. }
  rewrite Hscan in Hdeck. eexists. split; [exact Hscan|]. simpl.
  split_and!; [by destruct (queue st) | | | done].
  - intros x Hx. unfold deref at 1. rewrite dec_all_lookup by apply Hwf.
    rewrite decide_True by done.
    assert (x ∈ cards_head st) as [cd Hcd]%(wf_live _ Hwf) by by apply (wf_queue_store _ Hwf).
    by rewrite (deref_lookup _ _ _ Hcd), Hcd.
  - intros x Hx. rewrite dec_all_lookup by apply Hwf. by rewrite decide_False.
Qed.

Lemma scan_counts_down_witness :
  let st := load_cards_from_file waiting_file main_state in
  wf st ∧
  Z.of_nat (length (q_nodes (queue st))) ≤ INT_MAX ∧
  (∀ x, x ∈ q_nodes (queue st) → 0 < due_in (deref (heap st) x)) ∧
  ∃ st', scan st = (None, Z.of_nat (length (q_nodes (queue st))), st') ∧
    queue st' = queue st ∧
    (∀ x, x ∈ q_nodes (queue st) →
          due_in (deref (heap st') x) = due_in (deref (heap st) x) - 1) ∧
    (∀ x, x ∉ q_nodes (queue st) → heap st' !! x = heap st !! x) ∧
    same_deck st st'.
Proof.
  intros st.
  assert (wf st) as Hwf by apply wf_load, wf_main_state.
  assert (Z.of_nat (length (q_nodes (queue st))) ≤ INT_MAX) as Hlen by (by vm_compute).
  assert (∀ x, x ∈ q_nodes (queue st) → 0 < due_in (deref (heap st) x)) as Hall.
  { intros x Hx. vm_compute in Hx.
    repeat (apply elem_of_cons in Hx as [->|Hx]; [by vm_compute|]).
    by apply elem_of_nil in Hx. }
  split_and!; [done..|]. exact (scan_counts_down st Hwf Hlen Hall).
Defined.

(** ** The menu loop of [main] *)

Lemma fgets_rest_le (size : nat) (inp rest : list ascii) (l : cstring) :
  fgets size inp = Some (l, rest) → (length rest ≤ length inp)%nat.
Proof.
  unfold fgets. destruct inp as [|c inp]; [done|].
  pose proof (fgets_chars_app (size - 1) (c :: inp)) as Happ.
  destruct (fgets_chars (size - 1) (c :: inp)) as [l' r]. intros [= _ <-].
  simpl in Happ. rewrite <- Happ, length_app. lia.
Qed.

Lemma practice_round_input (inp : list ascii) (st : State) :
  (length (practice_round inp st).1.2 ≤ length inp)%nat.
Proof.
  unfold practice_round. destruct (scan st) as [[found k] st1].
  destruct found as [c|]; [|by case_match].
  destruct (fgets 16 inp) as [[cmd inp1]|] eqn:E1; [|done].
  apply fgets_rest_le in E1.
  case_decide; [done|].
  destruct (fgets 16 inp1) as [[cmd2 inp2]|] eqn:E2; [|done].
  apply fgets_rest_le in E2.
  case_decide; simpl; lia.
Qed.

Lemma practice_rounds_sound (fuel : nat) (inp inp' : list ascii) (st st' : State) :
  reachable st → practice_rounds fuel inp st = Some (inp', st') →
  reachable st' ∧ (length inp' ≤ length inp)%nat.
Proof.
  revert inp st. induction fuel as [|fuel IH]; intros inp st Hr; [done|]. simpl.
  pose proof (reach_round st inp Hr) as Hr1.
  pose proof (practice_round_input inp st) as Hlen.
  destruct (practice_round inp st) as [[[] inp1] st1]; simpl in *.
  - intros [Hr2 Hlen2]%IH; [|done]. split; [done | lia].
  - by intros [= <- <-].
  - by intros [= <- <-].
Qed.

Lemma practice_loop_sound (fuel : nat) (inp inp' : list ascii) (st st' : State) :
  reachable st → practice_loop fuel inp st = Some (inp', st') →
  reachable st' ∧ (length inp' ≤ length inp)%nat.
Proof.
  intros Hr. unfold practice_loop. case_match.
  - by intros [= <- <-].
  - by apply practice_rounds_sound.
Qed.

Lemma add_card_input (inp : list ascii) (st : State) :
  (length (add_card_interactive inp st).1.2 ≤ length inp)%nat.
Proof.
  unfold add_card_interactive.
  destruct (fgets LINEBUF inp) as [[buf inp1]|] eqn:E1; [|done].
  apply fgets_rest_le in E1. case_decide; [done|].
  destruct (fgets LINEBUF inp1) as [[buf2 inp2]|] eqn:E2; [|done].
  apply fgets_rest_le in E2.
  destruct (fgets LINEBUF inp2) as [[buf3 inp3]|] eqn:E3; [|simpl; lia].
  apply fgets_rest_le in E3. simpl. lia.
Qed.

Lemma remove_card_input (inp : list ascii) (st : State) :
  (length (remove_card_interactive inp st).1.2 ≤ length inp)%nat.
Proof.
  unfold remove_card_interactive.
  destruct (fgets 64 inp) as [[buf inp1]|] eqn:E1; [|done].
  apply fgets_rest_le in E1. by case_match.
Qed.

Lemma menu_step_reach (can_write : cstring → bool) (pfuel : nat) (inp : list ascii)
    (w : World) (s : Step) :
  reachable (w_state w) →
  menu_step can_write pfuel inp w = Some s →
  match s with
  | Next inp' w' => reachable (w_state w') ∧ (length inp' < length inp)%nat
  | Stop w' => w' = w
  end.
Proof.
  intros Hr. unfold menu_step.
  destruct (fgets LINEBUF inp) as [[buf inp1]|] eqn:E1; [|by intros [= <-]].
  apply fgets_rest_shorter in E1; [|unfold LINEBUF; lia].
  repeat case_decide.
  - destruct (practice_loop pfuel inp1 (w_state w)) as [[inp2 st']|] eqn:Ep; [|done].
    intros [= <-]. apply practice_loop_sound in Ep as [? ?]; [|done]. split; [done | lia].
  - pose proof (reach_add _ inp1 Hr) as Hr'. pose proof (add_card_input inp1 (w_state w)).
    destruct (add_card_interactive inp1 (w_state w)) as [[res inp2] st'].
    intros [= <-]. simpl in *. split; [done | lia].
  - pose proof (reach_remove _ inp1 Hr) as Hr'.
    pose proof (remove_card_input inp1 (w_state w)).
    destruct (remove_card_interactive inp1 (w_state w)) as [[res inp2] st'].
    intros [= <-]. simpl in *. split; [done | lia].
  - destruct (fgets LINEBUF inp1) as [[buf2 inp2]|] eqn:E2; intros [= <-]; [|done].
    apply fgets_rest_le in E2. split; [done | lia].
  - by intros [= <-].
  - destruct (fgets LINEBUF inp1) as [[buf2 inp2]|] eqn:E2; intros [= <-]; [|done].
    apply fgets_rest_le in E2. split; [|lia].
    unfold save_to. by case_match.
  - destruct (fgets LINEBUF inp1) as [[buf2 inp2]|] eqn:E2; intros [= <-]; [|done].
    apply fgets_rest_le in E2. split; [|lia].
    unfold load_from. case_match; [|done]. by apply reach_load.
  - by intros [= <-].
  - by intros [= <-].
Qed.

(** X23. Every round of the menu loop of [main] that goes on to the next
    round has read at least one character of the input and leaves a state
    that satisfies the invariant of the program state (it is a state of a
    run); a round that leaves the loop (end of input, or option 8) changes
    neither the state nor the files. *)
Theorem menu_step_sound (can_write : cstring → bool) (pfuel : nat) (inp : list ascii)
    (w : World) (s : Step) :
  reachable (w_state w) →
  menu_step can_write pfuel inp w = Some s →
  match s with
  | Next inp' w' =>
      reachable (w_state w') ∧ wf (w_state w') ∧ (length inp' < length inp)%nat
  | Stop w' => w' = w
  end.
Proof.
  intros Hr Hs. pose proof (menu_step_reach can_write pfuel inp w s Hr Hs) as H.
  destruct s as [inp' w'|w']; [|done]. destruct H as [Hr' Hlen].
  split_and!; [done | by apply reachable_wf | done].
Qed.

Lemma menu_step_sound_witness :
  let can_write := λ _ : cstring, true in
  let inp := line "2" ++ new_card_input ++ line "8" in
  let w := mkWorld main_state ∅ in
  let w' := mkWorld (add_card_interactive new_card_input main_state).2 ∅ in
  reachable (w_state w) ∧
  menu_step can_write 0 inp w = Some (Next (line "8") w') ∧
  reachable (w_state w') ∧ wf (w_state w') ∧ (length (line "8") < length inp)%nat.
Proof.
  intros can_write inp w w'.
  assert (menu_step can_write 0 inp w = Some (Next (line "8") w')) as Hs by (by vm_compute).
  split; [apply reach_main|]. split; [done|].
  exact (menu_step_sound can_write 0 inp w (Next (line "8") w') reach_main Hs).
Defined.

(** X24. Menu option 6 followed by option 7 with the same file name (a name
    shorter than the line buffer that does not end in a carriage return)
    loads what was just saved: when the file can be written, the two rounds
    leave
    the state [load_cards_from_file] computes from the contents
    [save_cards_to_file] wrote, with that file added to the files, and the
    loop goes on with the rest of the input. *)
Theorem menu_save_then_load (can_write : cstring → bool) (fuel pfuel : nat)
    (name : cstring) (rest : list ascii) (w : World) :
  can_write name = true →
  (LF ∉ name) → (NUL ∉ name) → (length name + 1 < LINEBUF)%nat → trim_newline name = name →
  main_loop can_write (S (S fuel)) pfuel (save_load_session name ++ rest) w
  = main_loop can_write fuel pfuel rest
      (mkWorld (load_cards_from_file (save_cards_to_file (w_state w)) (w_state w))
               (<[name := save_cards_to_file (w_state w)]> (w_files w))).
Proof.
  intros Hcw Hlf Hnul Hlen Htrim.
  assert (∀ tl, fgets LINEBUF (name ++ LF :: tl) = Some (name ++ [LF], tl)) as Hname.
  { intros tl. by apply fgets_line. }
  assert (trim_newline (name ++ [LF]) = name) as Hcut.
  { unfold trim_newline in *. by rewrite strip_end_snoc_true. }
  unfold save_load_session. cbn [main_loop].
  replace ((line "6" ++ name ++ LF :: line "7" ++ name ++ [LF]) ++ rest)
    with (line "6" ++ name ++ LF :: line "7" ++ name ++ LF :: rest)
    by (by rewrite <- !app_assoc, <- !app_comm_cons, <- !app_assoc).
  unfold menu_step at 1.
  change (fgets LINEBUF (line "6" ++ name ++ LF :: line "7" ++ name ++ LF :: rest))
    with (Some (line "6", name ++ LF :: line "7" ++ name ++ LF :: rest)).
  cbn match. change (trim_newline (line "6")) with (lit "6").
  rewrite !decide_False by done. rewrite decide_True by done.
  rewrite Hname, Hcut. unfold save_to. rewrite Hcw.
  unfold menu_step at 1.
  change (fgets LINEBUF (line "7" ++ name ++ LF :: rest))
    with (Some (line "7", name ++ LF :: rest)).
  cbn match. change (trim_newline (line "7")) with (lit "7").
  rewrite !decide_False by done. rewrite decide_True by done.
  rewrite Hname, Hcut. unfold load_from. simpl. by rewrite lookup_insert_eq.
Qed.

Lemma menu_save_then_load_witness :
  let can_write := λ _ : cstring, true in
  let name := lit "deck.txt" in
  let rest := line "8" in
  let w := mkWorld main_state ∅ in
  can_write name = true ∧
  (LF ∉ name) ∧ (NUL ∉ name) ∧ (length name + 1 < LINEBUF)%nat ∧ trim_newline name = name ∧
  main_loop can_write 3 0 (save_load_session name ++ rest) w
  = main_loop can_write 1 0 rest
      (mkWorld (load_cards_from_file (save_cards_to_file (w_state w)) (w_state w))
               (<[name := save_cards_to_file (w_state w)]> (w_files w))).
Proof.
  intros can_write name rest w.
  assert (LF ∉ name) as Hlf by (apply (bool_decide_unpack _); by vm_compute).
  assert (NUL ∉ name) as Hnul by (apply (bool_decide_unpack _); by vm_compute).
  assert (length name + 1 < LINEBUF)%nat as Hlen by (vm_compute; lia).
  assert (trim_newline name = name) as Htrim by (by vm_compute).
  split_and!; [done..|].
  exact (menu_save_then_load can_write 1 0 name rest w eq_refl Hlf Hnul Hlen Htrim).
Defined.

Lemma main_loop_reach (can_write : cstring → bool) (fuel pfuel : nat) (inp : list ascii)
    (w w' : World) :
  reachable (w_state w) →
  main_loop can_write fuel pfuel inp w = Some w' → reachable (w_state w').
Proof.
  revert inp w. induction fuel as [|fuel IH]; intros inp w Hr; [done|]. simpl.
  destruct (menu_step can_write pfuel inp w) as [[inp1 w1|w1]|] eqn:E; [| |done].
  - apply menu_step_reach in E as [? _]; [|done]. by apply IH.
  - apply menu_step_reach in E as ->; [|done]. by intros [= <-].
Qed.

(** X25. [main] ends with nothing allocated: whenever it returns, on any
    input and any files, no card is left on the heap and the card list, the
    tag map and the queue are empty.  And its menu loop cannot go on beyond
    its input: with more rounds allowed than the input has characters, [main]
    can only fail to return inside a practice session that needs more than
    the rounds allowed to it. *)
Theorem main_exit (can_write : cstring → bool) (fuel pfuel : nat) (inp : list ascii)
    (files : gmap cstring (list ascii)) :
  (∀ w', main can_write fuel pfuel inp files = Some w' →
         ∃ n, w_state w' = mkState ∅ [] n empty_tag_map queue_create) ∧
  ((length inp < fuel)%nat → main can_write fuel pfuel inp files = None →
   ∃ inp1 st1, reachable st1 ∧ practice_loop pfuel inp1 st1 = None).
Proof.
  unfold main. split.
  - intros w'.
    destruct (main_loop can_write fuel pfuel inp (mkWorld main_state files)) as [w|] eqn:E;
      [|done].
    intros [= <-]. apply main_loop_reach in E; [|apply reach_main].
    exists (next_card_id (w_state w)). simpl. by apply clear_all_data_eq, reachable_wf.
  - intros Hfuel.
    assert (reachable (w_state (mkWorld main_state files))) as Hr by apply reach_main.
    revert Hr Hfuel. generalize (mkWorld main_state files). revert inp.
    induction fuel as [|fuel IH]; intros inp w Hr Hfuel; [lia|]. simpl.
    destruct (menu_step can_write pfuel inp w) as [[inp1 w1|w1]|] eqn:E.
    + apply menu_step_reach in E as [? ?]; [|done]. apply IH; [done | lia].
    + done.
    + intros _. unfold menu_step in E.
      destruct (fgets LINEBUF inp) as [[buf inp1]|]; [|done].
      repeat case_decide; repeat case_match; try done.
      by exists inp1, (w_state w).
Qed.

(** A session through every kind of menu round: an add, a practice with one
    answer ended by [q], a save, a load of the saved file, a delete, an
    unknown option, and the exit. *)
Lemma main_sample_session :
  let inp := line "2" ++ new_card_input ++ line "1" ++ line "" ++ line "y" ++ line "q" ++
             save_load_session (lit "deck.txt") ++ line "3" ++ line "6" ++ line "x" ++
             line "8" in
  match main_loop (λ _, true) 9 3 inp (mkWorld main_state ∅) with
  | Some w =>
      ids (heap (w_state w)) (cards_head (w_state w)) = [8; 7; 5] ∧
      is_Some (w_files w !! lit "deck.txt")
  | None => False
  end ∧
  match main (λ _, true) 9 3 inp ∅ with
  | Some w => next_card_id (w_state w) = 9 ∧ heap (w_state w) = ∅
  | None => False
  end.
Proof.
  intros inp. split.
  - vm_compute. split; [done | by eexists].
  - by vm_compute.
Qed.

(** ** Stopping a practice session *)

(** X26. When the answer to either prompt for a presented card is [q], the
    practice loop stops there: [practice_loop] returns, the card is pushed
    to the back of the queue with its schedule as it was (no card changes
    after the scan), and the queue holds the cards it held before the
    round. *)
Theorem practice_quit_keeps_schedule (st st1 : State) (inp : list ascii) (c : ptr) (k : Z) :
  reachable st →
  scan st = (Some c, k, st1) →
  (∃ cmd inp1, fgets 16 inp = Some (cmd, inp1) ∧
     (trim_newline cmd = lit "q" ∨
      ∃ cmd2 inp2, fgets 16 inp1 = Some (cmd2, inp2) ∧ trim_newline cmd2 = lit "q")) →
  ∃ inp' st',
    practice_round inp st = (Break, inp', st') ∧
    (∀ fuel, practice_loop (S fuel) inp st = Some (inp', st')) ∧
    heap st' = heap st1 ∧
    q_nodes (queue st') = q_nodes (queue st1) ++ [c] ∧
    q_nodes (queue st') ≡ₚ q_nodes (queue st).
Proof.
  intros Hr Hscan Hq. pose proof (reachable_wf st Hr) as Hwf.
  destruct (scan_found st st1 c k Hwf Hscan) as (_ & _ & _ & _ & _ & _ & _ & Hsize).
  pose proof (scan_loop_perm (Z.to_nat (q_size (queue st))) 0 st) as Hperm.
  fold (scan st) in Hperm. rewrite Hscan in Hperm. simpl in Hperm.
  assert (∃ inp', practice_round inp st = (Break, inp', enqueue_card c st1)) as [inp' Hround].
  { unfold practice_round. rewrite Hscan.
    destruct Hq as (cmd & inp1 & -> & [Hcmd|(cmd2 & inp2 & -> & Hcmd2)]).
    - rewrite decide_True by done. by eexists.
    - case_decide; [by eexists|]. rewrite decide_True by done. by eexists. }
  exists inp', (enqueue_card c st1). split_and!; [done| |done|done|].
  - intros fuel. unfold practice_loop.
    destruct (Z.eqb_spec (q_size (queue st)) 0) as [?|_]; [done|].
    simpl. by rewrite Hround.
  - simpl. rewrite <- Hperm. symmetry. apply Permutation_cons_append.
Qed.

Lemma practice_quit_keeps_schedule_witness :
  let st := main_state in
  let st1 := set_queue (mkQueue [1%nat; 0%nat] 2) st in
  let inp := line "" ++ line "q" in
  reachable st ∧
  scan st = (Some 2%nat, 0, st1) ∧
  (∃ cmd inp1, fgets 16 inp = Some (cmd, inp1) ∧
     (trim_newline cmd = lit "q" ∨
      ∃ cmd2 inp2, fgets 16 inp1 = Some (cmd2, inp2) ∧ trim_newline cmd2 = lit "q")) ∧
  ∃ inp' st',
    practice_round inp st = (Break, inp', st') ∧
    (∀ fuel, practice_loop (S fuel) inp st = Some (inp', st')) ∧
    heap st' = heap st1 ∧
    q_nodes (queue st') = q_nodes (queue st1) ++ [2%nat] ∧
    q_nodes (queue st') ≡ₚ q_nodes (queue st).
Proof.
  intros st st1 inp.
  assert (scan st = (Some 2%nat, 0, st1)) as Hscan by (by vm_compute).
  assert (∃ cmd inp1, fgets 16 inp = Some (cmd, inp1) ∧
     (trim_newline cmd = lit "q" ∨
      ∃ cmd2 inp2, fgets 16 inp1 = Some (cmd2, inp2) ∧ trim_newline cmd2 = lit "q")) as Hq.
  { exists (line ""), (line "q"). split; [by vm_compute|]. right.
    exists (line "q"), []. split; by vm_compute. }
  split; [apply reach_main|]. split; [done|]. split; [done|].
  exact (practice_quit_keeps_schedule st st1 inp 2%nat 0 reach_main Hscan Hq).
Defined.

(** ** No pointer to a freed card *)

(** X27. In every state of a run, the card list, the queue and the tag map
    point to allocated cards only: the card list holds exactly the allocated
    cards, each once; every card of the queue is allocated and the queue
    holds no card twice; every card an entry of the tag map lists, and so
    every card a search prints, is allocated; and [q->size] is the number of
    nodes of the queue (as an [int]). *)
Theorem no_dangling_pointers (st : State) :
  reachable st →
  (∀ c, c ∈ cards_head st ↔ is_Some (heap st !! c)) ∧
  NoDup (cards_head st) ∧
  (∀ c, c ∈ q_nodes (queue st) → is_Some (heap st !! c)) ∧
  NoDup (q_nodes (queue st)) ∧
  (∀ h e c, e ∈ chain (tag_map st) h → c ∈ cards e → is_Some (heap st !! c)) ∧
  (∀ t c, c ∈ search_by_tag t st → is_Some (heap st !! c)) ∧
  q_size (queue st) = wrap_int (Z.of_nat (length (q_nodes (queue st)))).
Proof.
  intros Hwf%reachable_wf.
  assert (∀ t c, c ∈ cards_of (tag_map st) t → is_Some (heap st !! c)) as Hidx.
  { intros t c Hc%occ_pos. rewrite (wf_index _ Hwf) in Hc.
    case_decide as Hin; [|lia]. by apply (wf_live _ Hwf). }
  split_and!; try apply Hwf.
  - intros c Hc. by apply (wf_live _ Hwf), (wf_queue_store _ Hwf).
  - intros h e c He Hc. apply (Hidx (tag e)). unfold cards_of.
    by rewrite (tag_find_complete _ h e (wf_map _ Hwf) He).
  - intros t c. rewrite search_by_tag_cards_of. apply Hidx.
Qed.

Lemma no_dangling_pointers_witness :
  let st := (remove_card_interactive (line "2") main_state).2 in
  reachable st ∧
  (∀ c, c ∈ cards_head st ↔ is_Some (heap st !! c)) ∧
  NoDup (cards_head st) ∧
  (∀ c, c ∈ q_nodes (queue st) → is_Some (heap st !! c)) ∧
  NoDup (q_nodes (queue st)) ∧
  (∀ h e c, e ∈ chain (tag_map st) h → c ∈ cards e → is_Some (heap st !! c)) ∧
  (∀ t c, c ∈ search_by_tag t st → is_Some (heap st !! c)) ∧
  q_size (queue st) = wrap_int (Z.of_nat (length (q_nodes (queue st)))).
Proof.
  intros st.
  assert (reachable st) as Hr by apply reach_remove, reach_main.
  split; [done|]. exact (no_dangling_pointers st Hr).
Defined.
